(** * Legal-letter dataset generator (legalletters/dataset.py)

    A shallow embedding of the synthetic legal-letter generator and of the
    interpreter services it calls (str formatting, [textwrap.fill], the
    [random] module), followed by the properties of the generator. *)

From Stdlib Require Import String Ascii DecimalString DecimalPos.
From Stdlib Require Import List ZArith NArith QArith Lia Bool Permutation Arith.
From Stdlib Require DecimalZ.
Import ListNotations.

Local Open Scope N_scope.

(** ** Python strings

    A Python [str] is a sequence of Unicode code points. *)

Definition char := N.
Definition text := list char.

(** An ASCII literal of the source. *)
Definition str (s : string) : text := map N_of_ascii (list_ascii_of_string s).

Definition space : char := 32.
Definition newline : char := 10.
Definition hyphen : char := 45.
Definition capital_J : char := 74.
(** U+2014 EM DASH, the awards placeholder of [facts_to_string]. *)
Definition emdash : char := 8212.

Fixpoint text_eqb (a b : text) : bool :=
  match a, b with
  | [], [] => true
  | x :: a', y :: b' => (x =? y) && text_eqb a' b'
  | _, _ => false
  end.

(** [sep.join(parts)] *)
Fixpoint join (sep : text) (parts : list text) : text :=
  match parts with
  | [] => []
  | [p] => p
  | p :: ps => p ++ sep ++ join sep ps
  end.

(** [p in t] for strings: [p] occurs in [t] as a contiguous run. *)
Definition substr (p t : text) : Prop := exists a b, t = a ++ p ++ b.

Fixpoint starts_with (p t : text) : bool :=
  match p, t with
  | [], _ => true
  | x :: p', y :: t' => (x =? y) && starts_with p' t'
  | _ :: _, [] => false
  end.

Fixpoint contains (p t : text) : bool :=
  starts_with p t ||
  match t with
  | [] => false
  | _ :: t' => contains p t'
  end.

(** [str(n)], the text an f-string puts for a Python int that has no more
    digits than the interpreter converts (see [format_int] below for the
    limit and the error beyond it). *)
Definition str_of_int (n : Z) : text :=
  str (NilEmpty.string_of_int (Z.to_int n)).

(** ** textwrap.fill (CPython 3.11, default options)

    [expand_tabs], [replace_whitespace], [drop_whitespace],
    [break_long_words] and [break_on_hyphens] are on, both indents are empty,
    [fix_sentence_endings] is off and [max_lines] is [None]. *)

(** The characters of [textwrap._whitespace]: tab, LF, VT, FF, CR, space. *)
Definition is_ws (c : char) : bool := ((9 <=? c) && (c <=? 13)) || (c =? 32).

(** [str.isspace] on one code point, which [str.strip()] consults. *)
Definition py_isspace (c : char) : bool :=
  ((9 <=? c) && (c <=? 13)) || ((28 <=? c) && (c <=? 32)) ||
  (c =? 133) || (c =? 160) || (c =? 5760) ||
  ((8192 <=? c) && (c <=? 8202)) || (c =? 8232) || (c =? 8233) ||
  (c =? 8239) || (c =? 8287) || (c =? 12288).

(** [chunk.strip()] is the empty string. *)
Definition blank (t : text) : bool := forallb py_isspace t.

(** The regular-expression classes [\w] and [\d] are exact on ASCII; beyond
    ASCII they are tables of the interpreter's Unicode database, taken as a
    parameter. *)
Class UnicodeDB := {
  uni_word : char -> bool;     (* [\w] on code points >= 128 *)
  uni_decimal : char -> bool   (* [\d] on code points >= 128 *)
}.

Definition ascii_digit (c : char) : bool := (48 <=? c) && (c <=? 57).
Definition ascii_alpha (c : char) : bool :=
  ((65 <=? c) && (c <=? 90)) || ((97 <=? c) && (c <=? 122)).

Section Textwrap.
Context {U : UnicodeDB}.

Definition is_word (c : char) : bool :=
  if c <? 128 then ascii_digit c || ascii_alpha c || (c =? 95) else uni_word c.
Definition is_decimal (c : char) : bool :=
  if c <? 128 then ascii_digit c else uni_decimal c.
(** [letter]: a word character that is no decimal digit. *)
Definition is_letter (c : char) : bool := is_word c && negb (is_decimal c).
(** [word_punct]: a word character or one of ! (33), double quote (34),
    apostrophe (39), & (38), full stop (46), comma (44), ? (63). *)
Definition is_word_punct (c : char) : bool :=
  is_word c || (c =? 33) || (c =? 34) || (c =? 39) || (c =? 38) ||
  (c =? 46) || (c =? 44) || (c =? 63).

(** [str.expandtabs(8)]: the column restarts after LF and CR. *)
Fixpoint expandtabs_from (col : nat) (t : text) : text :=
  match t with
  | [] => []
  | c :: t' =>
      if c =? 9 then
        let incr := (8 - col mod 8)%nat in
        repeat space incr ++ expandtabs_from (col + incr) t'
      else if (c =? 10) || (c =? 13) then c :: expandtabs_from 0 t'
      else c :: expandtabs_from (S col) t'
  end.

(** [str.translate(unicode_whitespace_trans)] on one character. *)
Definition to_space (c : char) : char := if is_ws c then space else c.

(** [_munge_whitespace] *)
Definition munge_whitespace (t : text) : text :=
  map to_space (expandtabs_from 0 t).

(** *** [wordsep_re]

    [prev] is the text before the current position, last character first (for
    the look-behinds); the second argument is the text from the position on. *)

Fixpoint ws_run (t : text) : nat :=
  match t with
  | c :: t' => if is_ws c then S (ws_run t') else O
  | [] => O
  end.

Fixpoint hyphen_run (t : text) : nat :=
  match t with
  | c :: t' => if c =? hyphen then S (hyphen_run t') else O
  | [] => O
  end.

(** [-{2,}] followed by [(?=\w)]: the run has to be the maximal one, a hyphen
    is no word character. *)
Definition dashes_then_word (t : text) : bool :=
  let m := hyphen_run t in
  (2 <=? m)%nat && match skipn m t with c :: _ => is_word c | [] => false end.

(** [(?<=wp)] *)
Definition behind_word_punct (prev : text) : bool :=
  match prev with c :: _ => is_word_punct c | [] => false end.

(** After the hyphen: [(?<=lt{2}-) | (?<=lt-lt-)], on the text before it. *)
Definition behind_hyphen (prev : text) : bool :=
  match prev with
  | p1 :: p2 :: more =>
      is_letter p1 &&
      (is_letter p2 ||
       ((p2 =? hyphen) && match more with p3 :: _ => is_letter p3 | [] => false end))
  | _ => false
  end.

(** [(?= lt -? lt)] *)
Definition ahead_hyphen (t : text) : bool :=
  match t with
  | a :: b :: more =>
      is_letter a &&
      (((b =? hyphen) && match more with c :: _ => is_letter c | [] => false end)
       || is_letter b)
  | _ => false
  end.

(** The third alternative: [nws+?] has taken [k >= 1] characters; the result is
    the length of the whole match. *)
Fixpoint word_len (prev : text) (k : nat) (rest : text) : nat :=
  match rest with
  | [] => k
  | c :: r =>
      if (c =? hyphen) && behind_hyphen prev && ahead_hyphen r then S k
      else if is_ws c then k
      else if behind_word_punct prev && dashes_then_word rest then k
      else word_len (c :: prev) (S k) r
  end.

(** Length of the match of [wordsep_re] at the current position. *)
Definition match_len (prev rest : text) : nat :=
  match rest with
  | [] => O
  | c :: r =>
      if is_ws c then ws_run rest
      else if behind_word_punct prev && dashes_then_word rest then hyphen_run rest
      else word_len (c :: prev) 1 r
  end.

(** [_split]: the matches of [wordsep_re] tile the text, so [re.split] leaves
    only empty strings between them, which are filtered out. *)
Fixpoint split_from (fuel : nat) (prev rest : text) : list text :=
  match fuel, rest with
  | _, [] => []
  | O, _ => [rest]
  | S fuel', _ =>
      let n := match_len prev rest in
      firstn n rest :: split_from fuel' (rev (firstn n rest) ++ prev) (skipn n rest)
  end.

Definition split_text (t : text) : list text := split_from (length t) [] t.

(** [_split_chunks] *)
Definition split_chunks (t : text) : list text :=
  split_text (munge_whitespace t).

(** *** [_wrap_chunks] *)

(** The inner loop: chunks are moved to the current line while they fit. *)
Fixpoint take_fitting (width cur_len : nat) (chunks : list text)
  : list text * list text :=
  match chunks with
  | c :: cs =>
      if (cur_len + length c <=? width)%nat then
        let (line, rest) := take_fitting width (cur_len + length c) cs in
        (c :: line, rest)
      else ([], chunks)
  | [] => ([], [])
  end.

(** [chunk.rfind('-', 0, stop)] *)
Fixpoint rfind_hyphen (chunk : text) (stop : nat) : option nat :=
  match stop, chunk with
  | S stop', c :: chunk' =>
      match rfind_hyphen chunk' stop' with
      | Some i => Some (S i)
      | None => if c =? hyphen then Some O else None
      end
  | _, _ => None
  end.

(** [_handle_long_word], for a positive width: the part of the chunk put on the
    current line and the part left on the stack. *)
Definition handle_long_word (chunk : text) (cur_len width : nat) : text * text :=
  let space_left := (width - cur_len)%nat in
  let end_ :=
    if (space_left <? length chunk)%nat then
      match rfind_hyphen chunk space_left with
      | Some (S h) =>
          if existsb (fun c => negb (c =? hyphen)) (firstn (S h) chunk)
          then S (S h) else space_left
      | _ => space_left
      end
    else space_left in
  (firstn end_ chunk, skipn end_ chunk).

Definition total_len (chunks : list text) : nat := length (concat chunks).

(** Drops the last chunk of the line when it is blank. *)
Definition drop_trailing_blank (cur_line : list text) : list text :=
  match rev cur_line with
  | c :: more => if blank c then rev more else cur_line
  | [] => cur_line
  end.

(** One round of the outer loop: the line it appends, if any, and the chunks
    left. [started] says that [lines] is not empty. *)
Definition wrap_round (width : nat) (started : bool) (chunks : list text)
  : option text * list text :=
  let chunks1 :=
    match chunks with
    | c :: cs => if blank c && started then cs else chunks
    | [] => chunks
    end in
  let (cur_line, chunks2) := take_fitting width 0 chunks1 in
  let (cur_line', chunks3) :=
    match chunks2 with
    | c :: cs =>
        if (width <? length c)%nat then
          let (piece, left) := handle_long_word c (total_len cur_line) width in
          (cur_line ++ [piece], left :: cs)
        else (cur_line, chunks2)
    | [] => (cur_line, chunks2)
    end in
  match drop_trailing_blank cur_line' with
  | [] => (None, chunks3)
  | l => (Some (concat l), chunks3)
  end.

Fixpoint wrap_loop (fuel width : nat) (started : bool) (chunks : list text)
  : list text :=
  match fuel, chunks with
  | _, [] => []
  | O, _ => []
  | S fuel', _ =>
      match wrap_round width started chunks with
      | (Some line, chunks') => line :: wrap_loop fuel' width true chunks'
      | (None, chunks') => wrap_loop fuel' width started chunks'
      end
  end.

(** Every round takes at least one character off the stack, so the loop is
    over after [total_len chunks] rounds. *)
Definition wrap_chunks (width : nat) (chunks : list text) : list text :=
  wrap_loop (S (total_len chunks)) width false chunks.

Definition wrap (width : nat) (t : text) : list text :=
  wrap_chunks width (split_chunks t).

(** [textwrap.fill(t, width=width)] *)
Definition fill (width : nat) (t : text) : text :=
  join [newline] (wrap width t).

(** *** Words that [wordsep_re] keeps whole

    A run of characters is solid when it has no whitespace at all ([str.isspace]
    is false on every character) and every hyphen in it is followed by a
    character that is neither a letter nor a hyphen: neither the hyphenated-word
    alternative nor the em-dash alternatives of [wordsep_re] can match inside. *)

Fixpoint hyphen_safe (t : text) : bool :=
  match t with
  | [] => true
  | c :: r =>
      (if c =? hyphen then
         match r with
         | [] => false
         | d :: _ => negb (is_letter d) && negb (d =? hyphen)
         end
       else true) && hyphen_safe r
  end.

Definition no_space (t : text) : bool :=
  forallb (fun c => negb (py_isspace c)) t.

Definition solid (t : text) : bool := no_space t && hyphen_safe t.

(** The text is empty or ends with whitespace. *)
Definition ws_end (t : text) : bool :=
  match rev t with
  | [] => true
  | c :: _ => is_ws c
  end.

(** The text is empty or starts with whitespace. *)
Definition ws_start (t : text) : bool :=
  match t with
  | [] => true
  | c :: _ => is_ws c
  end.

(** What may follow a comma-joined list for its last entry to stay whole:
    whitespace, the end, or one full stop or comma before them. *)
Definition closes_item (S : text) : Prop :=
  ws_start S = true \/
  exists p S', S = p :: S' /\ (p = 44 \/ p = 46) /\ ws_start S' = true.

(** Length of the longest prefix without whitespace. *)
Fixpoint nonws_run (t : text) : nat :=
  match t with
  | c :: t' => if is_ws c then O else S (nonws_run t')
  | [] => O
  end.

End Textwrap.

(** The classes restricted to ASCII: every character beyond is no word
    character. *)
Definition ascii_only : UnicodeDB :=
  {| uni_word := fun _ => false; uni_decimal := fun _ => false |}.

(** Inverse of [str] on ASCII, to display results. *)
Definition show (t : text) : string :=
  string_of_list_ascii (map ascii_of_N t).

(** ** Exceptions and the [random] module *)

Inductive exn := ValueError | IndexError.

Inductive result (A : Type) : Type :=
| Ok (a : A)
| Raise (e : exn).
Arguments Ok {A} a.
Arguments Raise {A} e.

Local Open Scope Z_scope.

(** The module-level functions of [random] the generator calls, with the
    contracts of the library: [random()] is in [0, 1); [randint(a, b)] is in
    [a, b] and raises [ValueError] on an empty range; [choice(seq)] is an
    element of [seq] and raises [IndexError] on an empty one; [sample(pop, k)]
    takes [k] entries at distinct positions of [pop] and raises [ValueError]
    unless [0 <= k <= len(pop)]. The hidden generator state is [rng]. *)
Class RandomSource := {
  rng : Type;
  random : rng -> Q * rng;
  randint : Z -> Z -> rng -> result (Z * rng);
  choice : forall {A : Type}, list A -> rng -> result (A * rng);
  sample : forall {A : Type}, list A -> Z -> rng -> result (list A * rng);
  random_unit : forall s, (0 <= fst (random s))%Q /\ (fst (random s) < 1)%Q;
  randint_spec : forall a b s,
    if a <=? b
    then exists n s', randint a b s = Ok (n, s') /\ a <= n <= b
    else randint a b s = Raise ValueError;
  choice_spec : forall (A : Type) (l : list A) s,
    match l with
    | [] => choice l s = Raise IndexError
    | _ => exists x s', choice l s = Ok (x, s') /\ In x l
    end;
  sample_spec : forall (A : Type) (l : list A) k s,
    if (0 <=? k) && (k <=? Z.of_nat (length l))
    then exists r s', sample l k s = Ok (r, s') /\
           Z.of_nat (length r) = k /\ exists rest, Permutation (r ++ rest) l
    else sample l k s = Raise ValueError
}.

(** Computations that read the random source and may raise. *)
Definition M `{RandomSource} (A : Type) : Type := rng -> result (A * rng).

Definition ret `{RandomSource} {A} (a : A) : M A := fun s => Ok (a, s).
Definition bind `{RandomSource} {A B} (m : M A) (f : A -> M B) : M B :=
  fun s => match m s with
           | Ok (a, s') => f a s'
           | Raise e => Raise e
           end.
Definition raise `{RandomSource} {A} (e : exn) : M A := fun _ => Raise e.
Definition lift `{RandomSource} {A} (r : result A) : M A :=
  match r with Ok a => ret a | Raise e => raise e end.
(** [random.random()] never raises. *)
Definition random_ `{RandomSource} : M Q := fun s => Ok (random s).

Notation "x <- m ;; k" := (bind m (fun x => k))
  (at level 61, m at next level, right associativity).
Notation "' pat <- m ;; k" := (bind m (fun x => match x with pat => k end))
  (at level 61, pat pattern, m at next level, right associativity).

(** [u < p] on floats; every float is a rational. *)
Definition float_lt (u p : Q) : bool := negb (Qle_bool p u).

(** ** The limit on the conversion of ints

    Since CPython 3.11 the interpreter turns an int into decimal text only
    when it has at most [int_max_str_digits] digits (4300 unless configured
    otherwise) and raises [ValueError] beyond. [str_of_int] is the text of an
    int within the limit, and [format_int] is the conversion with its error.
    What is stated below about the errors a function can raise is stated for
    ints within the limit. *)
Definition int_max_str_digits : Z := 4300.

Definition convertible (n : Z) : bool := Z.abs n <? 10 ^ int_max_str_digits.

(** [f"{n}"] *)
Definition format_int (n : Z) : result text :=
  if convertible n then Ok (str_of_int n) else Raise ValueError.

(** ** Configuration (the module-level constants) *)

Record Config := {
  VISA_TYPES : list text;
  FIELDS : list text;
  P_OMIT_KEY_FACT : Q;
  P_WRONG_COUNT : Q;
  P_HALLUCINATION : Q;
  P_WEAK_VISA_MENTION : Q;
  P_STYLE_WEAK : Q;
  P_SECTION_MISS : Q;
  PUB_RANGE : Z * Z;
  CITATION_RANGE : Z * Z;
  AWARD_POOL : list text;
  VENUE_POOL : list text;
  ORG_POOL : list text;
  TITLE_POOL : list text
}.

(** The values in the source; a float literal stands for the binary64 number
    nearest to it. *)
Definition float_0_30 : Q := 5404319552844595 # 18014398509481984.
Definition float_0_20 : Q := 3602879701896397 # 18014398509481984.
Definition float_0_12 : Q := 1080863910568919 # 9007199254740992.
Definition float_0_60 : Q := 5404319552844595 # 9007199254740992.
Definition float_0_7 : Q := 3152519739159347 # 4503599627370496.
Definition float_0_08 : Q := 5764607523034235 # 72057594037927936.
Definition float_0_35 : Q := 3152519739159347 # 9007199254740992.

Definition default_config : Config := {|
  VISA_TYPES := [str "EB-1A"; str "O-1A"; str "NIW"];
  FIELDS := [str "computer vision"; str "computational biology"; str "robotics";
             str "NLP"; str "theoretical CS"; str "HCI"; str "cybersecurity"];
  P_OMIT_KEY_FACT := float_0_30;
  P_WRONG_COUNT := float_0_20;
  P_HALLUCINATION := float_0_12;
  P_WEAK_VISA_MENTION := 1 # 2;
  P_STYLE_WEAK := float_0_60;
  P_SECTION_MISS := 1 # 4;
  PUB_RANGE := (8, 80);
  CITATION_RANGE := (200, 5000);
  AWARD_POOL := [str "ACM Best Paper Award"; str "IEEE Fellow";
                 str "Sloan Fellowship"; str "NSF CAREER Award";
                 str "Turing Award nomination"; str "AAAI Fellow";
                 str "ACL Best Paper Award"; str "NeurIPS Outstanding Paper";
                 str "ICLR Spotlight"];
  VENUE_POOL := [str "NeurIPS"; str "ICML"; str "CVPR"; str "ACL"; str "EMNLP";
                 str "KDD"; str "AAAI"; str "ICLR"];
  ORG_POOL := [str "MIT"; str "Stanford"; str "CMU"; str "Berkeley";
               str "Google DeepMind"; str "Microsoft Research"; str "OpenAI";
               str "Caltech"];
  TITLE_POOL := [str "Professor"; str "Associate Professor";
                 str "Research Scientist"; str "Principal Scientist";
                 str "Chair"; str "Director"]
|}.

(** ** Data model *)

Record Person := {
  full_name : text;
  affiliation : text;
  title : text
}.

Record BeneficiaryFacts := {
  name : text;
  field : text;
  pubs : Z;
  citations : Z;
  key_awards : list text;
  key_venues : list text
}.

(** ** List operations of the source, with their [IndexError] *)

(** Python's index [i] on a list of length [n]: negative indices count from
    the end. *)
Definition norm_index (n : nat) (i : Z) : option nat :=
  let j := if i <? 0 then i + Z.of_nat n else i in
  if (0 <=? j) && (j <? Z.of_nat n) then Some (Z.to_nat j) else None.

(** [l[i]] *)
Definition get_item {A} (l : list A) (i : Z) : result A :=
  match norm_index (length l) i with
  | Some j => match nth_error l j with Some x => Ok x | None => Raise IndexError end
  | None => Raise IndexError
  end.

(** [l[i] = x] *)
Definition set_item {A} (l : list A) (i : Z) (x : A) : result (list A) :=
  match norm_index (length l) i with
  | Some j => Ok (firstn j l ++ x :: skipn (S j) l)
  | None => Raise IndexError
  end.

(** [l.pop(0)], keeping the list only. *)
Definition pop_first {A} (l : list A) : result (list A) :=
  match l with
  | [] => Raise IndexError
  | _ :: l' => Ok l'
  end.

Section Generator.
Context {U : UnicodeDB} {R : RandomSource}.
Variable cfg : Config.

(** ** Helpers *)

Definition choice_no_replacement (pool : list text) (k : Z) : M (list text) :=
  sample pool (Z.min k (Z.of_nat (length pool))).

Definition mk_beneficiary (i : Z) : M BeneficiaryFacts :=
  field_ <- choice (FIELDS cfg) ;;
  pubs_ <- randint (fst (PUB_RANGE cfg)) (snd (PUB_RANGE cfg)) ;;
  citations_ <- randint (fst (CITATION_RANGE cfg)) (snd (CITATION_RANGE cfg)) ;;
  ka <- randint 0 2 ;;
  awards <- choice_no_replacement (AWARD_POOL cfg) ka ;;
  kv <- randint 1 3 ;;
  venues <- choice_no_replacement (VENUE_POOL cfg) kv ;;
  ret {| name := str "Dr. Alex " ++ str_of_int i;
         field := field_;
         pubs := pubs_;
         citations := citations_;
         key_awards := awards;
         key_venues := venues |}.

Definition mk_recommender (i : Z) : M Person :=
  aff <- choice (ORG_POOL cfg) ;;
  title_ <- choice (TITLE_POOL cfg) ;;
  ret {| full_name := str "Dr. Jordan " ++ str_of_int i;
         affiliation := aff;
         title := title_ |}.

(** The paragraph of [facts_to_string] before it is wrapped. *)
Definition facts_paragraph (b : BeneficiaryFacts) : text :=
  let awards :=
    match key_awards b with
    | [] => [emdash]
    | _ => join (str ", ") (key_awards b)
    end in
  let venues := join (str ", ") (key_venues b) in
  name b ++ str " works in " ++ field b ++ str ". Publications: " ++
  str_of_int (pubs b) ++ str ". " ++
  str "Citations: " ++ str_of_int (citations b) ++ str ". Awards: " ++
  awards ++ str ". " ++
  str "Key venues: " ++ venues ++ str ".".

Definition facts_to_string (b : BeneficiaryFacts) : text :=
  fill 120 (facts_paragraph b).

Definition recommender_to_string (r : Person) : text :=
  full_name r ++ str ", " ++ title r ++ str ", " ++ affiliation r.

Definition legal_intro (visa_type : text) (r : Person) (b : BeneficiaryFacts)
  : text :=
  str "I am honored to recommend " ++ name b ++ str " for the " ++ visa_type ++
  str " visa category. " ++
  str "As " ++ title r ++ str " at " ++ affiliation r ++
  str ", I have closely followed " ++ name b ++ str "'s work in " ++ field b ++
  str ".".

Definition legal_evidence (b : BeneficiaryFacts) : text :=
  let parts :=
    [name b ++ str " has authored " ++ str_of_int (pubs b) ++
     str " peer-reviewed publications with approximately " ++
     str_of_int (citations b) ++ str " citations."] in
  let parts :=
    match key_awards b with
    | [] => parts
    | _ => parts ++ [str "Notably, " ++ name b ++ str " received " ++
                     join (str ", ") (key_awards b) ++ str "."]
    end in
  let parts :=
    parts ++ [name b ++ str "'s research appears at " ++
              join (str ", ") (key_venues b) ++
              str " and is widely recognized in " ++ field b ++ str "."] in
  join (str " ") parts.

Definition legal_closing (b : BeneficiaryFacts) : text :=
  str "In summary, " ++ name b ++
  str " demonstrates sustained national and international acclaim. " ++
  str "I strongly endorse this petition and am available for any additional information.".

Definition final_paragraphs (visa_type : text) (r : Person)
  (b : BeneficiaryFacts) : list text :=
  [legal_intro visa_type r b; legal_evidence b; legal_closing b].

Definition mk_final_draft (visa_type : text) (r : Person) (b : BeneficiaryFacts)
  : text :=
  join [newline; newline] (map (fill 110) (final_paragraphs visa_type r b)).

Definition maybe_wrong_count (true_val : Z) : M Z :=
  delta <- randint 5 20 ;;
  d <- choice [- delta; delta] ;;
  ret (Z.max 1 (true_val + d)).

(** ** The rough draft

    [mk_rough_draft] is a sequence of eight gated blocks over the list
    [chunks]; every block is a function here, in the order of the source, and
    returns next to the new [chunks] what it decided. *)

Definition rough_intro (b : BeneficiaryFacts) : text :=
  str "I am writing to recommend " ++ name b ++ str ". " ++ name b ++
  str " is a talented researcher in " ++ field b ++ str ".".

Definition rough_evidence (b : BeneficiaryFacts) : text :=
  str "They have many publications and their work is known at venues like " ++
  join (str ", ") (key_venues b) ++ str ".".

Definition rough_closing : text := str "I believe they are qualified for the visa.".

Definition visa_closing (visa : text) : text :=
  str "I believe they are qualified for the " ++ visa ++ str " visa.".

Definition count_claim (n : Z) : text :=
  str " They have around " ++ str_of_int n ++ str " publications.".

Definition fake_awards : list text :=
  [str "Best Innovator 2022"; str "Global Genius Prize"; str "World AI Medal"].

Definition fake_claim (fake_award : text) : text :=
  str " They also received the " ++ fake_award ++ str ".".

Definition filler_opening : text :=
  str "I am pleased to write this letter. It is my pleasure to write this letter.".

Definition passive_filler : text :=
  str " Their contributions have been considered impactful by many, in ways that are thought to be significant.".

(** [chunks[1] += s] *)
Definition append_item (chunks : list text) (i : Z) (s : text) : M (list text) :=
  e <- lift (get_item chunks i) ;;
  lift (set_item chunks i (e ++ s)).

(** Block 1: the closing names the visa category or not. The flag is [true]
    when the vague closing is taken. *)
Definition gate_weak_visa (visa_type : text) (chunks : list text)
  : M (list text * bool) :=
  u <- random_ ;;
  if float_lt u (P_WEAK_VISA_MENTION cfg) then
    c <- lift (set_item chunks (-1) (str "I believe they are highly qualified.")) ;;
    ret (c, true)
  else
    c <- lift (set_item chunks (-1) (visa_closing visa_type)) ;;
    ret (c, false).

(** Which generic evidence sentence block 2 took. *)
Inductive omission := GenericField | GenericVenues.

Definition gate_omit_key_fact (b : BeneficiaryFacts) (chunks : list text)
  : M (list text * option omission) :=
  u <- random_ ;;
  if float_lt u (P_OMIT_KEY_FACT cfg) then
    awards_branch <-
      match key_awards b with
      | [] => ret false
      | _ => v <- random_ ;; ret (float_lt v float_0_7)
      end ;;
    if awards_branch : bool then
      c <- lift (set_item chunks 1
                  (str "They have many publications and are recognized in their field.")) ;;
      ret (c, Some GenericField)
    else
      c <- lift (set_item chunks 1 (str "Their work is recognized at top venues.")) ;;
      ret (c, Some GenericVenues)
  else ret (chunks, None).

(** Block 3: the flag is the wrong count, when one was drawn. *)
Definition gate_wrong_count (b : BeneficiaryFacts) (chunks : list text)
  : M (list text * option Z) :=
  u <- random_ ;;
  if float_lt u (P_WRONG_COUNT cfg) then
    wrong_pubs <- maybe_wrong_count (pubs b) ;;
    c <- append_item chunks 1 (count_claim wrong_pubs) ;;
    ret (c, Some wrong_pubs)
  else
    c <- append_item chunks 1 (count_claim (pubs b)) ;;
    ret (c, None).

Definition gate_hallucination (chunks : list text)
  : M (list text * option text) :=
  u <- random_ ;;
  if float_lt u (P_HALLUCINATION cfg) then
    fake_award <- choice fake_awards ;;
    c <- append_item chunks 1 (fake_claim fake_award) ;;
    ret (c, Some fake_award)
  else ret (chunks, None).

Definition gate_style_weak (chunks : list text) : M (list text * bool) :=
  u <- random_ ;;
  if float_lt u (P_STYLE_WEAK cfg) then ret (filler_opening :: chunks, true)
  else ret (chunks, false).

(** What block 6 removed: the first element of [chunks] or the last one. *)
Inductive removal := PopFirst | DropLast.

Definition gate_section_miss (chunks : list text)
  : M (list text * option removal) :=
  u <- random_ ;;
  if float_lt u (P_SECTION_MISS cfg) then
    v <- random_ ;;
    if float_lt v (1 # 2) && (2 <? length chunks)%nat then
      c <- lift (pop_first chunks) ;;
      ret (c, Some PopFirst)
    else ret (removelast chunks, Some DropLast)
  else ret (chunks, None).

Definition gate_misname (visa_type : text) (chunks : list text)
  : M (list text * option text) :=
  u <- random_ ;;
  if float_lt u float_0_08 then
    wrong_visa <-
      choice (filter (fun v => negb (text_eqb v visa_type)) (VISA_TYPES cfg)) ;;
    c <- lift (set_item chunks (-1) (visa_closing wrong_visa)) ;;
    ret (c, Some wrong_visa)
  else ret (chunks, None).

Definition gate_passive (body : text) : M (text * bool) :=
  u <- random_ ;;
  if float_lt u float_0_35 then ret (body ++ passive_filler, true)
  else ret (body, false).

(** What the eight blocks of one run decided. *)
Record GateLog := {
  weak_visa : bool;
  omitted : option omission;
  wrong_count : option Z;
  hallucinated : option text;
  style_weak : bool;
  section_removed : option removal;
  misnamed : option text;
  passive : bool
}.

(** [mk_rough_draft], with the decisions of its blocks. *)
Definition mk_rough_draft_log (visa_type : text) (r : Person)
  (b : BeneficiaryFacts) : M (text * GateLog) :=
  let chunks := [rough_intro b; rough_evidence b; rough_closing] in
  '(chunks, g1) <- gate_weak_visa visa_type chunks ;;
  '(chunks, g2) <- gate_omit_key_fact b chunks ;;
  '(chunks, g3) <- gate_wrong_count b chunks ;;
  '(chunks, g4) <- gate_hallucination chunks ;;
  '(chunks, g5) <- gate_style_weak chunks ;;
  '(chunks, g6) <- gate_section_miss chunks ;;
  '(chunks, g7) <- gate_misname visa_type chunks ;;
  let body := join (str " ") chunks in
  '(body, g8) <- gate_passive body ;;
  ret (fill 110 body,
       {| weak_visa := g1; omitted := g2; wrong_count := g3;
          hallucinated := g4; style_weak := g5; section_removed := g6;
          misnamed := g7; passive := g8 |}).

Definition mk_rough_draft (visa_type : text) (r : Person)
  (b : BeneficiaryFacts) : M text :=
  tl <- mk_rough_draft_log visa_type r b ;;
  ret (fst tl).

Definition build_strings (visa_type : text) (r : Person) (b : BeneficiaryFacts)
  : M (text * text * text * text) :=
  let beneficiary_str := facts_to_string b in
  let recommender_str := recommender_to_string r in
  rough <- mk_rough_draft visa_type r b ;;
  let final := mk_final_draft visa_type r b in
  ret (beneficiary_str, recommender_str, rough, final).

End Generator.


(** ** Checks on texts

    Properties of a text that pass from the parts to their concatenation; they
    serve to show that a string does not occur in a draft. *)

(** The character [c] does not occur in [t]. *)
Definition lacks (c : char) (t : text) : bool :=
  forallb (fun a => negb (a =? c)%N) t.

(** The only whitespace of [t] is the space. *)
Definition plain (t : text) : bool :=
  forallb (fun a => negb (is_ws a) || (a =? space)%N) t.

(** [x] immediately followed by [y] occurs in [t]. *)
Fixpoint has_pair (x y : char) (t : text) : bool :=
  match t with
  | a :: t' =>
      match t' with
      | b :: _ => (a =? x)%N && (b =? y)%N
      | [] => false
      end || has_pair x y t'
  | [] => false
  end.

Definition starts_with_char (y : char) (t : text) : bool :=
  match t with
  | c :: _ => (c =? y)%N
  | [] => false
  end.

(** [t] has no [x] followed by [y] and does not start with [y]: however such
    texts are concatenated, no [x] followed by [y] appears. *)
Definition pair_clean (x y : char) (t : text) : bool :=
  negb (has_pair x y t) && negb (starts_with_char y t).

(** A check that holds of the empty text and of concatenations. *)
Record closed_check (chk : text -> bool) : Prop := {
  chk_nil : chk [] = true;
  chk_app : forall a b, chk a = true -> chk b = true -> chk (a ++ b) = true
}.

(** The literal parts of the rough draft. *)
Definition rough_literals : list text :=
  [str "I am writing to recommend "; str ". ";
   str " is a talented researcher in "; str ".";
   str "They have many publications and their work is known at venues like ";
   str ", "; str " ";
   str "I believe they are highly qualified.";
   str "They have many publications and are recognized in their field.";
   str "Their work is recognized at top venues.";
   str " They have around "; str " publications.";
   filler_opening; passive_filler].

(** The literal parts of the final draft. *)
Definition final_literals : list text :=
  [str "I am honored to recommend "; str " for the "; str " visa category. ";
   str "As "; str " at "; str ", I have closely followed ";
   str "'s work in "; str "."; str " has authored ";
   str " peer-reviewed publications with approximately "; str " citations.";
   str "Notably, "; str " received "; str ", "; str " ";
   str "'s research appears at "; str " and is widely recognized in ";
   str "In summary, ";
   str " demonstrates sustained national and international acclaim. ";
   str "I strongly endorse this petition and am available for any additional information."].

(** Facts as [mk_beneficiary] makes them, and recommenders as
    [mk_recommender] makes them. *)
Definition generated_facts (cfg : Config) (b : BeneficiaryFacts) : Prop :=
  (exists i, name b = str "Dr. Alex " ++ str_of_int i) /\
  In (field b) (FIELDS cfg) /\
  fst (PUB_RANGE cfg) <= pubs b <= snd (PUB_RANGE cfg) /\
  fst (CITATION_RANGE cfg) <= citations b <= snd (CITATION_RANGE cfg) /\
  incl (key_awards b) (AWARD_POOL cfg) /\
  incl (key_venues b) (VENUE_POOL cfg).

Definition generated_recommender (cfg : Config) (r : Person) : Prop :=
  (exists i, full_name r = str "Dr. Jordan " ++ str_of_int i) /\
  In (affiliation r) (ORG_POOL cfg) /\
  In (title r) (TITLE_POOL cfg).

(** ** Random sources that answer alike

    Two runs see the same randomness when their sources, in states related by
    [sim], return equal values and go to related states. Runs from one seed of
    one source are the case of equal states. *)

Definition same_result {A S1 S2 : Type} (sim : S1 -> S2 -> Prop)
  (x : result (A * S1)) (y : result (A * S2)) : Prop :=
  match x, y with
  | Ok (a, s1), Ok (b, s2) => a = b /\ sim s1 s2
  | Raise e1, Raise e2 => e1 = e2
  | _, _ => False
  end.

Record answer_alike (R1 R2 : RandomSource)
  (sim : @rng R1 -> @rng R2 -> Prop) : Prop := {
  alike_random : forall s1 s2, sim s1 s2 ->
    fst (random s1) = fst (random s2) /\ sim (snd (random s1)) (snd (random s2));
  alike_randint : forall a b s1 s2, sim s1 s2 ->
    same_result sim (randint a b s1) (randint a b s2);
  alike_choice : forall (A : Type) (l : list A) s1 s2, sim s1 s2 ->
    same_result sim (choice l s1) (choice l s2);
  alike_sample : forall (A : Type) (l : list A) k s1 s2, sim s1 s2 ->
    same_result sim (sample l k s1) (sample l k s2)
}.

(** Two computations that return alike from related states. *)
Definition alike_runs {R1 R2 : RandomSource}
  (sim : @rng R1 -> @rng R2 -> Prop) {A : Type}
  (m1 : @M R1 A) (m2 : @M R2 A) : Prop :=
  forall s1 s2, sim s1 s2 -> same_result sim (m1 s1) (m2 s2).

(** ** Inputs for the concrete runs *)

(** The configuration of the source with the venue pool emptied. *)
Definition config_without_venues : Config := {|
  VISA_TYPES := VISA_TYPES default_config;
  FIELDS := FIELDS default_config;
  P_OMIT_KEY_FACT := P_OMIT_KEY_FACT default_config;
  P_WRONG_COUNT := P_WRONG_COUNT default_config;
  P_HALLUCINATION := P_HALLUCINATION default_config;
  P_WEAK_VISA_MENTION := P_WEAK_VISA_MENTION default_config;
  P_STYLE_WEAK := P_STYLE_WEAK default_config;
  P_SECTION_MISS := P_SECTION_MISS default_config;
  PUB_RANGE := PUB_RANGE default_config;
  CITATION_RANGE := CITATION_RANGE default_config;
  AWARD_POOL := AWARD_POOL default_config;
  VENUE_POOL := [];
  ORG_POOL := ORG_POOL default_config;
  TITLE_POOL := TITLE_POOL default_config
|}.

(** The configuration of the source with [P_SECTION_MISS] forced to 1.0. *)
Definition config_section_miss : Config := {|
  VISA_TYPES := VISA_TYPES default_config;
  FIELDS := FIELDS default_config;
  P_OMIT_KEY_FACT := P_OMIT_KEY_FACT default_config;
  P_WRONG_COUNT := P_WRONG_COUNT default_config;
  P_HALLUCINATION := P_HALLUCINATION default_config;
  P_WEAK_VISA_MENTION := P_WEAK_VISA_MENTION default_config;
  P_STYLE_WEAK := P_STYLE_WEAK default_config;
  P_SECTION_MISS := 1;
  PUB_RANGE := PUB_RANGE default_config;
  CITATION_RANGE := CITATION_RANGE default_config;
  AWARD_POOL := AWARD_POOL default_config;
  VENUE_POOL := VENUE_POOL default_config;
  ORG_POOL := ORG_POOL default_config;
  TITLE_POOL := TITLE_POOL default_config
|}.

Definition recommender_1 : Person :=
  {| full_name := str "Dr. Jordan 1"; affiliation := str "MIT";
     title := str "Professor" |}.

(** The facts of the end-to-end scenario of the spec. *)
Definition facts_1 : BeneficiaryFacts :=
  {| name := str "Dr. Alex 1"; field := str "NLP"; pubs := 22;
     citations := 1400; key_awards := [str "ACM Best Paper Award"];
     key_venues := [str "ACL"; str "EMNLP"] |}.

(** A beneficiary with a short name, whose award is two words. *)
Definition facts_ada : BeneficiaryFacts :=
  {| name := str "Ada"; field := str "NLP"; pubs := 22; citations := 1400;
     key_awards := [str "IEEE Fellow"]; key_venues := [str "ACL"; str "EMNLP"] |}.

(** A recommender who has the name of the beneficiary [facts_1]. *)
Definition recommender_namesake : Person :=
  {| full_name := str "Dr. Alex 1"; affiliation := str "MIT";
     title := str "Professor" |}.

(** A beneficiary who publishes in a conference track that is named like an
    entry of the award pool. *)
Definition facts_spotlight : BeneficiaryFacts :=
  {| name := str "Dr. Alex 3"; field := str "robotics"; pubs := 30;
     citations := 900; key_awards := [];
     key_venues := [str "ICLR Spotlight"] |}.

(** The facts [b] with other awards. *)
Definition with_awards (b : BeneficiaryFacts) (awards : list text)
  : BeneficiaryFacts :=
  {| name := name b; field := field b; pubs := pubs b;
     citations := citations b; key_awards := awards;
     key_venues := key_venues b |}.

(** For every real award, two adjacent characters of it that no rough draft
    of generated facts has: Pa, Fe, Aw, Sp. *)
Definition award_pairs : list (char * char) :=
  [(80, 97); (70, 101); (65, 119); (83, 112)]%N.

(** A beneficiary with a single publication. *)
Definition facts_one_pub : BeneficiaryFacts :=
  {| name := str "Dr. Alex 2"; field := str "HCI"; pubs := 1;
     citations := 200; key_awards := []; key_venues := [str "KDD"] |}.

(** A decision procedure for duplicate-free lists of strings. *)
Fixpoint mem_text (x : text) (l : list text) : bool :=
  match l with
  | [] => false
  | y :: l' => text_eqb x y || mem_text x l'
  end.

Fixpoint nodup_text (l : list text) : bool :=
  match l with
  | [] => true
  | x :: l' => negb (mem_text x l') && nodup_text l'
  end.

(** ** The rough draft as a function of the decisions

    What [mk_rough_draft] returns once the decisions of its blocks are known;
    the runs of [mk_rough_draft_log] are related to it below. *)

Definition closing_of (visa_type : text) (g : GateLog) : text :=
  if weak_visa g then str "I believe they are highly qualified."
  else visa_closing visa_type.

Definition evidence_of (b : BeneficiaryFacts) (g : GateLog) : text :=
  match omitted g with
  | None => rough_evidence b
  | Some GenericField =>
      str "They have many publications and are recognized in their field."
  | Some GenericVenues => str "Their work is recognized at top venues."
  end ++
  count_claim (match wrong_count g with Some w => w | None => pubs b end) ++
  match hallucinated g with Some f => fake_claim f | None => [] end.

Definition styled_chunks (visa_type : text) (b : BeneficiaryFacts) (g : GateLog)
  : list text :=
  (if style_weak g then [filler_opening] else []) ++
  [rough_intro b; evidence_of b g; closing_of visa_type g].

Definition surviving_chunks (visa_type : text) (b : BeneficiaryFacts)
  (g : GateLog) : list text :=
  match section_removed g with
  | None => styled_chunks visa_type b g
  | Some PopFirst => tl (styled_chunks visa_type b g)
  | Some DropLast => removelast (styled_chunks visa_type b g)
  end.

Definition chunks_of (visa_type : text) (b : BeneficiaryFacts) (g : GateLog)
  : list text :=
  match misnamed g with
  | None => surviving_chunks visa_type b g
  | Some wrong_visa =>
      removelast (surviving_chunks visa_type b g) ++ [visa_closing wrong_visa]
  end.

Definition body_of (visa_type : text) (b : BeneficiaryFacts) (g : GateLog)
  : text :=
  join (str " ") (chunks_of visa_type b g) ++
  (if passive g then passive_filler else []).

(** The decisions a run can log for the facts [b]. *)
Definition log_ok (cfg : Config) (visa_type : text) (b : BeneficiaryFacts)
  (g : GateLog) : Prop :=
  (omitted g = Some GenericField -> key_awards b <> []) /\
  (forall w, wrong_count g = Some w ->
     exists d, 5 <= d <= 20 /\
       (w = Z.max 1 (pubs b + d) \/ w = Z.max 1 (pubs b - d))) /\
  (forall f, hallucinated g = Some f -> In f fake_awards) /\
  (forall w, misnamed g = Some w -> In w (VISA_TYPES cfg) /\ w <> visa_type).

(** ** A random source that replays a tape

    The state is the list of raw words still to be drawn (all zero once the
    list is over); every call takes one word per value it returns. It serves
    to run the generator on concrete draws. *)

Module Tape.

Definition next (s : list N) : N * list N :=
  match s with
  | [] => (0%N, [])
  | w :: s' => (w, s')
  end.

(** [w mod 1000 / 1000] *)
Definition random (s : list N) : Q * list N :=
  let (w, s') := next s in (Z.of_N (w mod 1000) # 1000, s').

Definition randint (a b : Z) (s : list N) : result (Z * list N) :=
  if a <=? b then
    let (w, s') := next s in Ok (a + Z.of_N w mod (b - a + 1), s')
  else Raise ValueError.

Definition choice {A} (l : list A) (s : list N) : result (A * list N) :=
  match l with
  | [] => Raise IndexError
  | x :: _ =>
      let (w, s') := next s in
      Ok (nth (N.to_nat w mod length l) l x, s')
  end.

Fixpoint pick {A} (k : nat) (l : list A) (s : list N) : list A * list N :=
  match k, l with
  | S k', x :: _ =>
      let (w, s') := next s in
      let j := (N.to_nat w mod length l)%nat in
      let (r, s'') := pick k' (firstn j l ++ skipn (S j) l) s' in
      (nth j l x :: r, s'')
  | _, _ => ([], s)
  end.

Definition sample {A} (l : list A) (k : Z) (s : list N)
  : result (list A * list N) :=
  if (0 <=? k) && (k <=? Z.of_nat (length l)) then Ok (pick (Z.to_nat k) l s)
  else Raise ValueError.

Lemma random_unit s : (0 <= fst (random s))%Q /\ (fst (random s) < 1)%Q.
Proof.
  unfold random. destruct (next s) as [w s']. cbn [fst].
  pose proof (N.mod_upper_bound w 1000 ltac:(discriminate)) as Hlt.
  generalize dependent (w mod 1000)%N. intros m Hlt.
  unfold Qle, Qlt. cbn [Qnum Qden]. lia.
Qed.

Lemma randint_spec a b s :
  if a <=? b
  then exists n s', randint a b s = Ok (n, s') /\ a <= n <= b
  else randint a b s = Raise ValueError.
Proof.
  unfold randint. destruct (a <=? b) eqn:E; [|reflexivity].
  apply Z.leb_le in E. destruct (next s) as [w s'].
  eexists _, _. split; [reflexivity|].
  pose proof (Z.mod_pos_bound (Z.of_N w) (b - a + 1) ltac:(lia)). lia.
Qed.

Lemma choice_spec A (l : list A) s :
  match l with
  | [] => choice l s = Raise IndexError
  | _ => exists x s', choice l s = Ok (x, s') /\ In x l
  end.
Proof.
  destruct l as [|x l]; [reflexivity|].
  unfold choice. destruct (next s) as [w s'].
  eexists _, _. split; [reflexivity|].
  apply nth_In. apply Nat.mod_upper_bound. discriminate.
Qed.

Lemma nth_remove_perm A (d : A) (l : list A) : forall j,
  (j < length l)%nat ->
  Permutation (nth j l d :: firstn j l ++ skipn (S j) l) l.
Proof.
  induction l as [|y l IH]; intros j Hj; [cbn in Hj; lia|].
  destruct j as [|j]; [reflexivity|].
  cbn [nth firstn skipn app].
  apply perm_trans with (y :: nth j l d :: firstn j l ++ skipn (S j) l).
  - apply perm_swap.
  - apply perm_skip, IH. cbn in Hj. lia.
Qed.

Lemma pick_spec A (k : nat) : forall (l : list A) s,
  (k <= length l)%nat ->
  length (fst (pick k l s)) = k /\
  exists rest, Permutation (fst (pick k l s) ++ rest) l.
Proof.
  induction k as [|k IH]; intros l s Hk.
  - cbn. split; [reflexivity|]. exists l. reflexivity.
  - destruct l as [|x l]; [cbn in Hk; lia|].
    cbn [pick]. destruct (next s) as [w s'].
    set (l0 := x :: l) in *.
    set (j := (N.to_nat w mod length l0)%nat).
    assert (Hj : (j < length l0)%nat)
      by (apply Nat.mod_upper_bound; discriminate).
    destruct (pick k (firstn j l0 ++ skipn (S j) l0) s') as [r s''] eqn:E.
    assert (Hlen : length (firstn j l0 ++ skipn (S j) l0) = length l).
    { rewrite length_app, length_firstn, length_skipn.
      subst l0. cbn [length] in *. lia. }
    destruct (IH (firstn j l0 ++ skipn (S j) l0) s') as [Hl [rest Hp]];
      [rewrite Hlen; cbn in Hk; lia|].
    rewrite E in Hl, Hp. cbn [fst] in *. split; [cbn; lia|].
    exists rest. cbn [app].
    apply perm_trans with (nth j l0 x :: firstn j l0 ++ skipn (S j) l0).
    + apply perm_skip, Hp.
    + apply nth_remove_perm, Hj.
Qed.

Lemma sample_spec A (l : list A) k s :
  if (0 <=? k) && (k <=? Z.of_nat (length l))
  then exists r s', sample l k s = Ok (r, s') /\
         Z.of_nat (length r) = k /\ exists rest, Permutation (r ++ rest) l
  else sample l k s = Raise ValueError.
Proof.
  unfold sample. destruct ((0 <=? k) && (k <=? Z.of_nat (length l))) eqn:E;
    [|reflexivity].
  apply andb_true_iff in E. destruct E as [E1 E2].
  apply Z.leb_le in E1. apply Z.leb_le in E2.
  destruct (pick_spec A (Z.to_nat k) l s ltac:(lia)) as [Hl Hp].
  destruct (pick (Z.to_nat k) l s) as [r s'] eqn:Er. cbn [fst] in *.
  exists r, s'. split; [reflexivity|]. split; [lia|exact Hp].
Qed.

Definition source : RandomSource :=
  Build_RandomSource (list N) random randint (@choice) (@sample)
    random_unit randint_spec choice_spec sample_spec.

End Tape.

(** ** The rows of the dataset *)

(** The dataclass [Record]. *)
Record Record_ := {
  case_id : text;
  visa_type : text;
  beneficiary_data : text;
  recommender_data : text;
  rough_draft : text;
  final_draft : text
}.

Section Rows.
Context {U : UnicodeDB} {R : RandomSource}.
Variable cfg : Config.

(** The body of the loop of [make_rows], for the index [i]. *)
Definition make_row (i : Z) : M Record_ :=
  visa <- choice (VISA_TYPES cfg) ;;
  b <- mk_beneficiary cfg i ;;
  r <- mk_recommender cfg i ;;
  '(beneficiary_str, recommender_str, rough, final) <- build_strings cfg visa r b ;;
  ret {| case_id := str "case_" ++ str_of_int i;
         visa_type := visa;
         beneficiary_data := beneficiary_str;
         recommender_data := recommender_str;
         rough_draft := rough;
         final_draft := final |}.

(** The loop over [count] indices from [i] on, appending to [rows]. *)
Fixpoint make_rows_from (count : nat) (i : Z) (rows : list Record_)
  : M (list Record_) :=
  match count with
  | O => ret rows
  | S count' =>
      row <- make_row i ;;
      make_rows_from count' (i + 1) (rows ++ [row])
  end.

(** [range(1, n_rows + 1)] has [max(0, n_rows)] indices. *)
Definition make_rows (n_rows : Z) : M (list Record_) :=
  make_rows_from (Z.to_nat n_rows) 1 [].

End Rows.

(** ** The summary

    [vis_counts] is a [dict] from strings to counts; its entries are in the
    order of their insertion. *)

Definition dict (V : Type) : Type := list (text * V).

(** [d.get(k, default)] *)
Fixpoint dict_get {V} (d : dict V) (k : text) (default : V) : V :=
  match d with
  | [] => default
  | (k', v) :: d' => if text_eqb k' k then v else dict_get d' k default
  end.

(** [d[k] = v] *)
Fixpoint dict_set {V} (d : dict V) (k : text) (v : V) : dict V :=
  match d with
  | [] => [(k, v)]
  | (k', v') :: d' =>
      if text_eqb k' k then (k', v) :: d' else (k', v') :: dict_set d' k v
  end.

(** The body of the counting loop of [summarize]. *)
Definition count_visa (vis_counts : dict Z) (r : Record_) : dict Z :=
  dict_set vis_counts (visa_type r) (dict_get vis_counts (visa_type r) 0 + 1).

(** The heavy check mark that opens the first printed line. *)
Definition check_mark : char := 9989%N.

(** A call of [print]: its string arguments, or a string and the dictionary. *)
Inductive printed :=
| PrintText (args : list text)
| PrintCounts (label : text) (counts : dict Z).

(** [summarize]: the calls of [print] in their order, and how it ends. *)
Definition summarize (rows : list Record_) : list printed * result unit :=
  let vis_counts := fold_left count_visa rows [] in
  let out :=
    [PrintText [check_mark :: str " Wrote dataset"];
     PrintCounts (str "Visa distribution:") vis_counts;
     PrintText [str "Example (first case):"]] in
  match get_item rows 0 with
  | Raise e => (out, Raise e)
  | Ok first =>
      (out ++
       [PrintText [repeat hyphen 80];
        PrintText [str "Beneficiary Data:" ++ [newline]; beneficiary_data first];
        PrintText [newline :: str "Recommender Data:" ++ [newline];
                   recommender_data first];
        PrintText [newline :: str "ROUGH (imperfect):" ++ [newline];
                   rough_draft first];
        PrintText [newline :: str "FINAL (polished):" ++ [newline];
                   firstn 400 (final_draft first); str "..."];
        PrintText [repeat hyphen 80]],
       Ok tt)
  end.

(** ** Lines, and configurations for the concrete runs *)

(** The lines of a text: its pieces between newlines. *)
Fixpoint lines_of (t : text) : list text :=
  match t with
  | [] => [[]]
  | c :: t' =>
      if (c =? newline)%N then [] :: lines_of t'
      else match lines_of t' with
           | l :: ls => (c :: l) :: ls
           | [] => [[c]]
           end
  end.

(** The configuration [cfg] with other lists of categories, fields,
    organisations and titles. *)
Definition with_lists (cfg : Config) (visas fields orgs titles : list text)
  : Config := {|
  VISA_TYPES := visas;
  FIELDS := fields;
  P_OMIT_KEY_FACT := P_OMIT_KEY_FACT cfg;
  P_WRONG_COUNT := P_WRONG_COUNT cfg;
  P_HALLUCINATION := P_HALLUCINATION cfg;
  P_WEAK_VISA_MENTION := P_WEAK_VISA_MENTION cfg;
  P_STYLE_WEAK := P_STYLE_WEAK cfg;
  P_SECTION_MISS := P_SECTION_MISS cfg;
  PUB_RANGE := PUB_RANGE cfg;
  CITATION_RANGE := CITATION_RANGE cfg;
  AWARD_POOL := AWARD_POOL cfg;
  VENUE_POOL := VENUE_POOL cfg;
  ORG_POOL := orgs;
  TITLE_POOL := titles
|}.

(** The configuration [cfg] with other count ranges. *)
Definition with_ranges (cfg : Config) (pub_range citation_range : Z * Z)
  : Config := {|
  VISA_TYPES := VISA_TYPES cfg;
  FIELDS := FIELDS cfg;
  P_OMIT_KEY_FACT := P_OMIT_KEY_FACT cfg;
  P_WRONG_COUNT := P_WRONG_COUNT cfg;
  P_HALLUCINATION := P_HALLUCINATION cfg;
  P_WEAK_VISA_MENTION := P_WEAK_VISA_MENTION cfg;
  P_STYLE_WEAK := P_STYLE_WEAK cfg;
  P_SECTION_MISS := P_SECTION_MISS cfg;
  PUB_RANGE := pub_range;
  CITATION_RANGE := citation_range;
  AWARD_POOL := AWARD_POOL cfg;
  VENUE_POOL := VENUE_POOL cfg;
  ORG_POOL := ORG_POOL cfg;
  TITLE_POOL := TITLE_POOL cfg
|}.

(** The configurations on which a row can always be made: no list that
    [random.choice] reads is empty, the count ranges are not empty, and every
    category has another one beside it. *)
Definition usable (cfg : Config) : Prop :=
  VISA_TYPES cfg <> [] /\
  (forall v, In v (VISA_TYPES cfg) ->
     exists w, In w (VISA_TYPES cfg) /\ w <> v) /\
  FIELDS cfg <> [] /\
  fst (PUB_RANGE cfg) <= snd (PUB_RANGE cfg) /\
  fst (CITATION_RANGE cfg) <= snd (CITATION_RANGE cfg) /\
  ORG_POOL cfg <> [] /\
  TITLE_POOL cfg <> [].

(** ** Words and line breaks *)

(** The text with its line breaks turned back into spaces. *)
Definition unbreak (t : text) : text :=
  map (fun c => if (c =? newline)%N then space else c) t.

(** The words of a text: its pieces between spaces. *)
Fixpoint words_of (t : text) : list text :=
  match t with
  | [] => [[]]
  | c :: t' =>
      if (c =? space)%N then [] :: words_of t'
      else match words_of t' with
           | w :: ws => (c :: w) :: ws
           | [] => [[c]]
           end
  end.

(** The chunks of a run of words with one space between two neighbours. *)
Fixpoint interleave (ws : list text) : list text :=
  match ws with
  | [] => []
  | [w] => [w]
  | w :: ws' => w :: [space] :: interleave ws'
  end.

(** A word that [fill] neither breaks nor drops: solid, not empty and shorter
    than the width. *)
Definition short_word `{UnicodeDB} (width : nat) (w : text) : bool :=
  negb (length w =? 0)%nat && solid w && (length w <? width)%nat.

(** A text made of such words with single spaces between them. *)
Definition spaced `{UnicodeDB} (width : nat) (x : text) : bool :=
  forallb (short_word width) (words_of x).

(** The length of the longest stretch of whitespace, or of characters that
    are none, in a text: no chunk of the text is longer. *)
Fixpoint max_run (t : text) : nat :=
  match t with
  | [] => 0%nat
  | _ :: t' => Nat.max (Nat.max (ws_run t) (nonws_run t)) (max_run t')
  end.

(** The counts that the configured ranges allow, the largest wrong count
    that can be drawn for one of them included, are within the limit on the
    conversion of ints. *)
Definition within_limit (cfg : Config) : bool :=
  convertible (fst (PUB_RANGE cfg)) && convertible (snd (PUB_RANGE cfg) + 20) &&
  convertible (fst (CITATION_RANGE cfg)) && convertible (snd (CITATION_RANGE cfg)).

(** * Properties *)

(** ** Running computations *)

Section Runs.
Context {R : RandomSource}.

Lemma bind_ok {A B} (m : M A) (f : A -> M B) s a s1 :
  m s = Ok (a, s1) -> bind m f s = f a s1.
Proof. unfold bind. intros ->. reflexivity. Qed.

Lemma bind_inv {A B} (m : M A) (f : A -> M B) s b s' :
  bind m f s = Ok (b, s') ->
  exists a s1, m s = Ok (a, s1) /\ f a s1 = Ok (b, s').
Proof.
  unfold bind. destruct (m s) as [[a s1]|e]; [|discriminate].
  intros H. exists a, s1. split; [reflexivity|exact H].
Qed.

Lemma ret_inv {A} (a b : A) s s' : ret a s = Ok (b, s') -> a = b /\ s = s'.
Proof. unfold ret. intros H. inversion H. split; reflexivity. Qed.

Lemma random_inv s u s' : random_ s = Ok (u, s') -> random s = (u, s').
Proof. unfold random_. intros H. inversion H. reflexivity. Qed.

Lemma randint_ok a b s :
  a <= b -> exists n s', randint a b s = Ok (n, s') /\ a <= n <= b.
Proof.
  intros Hab. pose proof (randint_spec a b s) as H.
  apply Z.leb_le in Hab. rewrite Hab in H. exact H.
Qed.

Lemma randint_inv a b s n s' : randint a b s = Ok (n, s') -> a <= n <= b.
Proof.
  intros E. pose proof (randint_spec a b s) as H.
  destruct (a <=? b).
  - destruct H as (n0 & s0 & E0 & Hn). rewrite E in E0. inversion E0. lia.
  - rewrite E in H. discriminate.
Qed.

Lemma choice_ok {A} (l : list A) s :
  l <> [] -> exists x s', choice l s = Ok (x, s') /\ In x l.
Proof.
  intros Hl. pose proof (choice_spec A l s) as H.
  destruct l; [contradiction|exact H].
Qed.

Lemma choice_inv {A} (l : list A) s x s' : choice l s = Ok (x, s') -> In x l.
Proof.
  intros E. pose proof (choice_spec A l s) as H.
  destruct l.
  - rewrite E in H. discriminate.
  - destruct H as (x0 & s0 & E0 & Hx). rewrite E in E0. inversion E0.
    subst. exact Hx.
Qed.

Lemma sample_ok {A} (l : list A) k s :
  0 <= k <= Z.of_nat (length l) ->
  exists r s', sample l k s = Ok (r, s') /\
    Z.of_nat (length r) = k /\ exists rest, Permutation (r ++ rest) l.
Proof.
  intros Hk. pose proof (sample_spec A l k s) as H.
  replace ((0 <=? k) && (k <=? Z.of_nat (length l))) with true in H
    by (symmetry; apply andb_true_iff; split; apply Z.leb_le; lia).
  exact H.
Qed.

Lemma sample_inv {A} (l : list A) k s r s' :
  sample l k s = Ok (r, s') ->
  0 <= k <= Z.of_nat (length l) /\
  Z.of_nat (length r) = k /\ exists rest, Permutation (r ++ rest) l.
Proof.
  intros E. pose proof (sample_spec A l k s) as H.
  destruct ((0 <=? k) && (k <=? Z.of_nat (length l))) eqn:Ek.
  - apply andb_true_iff in Ek. destruct Ek as [E1 E2].
    apply Z.leb_le in E1. apply Z.leb_le in E2.
    destruct H as (r0 & s0 & E0 & Hr). rewrite E in E0. inversion E0. subst.
    split; [lia|exact Hr].
  - rewrite E in H. discriminate.
Qed.

(** A selection out of a pool: no entry is taken twice. *)
Lemma selection_NoDup {A} (r rest l : list A) :
  Permutation (r ++ rest) l -> NoDup l -> NoDup r.
Proof.
  intros Hp Hl. apply Permutation_sym in Hp.
  pose proof (Permutation_NoDup Hp Hl) as H.
  apply NoDup_app_remove_r in H. exact H.
Qed.

Lemma selection_incl {A} (r rest l : list A) :
  Permutation (r ++ rest) l -> incl r l.
Proof.
  intros Hp x Hx. apply (Permutation_in x Hp). apply in_or_app. left. exact Hx.
Qed.

(** [choice_no_replacement] never raises on a count that is not negative: the
    count is capped at the size of the pool. *)
Lemma choice_no_replacement_ok (pool : list text) k s :
  0 <= k ->
  exists r s', choice_no_replacement pool k s = Ok (r, s') /\
    length r = Nat.min (Z.to_nat k) (length pool) /\
    exists rest, Permutation (r ++ rest) pool.
Proof.
  intros Hk. unfold choice_no_replacement.
  destruct (sample_ok pool (Z.min k (Z.of_nat (length pool))) s)
    as (r & s' & E & Hl & Hp); [lia|].
  exists r, s'. split; [exact E|]. split; [lia|exact Hp].
Qed.

End Runs.

(** ** Strings *)

Lemma text_eqb_eq a : forall b, text_eqb a b = true <-> a = b.
Proof.
  induction a as [|x a IH]; intros [|y b]; cbn; split; intros H;
    try reflexivity; try discriminate.
  - apply andb_true_iff in H. destruct H as [H1 H2].
    apply N.eqb_eq in H1. apply IH in H2. subst. reflexivity.
  - inversion H. subst. apply andb_true_iff. split.
    + apply N.eqb_refl.
    + apply IH. reflexivity.
Qed.

Lemma mem_text_In x l : mem_text x l = true <-> In x l.
Proof.
  induction l as [|y l IH]; cbn.
  - split; [discriminate|contradiction].
  - rewrite orb_true_iff, IH, text_eqb_eq. split; intros [H|H]; auto.
Qed.

Lemma nodup_text_NoDup l : nodup_text l = true -> NoDup l.
Proof.
  induction l as [|x l IH]; cbn; intros H; [constructor|].
  apply andb_true_iff in H. destruct H as [H1 H2].
  constructor; [|apply IH, H2].
  intros Hin. apply mem_text_In in Hin. rewrite Hin in H1. discriminate.
Qed.

(** ** The fact synthesizer *)

Section FactSynthesizer.
Context {R : RandomSource}.

(** C2, as the code has it: an empty pool does not make the sampling fail. For
    every count that is not negative [choice_no_replacement] returns
    [min(k, len(pool))] entries, which is the empty selection for an empty
    pool and a non-empty one only for a non-empty pool and a positive count. *)
Theorem choice_no_replacement_capped (pool : list text) (k : Z) (s : rng) :
  0 <= k ->
  exists r s', choice_no_replacement pool k s = Ok (r, s') /\
    length r = Nat.min (Z.to_nat k) (length pool) /\
    (pool = [] -> r = []) /\
    (pool <> [] -> 1 <= k -> r <> []).
Proof.
  intros Hk.
  destruct (choice_no_replacement_ok pool k s Hk) as (r & s' & E & Hl & _).
  exists r, s'. split; [exact E|]. split; [exact Hl|]. split.
  - intros ->. cbn in Hl. rewrite Nat.min_0_r in Hl.
    destruct r; [reflexivity|discriminate].
  - intros Hp H1 ->. cbn in Hl. destruct pool; [contradiction|].
    cbn [length] in Hl. lia.
Qed.

(** C6: [mk_beneficiary] returns, and in the facts it returns the counts are
    within their configured inclusive ranges, the awards and the venues have
    no duplicate and are entries of their pools, there are at most two awards
    and between one and three venues. *)
Theorem mk_beneficiary_invariants (cfg : Config) (i : Z) (s : rng) :
  FIELDS cfg <> [] ->
  fst (PUB_RANGE cfg) <= snd (PUB_RANGE cfg) ->
  fst (CITATION_RANGE cfg) <= snd (CITATION_RANGE cfg) ->
  NoDup (AWARD_POOL cfg) ->
  NoDup (VENUE_POOL cfg) ->
  VENUE_POOL cfg <> [] ->
  exists b s', mk_beneficiary cfg i s = Ok (b, s') /\
    fst (PUB_RANGE cfg) <= pubs b <= snd (PUB_RANGE cfg) /\
    fst (CITATION_RANGE cfg) <= citations b <= snd (CITATION_RANGE cfg) /\
    NoDup (key_awards b) /\ incl (key_awards b) (AWARD_POOL cfg) /\
    NoDup (key_venues b) /\ incl (key_venues b) (VENUE_POOL cfg) /\
    (length (key_awards b) <= 2)%nat /\
    (1 <= length (key_venues b) <= 3)%nat.
Proof.
  intros Hf Hp Hc Ha Hv Hne. unfold mk_beneficiary.
  destruct (choice_ok (FIELDS cfg) s Hf) as (f & s1 & E1 & _).
  rewrite (bind_ok _ _ _ _ _ E1).
  destruct (randint_ok _ _ s1 Hp) as (p & s2 & E2 & Hpr).
  rewrite (bind_ok _ _ _ _ _ E2).
  destruct (randint_ok _ _ s2 Hc) as (c & s3 & E3 & Hcr).
  rewrite (bind_ok _ _ _ _ _ E3).
  destruct (randint_ok 0 2 s3 ltac:(lia)) as (ka & s4 & E4 & Hka).
  rewrite (bind_ok _ _ _ _ _ E4).
  destruct (choice_no_replacement_ok (AWARD_POOL cfg) ka s4 ltac:(lia))
    as (aw & s5 & E5 & Hal & arest & Hap).
  rewrite (bind_ok _ _ _ _ _ E5).
  destruct (randint_ok 1 3 s5 ltac:(lia)) as (kv & s6 & E6 & Hkv).
  rewrite (bind_ok _ _ _ _ _ E6).
  destruct (choice_no_replacement_ok (VENUE_POOL cfg) kv s6 ltac:(lia))
    as (ve & s7 & E7 & Hvl & vrest & Hvp).
  rewrite (bind_ok _ _ _ _ _ E7).
  eexists _, _. split; [reflexivity|]. cbn [pubs citations key_awards key_venues].
  assert (Hlen : (1 <= length (VENUE_POOL cfg))%nat).
  { destruct (VENUE_POOL cfg); [contradiction|cbn; lia]. }
  repeat split; try lia.
  - exact (selection_NoDup _ _ _ Hap Ha).
  - exact (selection_incl _ _ _ Hap).
  - exact (selection_NoDup _ _ _ Hvp Hv).
  - exact (selection_incl _ _ _ Hvp).
Qed.

End FactSynthesizer.

(** C2 as the spec states it fails: on the empty pool the sampling returns the
    empty selection, and with no venue configured the facts have no venue. *)
Lemma empty_pool_is_silent :
  @choice_no_replacement Tape.source [] 3 [] = Ok ([], []) /\
  match @mk_beneficiary Tape.source config_without_venues 1 [] with
  | Ok (b, _) => key_venues b = []
  | Raise _ => False
  end.
Proof. split; reflexivity. Qed.

Lemma choice_no_replacement_capped_witness :
  exists r s', @choice_no_replacement Tape.source [] 3 [] = Ok (r, s') /\
    length r = Nat.min (Z.to_nat 3) (length (@nil text)) /\
    (@nil text = [] -> r = []) /\
    (@nil text <> [] -> 1 <= 3 -> r <> []).
Proof.
  apply (@choice_no_replacement_capped Tape.source [] 3 []). lia.
Defined.

Lemma mk_beneficiary_invariants_witness :
  exists b s', @mk_beneficiary Tape.source default_config 1 [3; 14; 1200; 1; 4; 2; 6; 1]%N
                 = Ok (b, s') /\
    8 <= pubs b <= 80 /\ 200 <= citations b <= 5000 /\
    NoDup (key_awards b) /\ incl (key_awards b) (AWARD_POOL default_config) /\
    NoDup (key_venues b) /\ incl (key_venues b) (VENUE_POOL default_config) /\
    (length (key_awards b) <= 2)%nat /\
    (1 <= length (key_venues b) <= 3)%nat.
Proof.
  apply (@mk_beneficiary_invariants Tape.source default_config 1).
  - discriminate.
  - cbn. lia.
  - cbn. lia.
  - apply nodup_text_NoDup. vm_compute. reflexivity.
  - apply nodup_text_NoDup. vm_compute. reflexivity.
  - discriminate.
Defined.

(** ** The blocks of the rough draft *)

Section RoughBlocks.
Context {R : RandomSource}.
Variable cfg : Config.

Ltac step H :=
  let a := fresh "a" in
  let s1 := fresh "s" in
  let E := fresh "E" in
  apply bind_inv in H; destruct H as (a & s1 & E & H).

Ltac finish H :=
  apply ret_inv in H; destruct H as [H ?]; inversion H; subst.

Lemma lift_inv {A} (x : result A) s a s' :
  lift x s = Ok (a, s') -> x = Ok a /\ s' = s.
Proof.
  destruct x as [a0|e]; cbn; unfold ret, raise; intros H; inversion H.
  split; reflexivity.
Qed.

Lemma set_last_3 (a b c x : text) :
  set_item [a; b; c] (-1) x = Ok [a; b; x].
Proof. reflexivity. Qed.

Lemma set_last {A} (l : list A) (x : A) :
  l <> [] -> set_item l (-1) x = Ok (removelast l ++ [x]).
Proof.
  intros Hl. unfold set_item, norm_index.
  assert (Hn : (1 <= length l)%nat) by (destruct l; [contradiction|cbn; lia]).
  replace (-1 <? 0) with true by reflexivity.
  replace ((0 <=? -1 + Z.of_nat (length l)) &&
           (-1 + Z.of_nat (length l) <? Z.of_nat (length l))) with true
    by (symmetry; apply andb_true_iff; split;
        [apply Z.leb_le|apply Z.ltb_lt]; lia).
  replace (Z.to_nat (-1 + Z.of_nat (length l))) with (pred (length l)) by lia.
  rewrite removelast_firstn_len.
  replace (S (pred (length l))) with (length l) by lia.
  rewrite skipn_all. reflexivity.
Qed.

Lemma gate_weak_visa_inv visa a b c s chunks g s' :
  gate_weak_visa cfg visa [a; b; c] s = Ok ((chunks, g), s') ->
  chunks = [a; b; if g then str "I believe they are highly qualified."
                  else visa_closing visa].
Proof.
  unfold gate_weak_visa. intros H. step H.
  destruct (float_lt a0 (P_WEAK_VISA_MENTION cfg)); step H;
    apply lift_inv in E0; destruct E0 as [E0 ->];
    rewrite set_last_3 in E0; inversion E0; subst; finish H; reflexivity.
Qed.

Lemma gate_omit_key_fact_inv fb a b c s chunks o s' :
  gate_omit_key_fact cfg fb [a; b; c] s = Ok ((chunks, o), s') ->
  chunks = [a;
            match o with
            | None => b
            | Some GenericField =>
                str "They have many publications and are recognized in their field."
            | Some GenericVenues => str "Their work is recognized at top venues."
            end; c] /\
  (o = Some GenericField -> key_awards fb <> []).
Proof.
  unfold gate_omit_key_fact. intros H. step H.
  destruct (float_lt a0 (P_OMIT_KEY_FACT cfg)).
  - step H. destruct a1.
    + step H. apply lift_inv in E1. destruct E1 as [E1 ->]. cbn in E1.
      inversion E1; subst. finish H. split; [reflexivity|].
      intros _ Hk. rewrite Hk in E0. apply ret_inv in E0. destruct E0.
      discriminate.
    + step H. apply lift_inv in E1. destruct E1 as [E1 ->]. cbn in E1.
      inversion E1; subst. finish H. split; [reflexivity|discriminate].
  - finish H. split; [reflexivity|discriminate].
Qed.

Lemma maybe_wrong_count_inv n s w s' :
  maybe_wrong_count n s = Ok (w, s') ->
  exists d, 5 <= d <= 20 /\ (w = Z.max 1 (n + d) \/ w = Z.max 1 (n - d)).
Proof.
  unfold maybe_wrong_count. intros H. step H. step H.
  apply randint_inv in E. apply choice_inv in E0. finish H.
  exists a. split; [exact E|].
  destruct E0 as [<-|[<-|[]]]; [right|left]; f_equal; lia.
Qed.

Lemma append_item_3 (a b c x : text) s r s' :
  append_item [a; b; c] 1 x s = Ok (r, s') -> r = [a; b ++ x; c] /\ s' = s.
Proof.
  unfold append_item. intros H. step H.
  apply lift_inv in E. destruct E as [E ->]. cbn in E. inversion E; subst.
  apply lift_inv in H. destruct H as [H ->]. cbn in H. inversion H.
  split; reflexivity.
Qed.

Lemma gate_wrong_count_inv fb a b c s chunks o s' :
  gate_wrong_count cfg fb [a; b; c] s = Ok ((chunks, o), s') ->
  chunks = [a; b ++ count_claim (match o with Some w => w | None => pubs fb end); c] /\
  (forall w, o = Some w ->
     exists d, 5 <= d <= 20 /\
       (w = Z.max 1 (pubs fb + d) \/ w = Z.max 1 (pubs fb - d))).
Proof.
  unfold gate_wrong_count. intros H. step H.
  destruct (float_lt a0 (P_WRONG_COUNT cfg)).
  - step H. step H. apply append_item_3 in E1. destruct E1 as [-> ->].
    finish H. split; [reflexivity|].
    intros w Hw. inversion Hw; subst.
    exact (maybe_wrong_count_inv _ _ _ _ E0).
  - step H. apply append_item_3 in E0. destruct E0 as [-> ->].
    finish H. split; [reflexivity|discriminate].
Qed.

Lemma gate_hallucination_inv a b c s chunks o s' :
  gate_hallucination cfg [a; b; c] s = Ok ((chunks, o), s') ->
  chunks = [a; b ++ match o with Some f => fake_claim f | None => [] end; c] /\
  (forall f, o = Some f -> In f fake_awards).
Proof.
  unfold gate_hallucination. intros H. step H.
  destruct (float_lt a0 (P_HALLUCINATION cfg)).
  - step H. step H. apply append_item_3 in E1. destruct E1 as [-> ->].
    finish H. split; [reflexivity|].
    intros f Hf. inversion Hf; subst. exact (choice_inv _ _ _ _ E0).
  - finish H. rewrite app_nil_r. split; [reflexivity|discriminate].
Qed.

Lemma gate_style_weak_inv chunks s chunks' g s' :
  gate_style_weak cfg chunks s = Ok ((chunks', g), s') ->
  chunks' = (if g then [filler_opening] else []) ++ chunks.
Proof.
  unfold gate_style_weak. intros H. step H.
  destruct (float_lt a (P_STYLE_WEAK cfg)); finish H; reflexivity.
Qed.

Lemma gate_section_miss_inv chunks s chunks' o s' :
  gate_section_miss cfg chunks s = Ok ((chunks', o), s') ->
  chunks' = match o with
            | None => chunks
            | Some PopFirst => tl chunks
            | Some DropLast => removelast chunks
            end /\
  (o = Some PopFirst -> (2 < length chunks)%nat).
Proof.
  unfold gate_section_miss. intros H. step H.
  destruct (float_lt a (P_SECTION_MISS cfg)).
  - step H.
    destruct (float_lt a0 (1 # 2) && (2 <? length chunks)%nat) eqn:Eb.
    + step H. apply lift_inv in E1. destruct E1 as [E1 ->].
      destruct chunks as [|c0 chunks]; [discriminate|].
      cbn in E1. inversion E1; subst. finish H. split; [reflexivity|].
      intros _. apply andb_true_iff in Eb. destruct Eb as [_ Eb].
      apply Nat.ltb_lt in Eb. exact Eb.
    + finish H. split; [reflexivity|discriminate].
  - finish H. split; [reflexivity|discriminate].
Qed.

Lemma gate_misname_inv visa chunks s chunks' o s' :
  chunks <> [] ->
  gate_misname cfg visa chunks s = Ok ((chunks', o), s') ->
  chunks' = match o with
            | None => chunks
            | Some w => removelast chunks ++ [visa_closing w]
            end /\
  (forall w, o = Some w -> In w (VISA_TYPES cfg) /\ w <> visa).
Proof.
  intros Hne. unfold gate_misname. intros H. step H.
  destruct (float_lt a float_0_08).
  - step H. step H. apply lift_inv in E1. destruct E1 as [E1 ->].
    rewrite (set_last _ _ Hne) in E1. inversion E1; subst. finish H.
    split; [reflexivity|].
    intros w Hw. inversion Hw; subst.
    apply choice_inv in E0. apply filter_In in E0. destruct E0 as [Hin Hneq].
    split; [exact Hin|].
    intros ->. rewrite (proj2 (text_eqb_eq visa visa) eq_refl) in Hneq.
    discriminate.
  - finish H. split; [reflexivity|discriminate].
Qed.

Lemma gate_passive_inv body s body' g s' :
  gate_passive body s = Ok ((body', g), s') ->
  body' = body ++ (if g then passive_filler else []).
Proof.
  unfold gate_passive. intros H. step H.
  destruct (float_lt a float_0_35); finish H;
    [reflexivity|rewrite app_nil_r; reflexivity].
Qed.

(** The blocks return: only the misnaming block can raise. *)

Ltac run_random s :=
  unfold bind at 1; unfold random_ at 1;
  let u := fresh "u" in let s1 := fresh "s" in destruct (random s) as [u s1].

Ltac done3 :=
  eexists _, _, _; (split; [reflexivity|]); eexists _, _, _; reflexivity.

Lemma gate_weak_visa_ok visa a b c s :
  exists chunks g s', gate_weak_visa cfg visa [a; b; c] s = Ok ((chunks, g), s') /\
    exists x y z, chunks = [x; y; z].
Proof.
  unfold gate_weak_visa. run_random s.
  destruct (float_lt u (P_WEAK_VISA_MENTION cfg)); done3.
Qed.

Lemma gate_omit_key_fact_ok fb a b c s :
  exists chunks o s', gate_omit_key_fact cfg fb [a; b; c] s = Ok ((chunks, o), s') /\
    exists x y z, chunks = [x; y; z].
Proof.
  unfold gate_omit_key_fact. run_random s.
  destruct (float_lt u (P_OMIT_KEY_FACT cfg)); [|done3].
  destruct (key_awards fb); [done3|].
  unfold bind at 1. run_random s0. unfold ret at 1.
  destruct (float_lt u0 float_0_7); done3.
Qed.

Lemma gate_wrong_count_ok fb a b c s :
  exists chunks o s', gate_wrong_count cfg fb [a; b; c] s = Ok ((chunks, o), s') /\
    exists x y z, chunks = [x; y; z].
Proof.
  unfold gate_wrong_count. run_random s.
  destruct (float_lt u (P_WRONG_COUNT cfg)); [|done3].
  unfold maybe_wrong_count.
  destruct (randint_ok 5 20 s0 ltac:(lia)) as (d & sa & Ed & _).
  destruct (choice_ok [- d; d] sa ltac:(discriminate)) as (sg & sb & Es & _).
  unfold bind at 1. rewrite (bind_ok _ _ _ _ _ Ed). rewrite (bind_ok _ _ _ _ _ Es).
  done3.
Qed.

Lemma gate_hallucination_ok a b c s :
  exists chunks o s', gate_hallucination cfg [a; b; c] s = Ok ((chunks, o), s') /\
    exists x y z, chunks = [x; y; z].
Proof.
  unfold gate_hallucination. run_random s.
  destruct (float_lt u (P_HALLUCINATION cfg)); [|done3].
  destruct (choice_ok fake_awards s0 ltac:(discriminate)) as (f & sa & Ef & _).
  rewrite (bind_ok _ _ _ _ _ Ef). done3.
Qed.

Lemma gate_style_weak_ok chunks s :
  exists chunks' g s', gate_style_weak cfg chunks s = Ok ((chunks', g), s') /\
    chunks' = (if g then [filler_opening] else []) ++ chunks.
Proof.
  unfold gate_style_weak. run_random s.
  destruct (float_lt u (P_STYLE_WEAK cfg)); eexists _, _, _; split; reflexivity.
Qed.

Lemma gate_section_miss_ok chunks s :
  (3 <= length chunks)%nat ->
  exists chunks' o s', gate_section_miss cfg chunks s = Ok ((chunks', o), s') /\
    chunks' <> [].
Proof.
  intros Hc. destruct chunks as [|p [|q [|q' chunks]]]; try (cbn in Hc; lia).
  unfold gate_section_miss. run_random s.
  destruct (float_lt u (P_SECTION_MISS cfg)).
  - run_random s0.
    destruct (float_lt u0 (1 # 2) && (2 <? length (p :: q :: q' :: chunks))%nat);
      eexists _, _, _; (split; [reflexivity|]); discriminate.
  - eexists _, _, _; (split; [reflexivity|]); discriminate.
Qed.

Lemma gate_misname_ok visa chunks s :
  chunks <> [] ->
  (exists w, In w (VISA_TYPES cfg) /\ w <> visa) ->
  exists chunks' o s', gate_misname cfg visa chunks s = Ok ((chunks', o), s').
Proof.
  intros Hne (w & Hw & Hneq).
  assert (Hf : filter (fun v => negb (text_eqb v visa)) (VISA_TYPES cfg) <> []).
  { intros Hnil.
    assert (Hin : In w (filter (fun v => negb (text_eqb v visa)) (VISA_TYPES cfg))).
    { apply filter_In. split; [exact Hw|].
      destruct (text_eqb w visa) eqn:E; [|reflexivity].
      apply text_eqb_eq in E. contradiction. }
    rewrite Hnil in Hin. exact Hin. }
  unfold gate_misname. run_random s.
  destruct (float_lt u float_0_08); [|eexists _, _, _; reflexivity].
  destruct (choice_ok _ s0 Hf) as (wv & sa & Ew & _).
  rewrite (bind_ok _ _ _ _ _ Ew).
  unfold bind at 1. rewrite (set_last _ _ Hne).
  eexists _, _, _; reflexivity.
Qed.

Lemma gate_passive_ok body s :
  exists body' g s', gate_passive body s = Ok ((body', g), s').
Proof.
  unfold gate_passive. run_random s.
  destruct (float_lt u float_0_35); eexists _, _, _; reflexivity.
Qed.

End RoughBlocks.

Section RoughRuns.
Context {U : UnicodeDB} {R : RandomSource}.
Variable cfg : Config.

Ltac step H :=
  let a := fresh "a" in
  let s1 := fresh "s" in
  let E := fresh "E" in
  apply bind_inv in H; destruct H as (a & s1 & E & H).

(** A run of [mk_rough_draft_log] returns the text that its logged decisions
    determine, and the decisions are possible ones. *)
Lemma mk_rough_draft_log_run visa r b s t g s' :
  mk_rough_draft_log cfg visa r b s = Ok ((t, g), s') ->
  t = fill 110 (body_of visa b g) /\ log_ok cfg visa b g.
Proof.
  unfold mk_rough_draft_log. intros H.
  step H. destruct a as [c1 g1]. apply gate_weak_visa_inv in E. subst c1.
  step H. destruct a as [c2 g2]. apply gate_omit_key_fact_inv in E.
  destruct E as [-> L2].
  step H. destruct a as [c3 g3]. apply gate_wrong_count_inv in E.
  destruct E as [-> L3].
  step H. destruct a as [c4 g4]. apply gate_hallucination_inv in E.
  destruct E as [-> L4].
  step H. destruct a as [c5 g5]. apply gate_style_weak_inv in E. subst c5.
  step H. destruct a as [c6 g6]. apply gate_section_miss_inv in E.
  destruct E as [-> _].
  step H. destruct a as [c7 g7]. apply gate_misname_inv in E.
  2:{ destruct g5, g6 as [[|]|]; discriminate. }
  destruct E as [-> L7].
  step H. destruct a as [body g8]. apply gate_passive_inv in E. subst body.
  apply ret_inv in H. destruct H as [H _]. inversion H; subst. clear H.
  split.
  - f_equal. unfold body_of, chunks_of, surviving_chunks, styled_chunks,
      evidence_of, closing_of.
    cbn [weak_visa omitted wrong_count hallucinated style_weak section_removed
         misnamed passive].
    rewrite <- !app_assoc. reflexivity.
  - unfold log_ok.
    cbn [weak_visa omitted wrong_count hallucinated style_weak section_removed
         misnamed passive].
    repeat split; try assumption.
    + apply L7. assumption.
    + apply L7. assumption.
Qed.

(** [mk_rough_draft] raises only when the misnaming block finds no other
    category to name. *)
Lemma mk_rough_draft_log_returns visa r b s :
  (exists w, In w (VISA_TYPES cfg) /\ w <> visa) ->
  exists t g s', mk_rough_draft_log cfg visa r b s = Ok ((t, g), s').
Proof.
  intros Hw. unfold mk_rough_draft_log.
  destruct (gate_weak_visa_ok cfg visa (rough_intro b) (rough_evidence b)
              rough_closing s) as (c1 & g1 & s1 & E1 & (x1 & y1 & z1 & ->)).
  rewrite (bind_ok _ _ _ _ _ E1).
  destruct (gate_omit_key_fact_ok cfg b x1 y1 z1 s1)
    as (c2 & g2 & s2 & E2 & (x2 & y2 & z2 & ->)).
  rewrite (bind_ok _ _ _ _ _ E2).
  destruct (gate_wrong_count_ok cfg b x2 y2 z2 s2)
    as (c3 & g3 & s3 & E3 & (x3 & y3 & z3 & ->)).
  rewrite (bind_ok _ _ _ _ _ E3).
  destruct (gate_hallucination_ok cfg x3 y3 z3 s3)
    as (c4 & g4 & s4 & E4 & (x4 & y4 & z4 & ->)).
  rewrite (bind_ok _ _ _ _ _ E4).
  destruct (gate_style_weak_ok cfg [x4; y4; z4] s4) as (c5 & g5 & s5 & E5 & H5).
  rewrite (bind_ok _ _ _ _ _ E5).
  destruct (gate_section_miss_ok cfg c5 s5) as (c6 & g6 & s6 & E6 & H6).
  { rewrite H5. destruct g5; cbn; lia. }
  rewrite (bind_ok _ _ _ _ _ E6).
  destruct (gate_misname_ok cfg visa c6 s6 H6 Hw) as (c7 & g7 & s7 & E7).
  rewrite (bind_ok _ _ _ _ _ E7).
  destruct (gate_passive_ok (join (str " ") c7) s7) as (bd & g8 & s8 & E8).
  rewrite (bind_ok _ _ _ _ _ E8).
  eexists _, _, _. reflexivity.
Qed.

End RoughRuns.

(** ** Count corruption and section omission *)

Section CountAndSection.
Context {U : UnicodeDB} {R : RandomSource}.
Variable cfg : Config.

(** C5, as the code has it: block 3 appends one publication-count sentence to
    the evidence segment. When its gate fires the count in it is
    [max(1, pubs +- d)] for an offset [d] between 5 and 20, which differs from
    the true count unless the true count is 1; when the gate does not fire the
    count is the true one. *)
Theorem wrong_count_claim (b : BeneficiaryFacts) (intro evidence closing : text)
  (s : rng) (chunks : list text) (o : option Z) (s' : rng) :
  gate_wrong_count cfg b [intro; evidence; closing] s = Ok ((chunks, o), s') ->
  (float_lt (fst (random s)) (P_WRONG_COUNT cfg) = true <-> o <> None) /\
  match o with
  | Some w =>
      chunks = [intro; evidence ++ count_claim w; closing] /\
      (exists d, 5 <= d <= 20 /\
         (w = Z.max 1 (pubs b + d) \/ w = Z.max 1 (pubs b - d))) /\
      (pubs b <> 1 -> w <> pubs b)
  | None => chunks = [intro; evidence ++ count_claim (pubs b); closing]
  end.
Proof.
  intros H. pose proof (gate_wrong_count_inv cfg b _ _ _ _ _ _ _ H) as [Hc Hd].
  split.
  - revert H. unfold gate_wrong_count, bind at 1, random_ at 1.
    destruct (random s) as [u s1]. cbn [fst].
    destruct (float_lt u (P_WRONG_COUNT cfg)); intros H.
    + apply bind_inv in H. destruct H as (w & s2 & _ & H).
      apply bind_inv in H. destruct H as (c & s3 & _ & H).
      apply ret_inv in H. destruct H as [H _]. inversion H.
      split; [discriminate|reflexivity].
    + apply bind_inv in H. destruct H as (c & s3 & _ & H).
      apply ret_inv in H. destruct H as [H _]. inversion H.
      split; [discriminate|intros Hn; contradiction].
  - destruct o as [w|]; [|exact Hc].
    split; [exact Hc|]. destruct (Hd w eq_refl) as (d & Hr & Hw).
    split; [exists d; split; assumption|]. lia.
Qed.

(** C4 on the code: when the style block has prepended the filler sentence and
    the section block pops the first element, the filler is what goes: the
    intro, the evidence and the closing are all still there. *)
Theorem section_miss_pops_filler (visa : text) (r : Person)
  (b : BeneficiaryFacts) (s : rng) (t : text) (g : GateLog) (s' : rng) :
  mk_rough_draft_log cfg visa r b s = Ok ((t, g), s') ->
  style_weak g = true ->
  section_removed g = Some PopFirst ->
  t = fill 110
        (join (str " ")
           [rough_intro b; evidence_of b g;
            match misnamed g with
            | Some w => visa_closing w
            | None => closing_of visa g
            end] ++
         (if passive g then passive_filler else [])).
Proof.
  intros H Hs Hp. apply mk_rough_draft_log_run in H. destruct H as [-> _].
  unfold body_of, chunks_of, surviving_chunks, styled_chunks.
  rewrite Hs, Hp. destruct (misnamed g); reflexivity.
Qed.

End CountAndSection.

(** C5 as the spec states it fails for a true count of 1: with the offset 5
    subtracted, the floor at 1 gives the true count back. *)
Lemma wrong_count_can_be_right :
  pubs facts_one_pub = 1 /\
  @gate_wrong_count Tape.source default_config facts_one_pub
    [rough_intro facts_one_pub; rough_evidence facts_one_pub; rough_closing]
    [0; 0; 0]%N
  = Ok ([rough_intro facts_one_pub;
         rough_evidence facts_one_pub ++ count_claim 1;
         rough_closing], Some 1, []).
Proof. split; reflexivity. Qed.

Lemma wrong_count_claim_witness :
  (float_lt (fst (@random Tape.source [0; 11; 1]%N)) (P_WRONG_COUNT default_config)
     = true <-> Some 38 <> None) /\
  [rough_intro facts_1; rough_evidence facts_1 ++ count_claim 38; rough_closing]
  = [rough_intro facts_1; rough_evidence facts_1 ++ count_claim 38; rough_closing] /\
  (exists d, 5 <= d <= 20 /\
     (38 = Z.max 1 (pubs facts_1 + d) \/ 38 = Z.max 1 (pubs facts_1 - d))) /\
  (pubs facts_1 <> 1 -> 38 <> pubs facts_1).
Proof.
  apply (@wrong_count_claim Tape.source default_config facts_1
           (rough_intro facts_1) (rough_evidence facts_1) rough_closing
           [0; 11; 1]%N _ (Some 38) []).
  reflexivity.
Defined.

Lemma section_miss_pops_filler_witness :
  exists t g s',
    @mk_rough_draft_log ascii_only Tape.source default_config (str "EB-1A")
      recommender_1 facts_1 [999; 999; 999; 999; 0; 0; 0; 999; 999]%N
    = Ok ((t, g), s') /\
    t = @fill ascii_only 110
          (join (str " ")
             [rough_intro facts_1; evidence_of facts_1 g;
              match misnamed g with
              | Some w => visa_closing w
              | None => closing_of (str "EB-1A") g
              end] ++
           (if passive g then passive_filler else [])).
Proof.
  eexists _, _, _. split; [lazy; reflexivity|].
  eapply (@section_miss_pops_filler ascii_only Tape.source default_config
            (str "EB-1A") recommender_1 facts_1
            [999; 999; 999; 999; 0; 0; 0; 999; 999]%N);
    [vm_compute; reflexivity|reflexivity|reflexivity].
Defined.

(** ** Determinism *)

Section Determinism.
Context {U : UnicodeDB}.
Variables R1 R2 : RandomSource.
Variable sim : @rng R1 -> @rng R2 -> Prop.
Hypothesis alike : answer_alike R1 R2 sim.
Variable cfg : Config.

Lemma alike_ret {A} (a : A) : alike_runs sim (ret a) (ret a).
Proof. intros s1 s2 H. cbn. split; [reflexivity|exact H]. Qed.

Lemma alike_bind {A B} (m1 : @M R1 A) (m2 : @M R2 A)
  (f1 : A -> @M R1 B) (f2 : A -> @M R2 B) :
  alike_runs sim m1 m2 -> (forall a, alike_runs sim (f1 a) (f2 a)) ->
  alike_runs sim (bind m1 f1) (bind m2 f2).
Proof.
  intros Hm Hf s1 s2 H. specialize (Hm s1 s2 H). unfold bind, same_result in *.
  destruct (m1 s1) as [[a1 t1]|e1], (m2 s2) as [[a2 t2]|e2];
    try contradiction.
  - destruct Hm as [-> Ht]. exact (Hf a2 t1 t2 Ht).
  - exact Hm.
Qed.

Lemma alike_lift {A} (x : result A) : alike_runs sim (lift x) (lift x).
Proof.
  destruct x; intros s1 s2 H; cbn; [split; [reflexivity|exact H]|reflexivity].
Qed.

Lemma alike_random_ : alike_runs sim random_ random_.
Proof.
  intros s1 s2 H. destruct (alike_random _ _ _ alike s1 s2 H) as [Hv Hs].
  unfold random_, same_result.
  destruct (random s1) as [u1 t1], (random s2) as [u2 t2]. cbn in *.
  split; assumption.
Qed.

Lemma alike_randint_ a b : alike_runs sim (randint a b) (randint a b).
Proof. intros s1 s2 H. exact (alike_randint _ _ _ alike a b s1 s2 H). Qed.

Lemma alike_choice_ {A} (l : list A) : alike_runs sim (choice l) (choice l).
Proof. intros s1 s2 H. exact (alike_choice _ _ _ alike A l s1 s2 H). Qed.

Ltac alike_step :=
  first
    [ apply alike_ret
    | apply alike_random_
    | apply alike_randint_
    | apply alike_choice_
    | apply alike_lift
    | apply alike_bind; [|intros ?] ].

Lemma alike_maybe_wrong_count n :
  alike_runs sim (maybe_wrong_count n) (maybe_wrong_count n).
Proof. unfold maybe_wrong_count. repeat alike_step. Qed.

Lemma alike_append_item chunks i x :
  alike_runs sim (append_item chunks i x) (append_item chunks i x).
Proof. unfold append_item. repeat alike_step. Qed.

Lemma alike_gate_weak_visa visa chunks :
  alike_runs sim (gate_weak_visa cfg visa chunks) (gate_weak_visa cfg visa chunks).
Proof.
  unfold gate_weak_visa. alike_step; [alike_step|].
  destruct (float_lt a (P_WEAK_VISA_MENTION cfg)); repeat alike_step.
Qed.

Lemma alike_gate_omit_key_fact b chunks :
  alike_runs sim (gate_omit_key_fact cfg b chunks) (gate_omit_key_fact cfg b chunks).
Proof.
  unfold gate_omit_key_fact. alike_step; [alike_step|].
  destruct (float_lt a (P_OMIT_KEY_FACT cfg)); [|alike_step].
  alike_step.
  - destruct (key_awards b); repeat alike_step.
  - destruct a0; repeat alike_step.
Qed.

Lemma alike_gate_wrong_count b chunks :
  alike_runs sim (gate_wrong_count cfg b chunks) (gate_wrong_count cfg b chunks).
Proof.
  unfold gate_wrong_count. alike_step; [alike_step|].
  destruct (float_lt a (P_WRONG_COUNT cfg)).
  - alike_step; [apply alike_maybe_wrong_count|].
    alike_step; [apply alike_append_item|alike_step].
  - alike_step; [apply alike_append_item|alike_step].
Qed.

Lemma alike_gate_hallucination chunks :
  alike_runs sim (gate_hallucination cfg chunks) (gate_hallucination cfg chunks).
Proof.
  unfold gate_hallucination. alike_step; [alike_step|].
  destruct (float_lt a (P_HALLUCINATION cfg)); [|alike_step].
  alike_step; [alike_step|].
  alike_step; [apply alike_append_item|alike_step].
Qed.

Lemma alike_gate_style_weak chunks :
  alike_runs sim (gate_style_weak cfg chunks) (gate_style_weak cfg chunks).
Proof.
  unfold gate_style_weak. alike_step; [alike_step|].
  destruct (float_lt a (P_STYLE_WEAK cfg)); alike_step.
Qed.

Lemma alike_gate_section_miss chunks :
  alike_runs sim (gate_section_miss cfg chunks) (gate_section_miss cfg chunks).
Proof.
  unfold gate_section_miss. alike_step; [alike_step|].
  destruct (float_lt a (P_SECTION_MISS cfg)); [|alike_step].
  alike_step; [alike_step|].
  destruct (float_lt a0 (1 # 2) && (2 <? length chunks)%nat); repeat alike_step.
Qed.

Lemma alike_gate_misname visa chunks :
  alike_runs sim (gate_misname cfg visa chunks) (gate_misname cfg visa chunks).
Proof.
  unfold gate_misname. alike_step; [alike_step|].
  destruct (float_lt a float_0_08); repeat alike_step.
Qed.

Lemma alike_gate_passive body :
  alike_runs sim (gate_passive body) (gate_passive body).
Proof.
  unfold gate_passive. alike_step; [alike_step|].
  destruct (float_lt a float_0_35); alike_step.
Qed.

Lemma alike_mk_rough_draft_log visa r b :
  alike_runs sim (mk_rough_draft_log cfg visa r b) (mk_rough_draft_log cfg visa r b).
Proof.
  unfold mk_rough_draft_log.
  alike_step; [apply alike_gate_weak_visa|]. destruct a as [c1 g1].
  alike_step; [apply alike_gate_omit_key_fact|]. destruct a as [c2 g2].
  alike_step; [apply alike_gate_wrong_count|]. destruct a as [c3 g3].
  alike_step; [apply alike_gate_hallucination|]. destruct a as [c4 g4].
  alike_step; [apply alike_gate_style_weak|]. destruct a as [c5 g5].
  alike_step; [apply alike_gate_section_miss|]. destruct a as [c6 g6].
  alike_step; [apply alike_gate_misname|]. destruct a as [c7 g7].
  alike_step; [apply alike_gate_passive|]. destruct a as [body g8].
  alike_step.
Qed.

End Determinism.

(** C7: [mk_rough_draft] is deterministic given the random source. Two runs
    with the same visa category, recommender and facts whose random sources
    answer alike from their initial states (in particular two runs of one
    source from one seed) return the same text, or raise the same exception. *)
Theorem mk_rough_draft_deterministic {U : UnicodeDB} (R1 R2 : RandomSource)
  (sim : @rng R1 -> @rng R2 -> Prop) (cfg : Config)
  (visa : text) (r : Person) (b : BeneficiaryFacts)
  (s1 : @rng R1) (s2 : @rng R2) :
  answer_alike R1 R2 sim ->
  sim s1 s2 ->
  same_result sim (@mk_rough_draft U R1 cfg visa r b s1)
                  (@mk_rough_draft U R2 cfg visa r b s2).
Proof.
  intros Ha Hs. unfold mk_rough_draft.
  apply (alike_bind R1 R2 sim); [|intros a; apply alike_ret|exact Hs].
  apply alike_mk_rough_draft_log. exact Ha.
Qed.

Lemma same_result_refl {A S : Type} (x : result (A * S)) : same_result eq x x.
Proof. destruct x as [[a s]|e]; cbn; [split|]; reflexivity. Qed.

(** One source answers like itself from equal states. *)
Lemma answer_alike_refl (R : RandomSource) : answer_alike R R eq.
Proof.
  split.
  - intros s1 s2 ->. split; reflexivity.
  - intros a b s1 s2 ->. apply same_result_refl.
  - intros A l s1 s2 ->. apply same_result_refl.
  - intros A l k s1 s2 ->. apply same_result_refl.
Qed.

Lemma mk_rough_draft_deterministic_witness :
  same_result eq
    (@mk_rough_draft ascii_only Tape.source default_config (str "EB-1A")
       recommender_1 facts_1 [13; 700; 2; 999; 1; 5]%N)
    (@mk_rough_draft ascii_only Tape.source default_config (str "EB-1A")
       recommender_1 facts_1 [13; 700; 2; 999; 1; 5]%N).
Proof.
  apply (@mk_rough_draft_deterministic ascii_only Tape.source Tape.source eq).
  - apply answer_alike_refl.
  - reflexivity.
Defined.

(** ** Substrings *)

Lemma substr_refl t : substr t t.
Proof. exists [], []. rewrite app_nil_r. reflexivity. Qed.

Lemma substr_nil t : substr [] t.
Proof. exists [], t. reflexivity. Qed.

Lemma substr_trans p q t : substr p q -> substr q t -> substr p t.
Proof.
  intros (a & b & ->) (c & d & ->). exists (c ++ a), (b ++ d).
  rewrite <- !app_assoc. reflexivity.
Qed.

Lemma substr_app_l p a b : substr p a -> substr p (a ++ b).
Proof.
  intros (x & y & ->). exists x, (y ++ b). rewrite <- !app_assoc. reflexivity.
Qed.

Lemma substr_app_r p a b : substr p b -> substr p (a ++ b).
Proof.
  intros (x & y & ->). exists (a ++ x), y. rewrite <- !app_assoc. reflexivity.
Qed.

Lemma substr_mid a p b : substr p (a ++ p ++ b).
Proof. exists a, b. reflexivity. Qed.

Lemma substr_prefix p b : substr p (p ++ b).
Proof. exists [], b. reflexivity. Qed.

Lemma substr_join sep l ls : In l ls -> substr l (join sep ls).
Proof.
  induction ls as [|x ls IH]; [contradiction|].
  intros [->|Hin].
  - destruct ls; [apply substr_refl|]. cbn [join]. apply substr_prefix.
  - destruct ls as [|y ls]; [contradiction|].
    change (join sep (x :: y :: ls)) with (x ++ sep ++ join sep (y :: ls)).
    apply substr_app_r, substr_app_r, IH, Hin.
Qed.

Lemma substr_concat c cs : In c cs -> substr c (concat cs).
Proof.
  induction cs as [|x cs IH]; [contradiction|].
  intros [->|Hin]; cbn [concat].
  - apply substr_prefix.
  - apply substr_app_r, IH, Hin.
Qed.

Lemma starts_with_prefix p t : starts_with p t = true <-> exists b, t = p ++ b.
Proof.
  revert t. induction p as [|x p IH]; intros t; cbn.
  - split; [intros _; exists t; reflexivity|reflexivity].
  - destruct t as [|y t].
    + split; [discriminate|intros (b & H); discriminate].
    + rewrite andb_true_iff, IH, N.eqb_eq. split.
      * intros [-> (b & ->)]. exists b. reflexivity.
      * intros (b & H). inversion H. split; [reflexivity|exists b; reflexivity].
Qed.

Lemma contains_substr p t : contains p t = true <-> substr p t.
Proof.
  induction t as [|y t IH].
  - cbn. rewrite orb_false_r, starts_with_prefix. split.
    + intros (b & H). exists [], b. exact H.
    + intros (a & b & H). destruct a; [exists b; exact H|discriminate].
  - cbn [contains]. rewrite orb_true_iff, IH, starts_with_prefix. split.
    + intros [(b & H)|(a & b & H)].
      * exists [], b. exact H.
      * exists (y :: a), b. rewrite H. reflexivity.
    + intros (a & b & H). destruct a as [|z a].
      * left. exists b. exact H.
      * right. inversion H. exists a, b. reflexivity.
Qed.

Lemma not_contains_substr p t : contains p t = false -> ~ substr p t.
Proof.
  intros H Hs. apply contains_substr in Hs. rewrite Hs in H. discriminate.
Qed.

(** ** textwrap: every line is a piece of the text *)

Section WrapLines.
Context {U : UnicodeDB}.

Lemma split_from_concat fuel : forall prev rest,
  concat (split_from fuel prev rest) = rest.
Proof.
  induction fuel as [|fuel IH]; intros prev rest.
  - destruct rest; cbn; [reflexivity|rewrite app_nil_r; reflexivity].
  - destruct rest as [|c r]; [reflexivity|].
    cbn [split_from concat]. rewrite IH. apply firstn_skipn.
Qed.

Lemma take_fitting_app width : forall chunks n line rest,
  take_fitting width n chunks = (line, rest) -> chunks = line ++ rest.
Proof.
  induction chunks as [|c cs IH]; intros n line rest H; cbn in H.
  - inversion H. reflexivity.
  - destruct (n + length c <=? width)%nat.
    + destruct (take_fitting width (n + length c) cs) as [l r] eqn:E.
      inversion H; subst. cbn. f_equal. exact (IH _ _ _ E).
    + inversion H. reflexivity.
Qed.

Lemma handle_long_word_app chunk n width piece left :
  handle_long_word chunk n width = (piece, left) -> chunk = piece ++ left.
Proof.
  unfold handle_long_word. intros H. inversion H. symmetry. apply firstn_skipn.
Qed.

Lemma drop_trailing_blank_concat (cl : list text) :
  exists m, concat cl = concat (drop_trailing_blank cl) ++ m.
Proof.
  unfold drop_trailing_blank. destruct (rev cl) as [|c more] eqn:E.
  - exists []. rewrite app_nil_r. reflexivity.
  - destruct (blank c).
    + exists c. rewrite <- (rev_involutive cl), E. cbn [rev].
      rewrite concat_app. cbn. rewrite app_nil_r. reflexivity.
    + exists []. rewrite app_nil_r. reflexivity.
Qed.

Lemma wrap_round_shape width started chunks ol chunks' :
  wrap_round width started chunks = (ol, chunks') ->
  exists a m,
    concat chunks =
    a ++ match ol with Some l => l | None => [] end ++ m ++ concat chunks'.
Proof.
  unfold wrap_round.
  set (chunks1 := match chunks with
                  | c :: cs => if blank c && started then cs else chunks
                  | [] => chunks
                  end).
  assert (H1 : exists a, concat chunks = a ++ concat chunks1).
  { subst chunks1. destruct chunks as [|c cs]; [exists []; reflexivity|].
    destruct (blank c && started); [exists c|exists []]; reflexivity. }
  destruct H1 as (a & H1).
  destruct (take_fitting width 0 chunks1) as [cur_line chunks2] eqn:E.
  apply take_fitting_app in E.
  assert (H2 : forall cl ch3,
    concat chunks1 = concat cl ++ concat ch3 ->
    forall ol chunks',
    match drop_trailing_blank cl with
    | [] => (None, ch3)
    | t :: l => (Some (concat (t :: l)), ch3)
    end = (ol, chunks') ->
    exists a m,
      concat chunks =
      a ++ match ol with Some l => l | None => [] end ++ m ++ concat chunks').
  { intros cl ch3 Hc ol0 ch0 H.
    destruct (drop_trailing_blank_concat cl) as (m & Hm).
    exists a, m. rewrite H1, Hc, Hm.
    destruct (drop_trailing_blank cl); inversion H; subst;
      cbn [concat]; rewrite <- ?app_assoc; reflexivity. }
  destruct chunks2 as [|c cs].
  - apply H2. rewrite E, concat_app. reflexivity.
  - destruct (width <? length c)%nat.
    + destruct (handle_long_word c (total_len cur_line) width) as [piece left] eqn:Eh.
      apply handle_long_word_app in Eh. apply H2.
      rewrite E, !concat_app. cbn [concat]. rewrite Eh, app_nil_r.
      rewrite <- !app_assoc. reflexivity.
    + apply H2. rewrite E, concat_app. reflexivity.
Qed.

Lemma wrap_loop_substr width fuel : forall started chunks l,
  In l (wrap_loop fuel width started chunks) -> substr l (concat chunks).
Proof.
  induction fuel as [|fuel IH]; intros started chunks l Hin.
  - destruct chunks; contradiction.
  - destruct chunks as [|c cs]; [contradiction|].
    cbn [wrap_loop] in Hin.
    destruct (wrap_round width started (c :: cs)) as [ol chunks'] eqn:E.
    destruct (wrap_round_shape _ _ _ _ _ E) as (a & m & Hs).
    rewrite Hs. destruct ol as [line|].
    + destruct Hin as [<-|Hin].
      * apply substr_mid.
      * apply substr_app_r, substr_app_r, substr_app_r. exact (IH _ _ _ Hin).
    + apply substr_app_r, substr_app_r, substr_app_r. exact (IH _ _ _ Hin).
Qed.

Lemma split_chunks_concat t : concat (split_chunks t) = munge_whitespace t.
Proof. unfold split_chunks, split_text. apply split_from_concat. Qed.

(** Every line of [wrap] is a contiguous piece of the text, once its
    whitespace is turned into spaces. *)
Lemma wrap_line_substr width t l :
  In l (wrap width t) -> substr l (munge_whitespace t).
Proof.
  unfold wrap, wrap_chunks. intros H. apply wrap_loop_substr in H.
  rewrite split_chunks_concat in H. exact H.
Qed.

End WrapLines.

(** ** textwrap: a short chunk reaches a line unbroken *)

Section WrapChunks.
Context {U : UnicodeDB}.
Local Open Scope N_scope.

Lemma word_len_ge : forall rest prev k, (k <= word_len prev k rest)%nat.
Proof.
  induction rest as [|c r IH]; intros prev k; cbn [word_len]; [lia|].
  destruct ((c =? hyphen) && behind_hyphen prev && ahead_hyphen r); [lia|].
  destruct (is_ws c); [lia|].
  destruct (behind_word_punct prev && dashes_then_word (c :: r)); [lia|].
  specialize (IH (c :: prev) (S k)). lia.
Qed.

Lemma match_len_pos prev c r : (1 <= match_len prev (c :: r))%nat.
Proof.
  unfold match_len. destruct (is_ws c) eqn:Ec.
  - cbn [ws_run]. rewrite Ec. lia.
  - destruct (behind_word_punct prev && dashes_then_word (c :: r)) eqn:Ed.
    + apply andb_true_iff in Ed. destruct Ed as [_ Ed].
      unfold dashes_then_word in Ed. apply andb_true_iff in Ed.
      destruct Ed as [Ed _]. apply Nat.leb_le in Ed. lia.
    + apply word_len_ge.
Qed.

Lemma split_from_nonempty fuel : forall prev rest,
  Forall (fun c => c <> []) (split_from fuel prev rest).
Proof.
  induction fuel as [|fuel IH]; intros prev rest.
  - destruct rest; cbn; constructor; [discriminate|constructor].
  - destruct rest as [|c r]; [constructor|].
    cbn [split_from]. constructor; [|apply IH].
    pose proof (match_len_pos prev c r) as Hp.
    destruct (match_len prev (c :: r)); [lia|discriminate].
Qed.

Lemma drop_trailing_blank_keeps (cl : list text) c :
  In c cl -> blank c = false -> In c (drop_trailing_blank cl).
Proof.
  intros Hin Hb. unfold drop_trailing_blank.
  destruct (rev cl) as [|x more] eqn:E; [exact Hin|].
  destruct (blank x) eqn:Ex; [|exact Hin].
  apply in_rev in Hin. rewrite E in Hin. destruct Hin as [->|Hin].
  - rewrite Hb in Ex. discriminate.
  - apply in_rev in Hin. exact Hin.
Qed.

Lemma wrap_round_keeps width started chunks ol chunks' c :
  wrap_round width started chunks = (ol, chunks') ->
  In c chunks -> blank c = false -> (length c <= width)%nat ->
  (exists l, ol = Some l /\ substr c l) \/ In c chunks'.
Proof.
  unfold wrap_round. intros H Hin Hb Hl.
  set (chunks1 := match chunks with
                  | c :: cs => if blank c && started then cs else chunks
                  | [] => chunks
                  end) in *.
  assert (H1 : In c chunks1).
  { subst chunks1. destruct chunks as [|c0 cs]; [contradiction|].
    destruct (blank c0 && started) eqn:E; [|exact Hin].
    destruct Hin as [->|Hin]; [|exact Hin].
    rewrite Hb in E. discriminate. }
  clearbody chunks1.
  destruct (take_fitting width 0 chunks1) as [cur_line chunks2] eqn:E.
  apply take_fitting_app in E. subst chunks1.
  assert (H2 : forall cl ch3,
    (In c cl \/ In c ch3) ->
    match drop_trailing_blank cl with
    | [] => (None, ch3)
    | t :: l => (Some (concat (t :: l)), ch3)
    end = (ol, chunks') ->
    (exists l, ol = Some l /\ substr c l) \/ In c chunks').
  { intros cl ch3 [Hc|Hc] Hr.
    - left. pose proof (drop_trailing_blank_keeps cl c Hc Hb) as Hk.
      destruct (drop_trailing_blank cl) as [|t l]; [contradiction|].
      inversion Hr; subst. eexists. split; [reflexivity|].
      change (substr c (concat (t :: l))). apply substr_concat. exact Hk.
    - right. destruct (drop_trailing_blank cl); inversion Hr; subst; exact Hc. }
  apply in_app_or in H1.
  destruct chunks2 as [|c2 cs].
  - apply (H2 cur_line []); [|exact H]. exact H1.
  - destruct (width <? length c2)%nat eqn:Ew.
    + destruct (handle_long_word c2 (total_len cur_line) width) as [piece left] eqn:Eh.
      apply (H2 (cur_line ++ [piece]) (left :: cs)); [|exact H].
      destruct H1 as [H1|[->|H1]].
      * left. apply in_or_app. left. exact H1.
      * apply Nat.ltb_lt in Ew. lia.
      * right. right. exact H1.
    + apply (H2 cur_line (c2 :: cs)); [|exact H]. exact H1.
Qed.

Lemma take_fitting_first width c cs :
  (length c <= width)%nat ->
  exists line rest, take_fitting width 0 (c :: cs) = (c :: line, rest).
Proof.
  intros Hl. cbn [take_fitting].
  replace (0 + length c <=? width)%nat with true
    by (symmetry; apply Nat.leb_le; lia).
  destruct (take_fitting width (0 + length c) cs) as [line rest].
  exists line, rest. reflexivity.
Qed.

Lemma total_len_cons c cs : total_len (c :: cs) = (length c + total_len cs)%nat.
Proof. unfold total_len. cbn. apply length_app. Qed.

Lemma total_len_app a b : total_len (a ++ b) = (total_len a + total_len b)%nat.
Proof. unfold total_len. rewrite concat_app. apply length_app. Qed.

Lemma handle_long_word_progress chunk n width piece left :
  (width < length chunk)%nat -> (n <= width)%nat ->
  handle_long_word chunk n width = (piece, left) ->
  left <> [] /\ (n = 0%nat -> (1 <= width)%nat -> (length left < length chunk)%nat).
Proof.
  unfold handle_long_word. intros Hw Hn H.
  set (space_left := (width - n)%nat) in *.
  set (end_ := if (space_left <? length chunk)%nat
               then match rfind_hyphen chunk space_left with
                    | Some (S h) =>
                        if existsb (fun c => negb (c =? hyphen)) (firstn (S h) chunk)
                        then S (S h) else space_left
                    | _ => space_left
                    end
               else space_left) in *.
  assert (Hr : forall t stop i, rfind_hyphen t stop = Some i -> (i < stop)%nat).
  { clear. induction t as [|c t IH]; intros stop i H.
    - destruct stop; discriminate.
    - destruct stop as [|stop]; [discriminate|]. cbn [rfind_hyphen] in H.
      destruct (rfind_hyphen t stop) as [j|] eqn:E.
      + inversion H; subst. apply IH in E. lia.
      + destruct (c =? hyphen); inversion H. lia. }
  assert (He : (end_ <= space_left)%nat /\ (1 <= space_left -> 1 <= end_)%nat).
  { subst end_. destruct (space_left <? length chunk)%nat; [|lia].
    destruct (rfind_hyphen chunk space_left) as [[|h]|] eqn:E; try lia.
    apply Hr in E.
    destruct (existsb (fun c => negb (c =? hyphen)) (firstn (S h) chunk)); lia. }
  inversion H; subst piece left. split.
  - intros Hnil. apply (f_equal (@length char)) in Hnil.
    rewrite length_skipn in Hnil. cbn in Hnil. subst space_left. lia.
  - intros -> Hw1. rewrite length_skipn. subst space_left. lia.
Qed.

Lemma wrap_round_progress width started chunks ol chunks' :
  (1 <= width)%nat ->
  chunks <> [] ->
  Forall (fun c => c <> []) chunks ->
  wrap_round width started chunks = (ol, chunks') ->
  (total_len chunks' < total_len chunks)%nat /\
  Forall (fun c => c <> []) chunks'.
Proof.
  intros Hw Hne Hall. unfold wrap_round.
  destruct chunks as [|c0 cs0]; [contradiction|].
  assert (Hc0 : (1 <= length c0)%nat).
  { inversion Hall; subst. destruct c0; [contradiction|cbn; lia]. }
  cbv beta iota.
  set (chunks1 := if blank c0 && started then _ else _).
  assert (H1 : Forall (fun c => c <> []) chunks1 /\
               (total_len chunks1 <= total_len (c0 :: cs0))%nat /\
               (chunks1 = c0 :: cs0 \/
                (total_len chunks1 < total_len (c0 :: cs0))%nat)).
  { subst chunks1. destruct (blank c0 && started).
    - inversion Hall; subst. rewrite total_len_cons.
      split; [assumption|]. split; [lia|right; lia].
    - split; [assumption|]. split; [lia|left; reflexivity]. }
  destruct H1 as (Hall1 & Hle & Hcase). clearbody chunks1.
  destruct (take_fitting width 0 chunks1) as [cur_line chunks2] eqn:E.
  pose proof (take_fitting_app _ _ _ _ _ E) as Happ.
  assert (Hall2 : Forall (fun c => c <> []) chunks2).
  { rewrite Happ in Hall1. apply Forall_app in Hall1. apply Hall1. }
  assert (Hlen : total_len chunks1 = (total_len cur_line + total_len chunks2)%nat).
  { rewrite Happ. apply total_len_app. }
  assert (Hfit : forall cs n line rest,
    take_fitting width n cs = (line, rest) ->
    (n + total_len line <= Nat.max n width)%nat).
  { clear. induction cs as [|c cs IH]; intros n line rest H; cbn in H.
    - inversion H. unfold total_len. cbn. lia.
    - destruct (n + length c <=? width)%nat eqn:Ec.
      + destruct (take_fitting width (n + length c) cs) as [l r] eqn:E.
        inversion H; subst. apply IH in E. apply Nat.leb_le in Ec.
        rewrite total_len_cons. lia.
      + inversion H. unfold total_len. cbn. lia. }
  pose proof (Hfit _ _ _ _ E) as Hcur.
  intros H.
  assert (Hres : forall cl ch3,
    match drop_trailing_blank cl with
    | [] => (None, ch3)
    | t :: l => (Some (concat (t :: l)), ch3)
    end = (ol, chunks') -> chunks' = ch3).
  { intros cl ch3 Hr. destruct (drop_trailing_blank cl); inversion Hr; reflexivity. }
  destruct chunks2 as [|c2 cs].
  - apply Hres in H. subst chunks'. split; [|constructor].
    rewrite total_len_cons. change (total_len []) with 0%nat. lia.
  - destruct (width <? length c2)%nat eqn:Ew.
    + destruct (handle_long_word c2 (total_len cur_line) width) as [piece left] eqn:Eh.
      apply Hres in H. subst chunks'. apply Nat.ltb_lt in Ew.
      assert (Hn : (total_len cur_line <= width)%nat) by lia.
      destruct (handle_long_word_progress _ _ _ _ _ Ew Hn Eh) as [Hl Hp].
      split.
      * assert (Hll : (length left <= length c2)%nat).
        { apply handle_long_word_app in Eh. rewrite Eh, length_app. lia. }
        pose proof (total_len_cons left cs) as T1.
        pose proof (total_len_cons c2 cs) as T2.
        destruct Hcase as [Hc|Hlt]; [|lia].
        rewrite <- Hc.
        destruct cur_line as [|x cur].
        -- specialize (Hp eq_refl Hw).
           change (total_len []) with 0%nat in Hlen. lia.
        -- rewrite Hc in Happ. cbn in Happ. inversion Happ; subst x.
           pose proof (total_len_cons c0 cur) as T3. lia.
      * inversion Hall2; subst. constructor; assumption.
    + apply Hres in H. subst chunks'. split; [|exact Hall2].
      destruct Hcase as [Hc|Hlt]; [|lia].
      apply Nat.ltb_ge in Ew.
      destruct cur_line as [|x cur].
      * cbn in Happ. rewrite Happ in E. cbn [take_fitting] in E.
        replace (0 + length c2 <=? width)%nat with true in E
          by (symmetry; apply Nat.leb_le; lia).
        destruct (take_fitting width (0 + length c2) cs); discriminate.
      * rewrite <- Hc.
        rewrite Hc in Happ. cbn in Happ. inversion Happ; subst x.
        pose proof (total_len_cons c0 cur) as T3. lia.
Qed.

Lemma wrap_loop_complete width c : forall fuel started chunks,
  (1 <= width)%nat ->
  (total_len chunks < fuel)%nat ->
  Forall (fun c => c <> []) chunks ->
  In c chunks -> blank c = false -> (length c <= width)%nat ->
  exists l, In l (wrap_loop fuel width started chunks) /\ substr c l.
Proof.
  induction fuel as [|fuel IH]; intros started chunks Hw Hf Hall Hin Hb Hl;
    [lia|].
  destruct chunks as [|c0 cs]; [contradiction|].
  cbn [wrap_loop].
  destruct (wrap_round width started (c0 :: cs)) as [ol chunks'] eqn:E.
  assert (Hne : c0 :: cs <> []) by discriminate.
  destruct (wrap_round_progress _ _ _ _ _ Hw Hne Hall E) as [Hlt Hall'].
  destruct (wrap_round_keeps _ _ _ _ _ _ E Hin Hb Hl) as [(l & -> & Hs)|Hin'].
  - exists l. split; [left; reflexivity|exact Hs].
  - assert (Hf' : (total_len chunks' < fuel)%nat) by lia.
    destruct (IH (match ol with Some _ => true | None => started end) chunks'
                Hw Hf' Hall' Hin' Hb Hl) as (l & Hl1 & Hl2).
    exists l. split; [|exact Hl2].
    destruct ol; [right|]; exact Hl1.
Qed.

(** A chunk of the text that is not blank and fits the width is inside one
    line of the result. *)
Lemma fill_keeps_chunk width t c :
  (1 <= width)%nat ->
  In c (split_chunks t) -> blank c = false -> (length c <= width)%nat ->
  substr c (fill width t).
Proof.
  intros Hw Hin Hb Hl. unfold fill, wrap, wrap_chunks.
  destruct (wrap_loop_complete width c (S (total_len (split_chunks t))) false
              (split_chunks t) Hw (Nat.lt_succ_diag_r _)) as (l & Hl1 & Hl2);
    try assumption.
  - apply split_from_nonempty.
  - apply (substr_trans _ l); [exact Hl2|]. apply substr_join. exact Hl1.
Qed.

End WrapChunks.

(** ** textwrap: a solid word is a chunk *)

Section SplitWords.
Context {U : UnicodeDB}.
Local Open Scope N_scope.

Lemma is_ws_cases c :
  is_ws c = true -> c = 9 \/ c = 10 \/ c = 11 \/ c = 12 \/ c = 13 \/ c = 32.
Proof.
  unfold is_ws. rewrite orb_true_iff, andb_true_iff, !N.leb_le, N.eqb_eq. lia.
Qed.

Lemma is_ws_not_letter c : is_ws c = true -> is_letter c = false.
Proof.
  intros H. apply is_ws_cases in H.
  destruct H as [H|[H|[H|[H|[H|H]]]]]; subst c; reflexivity.
Qed.

Lemma is_ws_not_hyphen c : is_ws c = true -> (c =? hyphen) = false.
Proof.
  intros H. apply is_ws_cases in H.
  destruct H as [H|[H|[H|[H|[H|H]]]]]; subst c; reflexivity.
Qed.

Lemma is_ws_isspace c : is_ws c = true -> py_isspace c = true.
Proof.
  intros H. apply is_ws_cases in H.
  destruct H as [H|[H|[H|[H|[H|H]]]]]; subst c; reflexivity.
Qed.

Lemma no_space_not_ws c : py_isspace c = false -> is_ws c = false.
Proof.
  intros H. destruct (is_ws c) eqn:E; [|reflexivity].
  apply is_ws_isspace in E. rewrite E in H. discriminate.
Qed.

(** On a solid word followed by whitespace or by the end of the text, the word
    alternative runs to the end of the word. *)
Lemma word_len_solid B : ws_start B = true ->
  forall W prev k,
  no_space W = true -> hyphen_safe W = true ->
  word_len prev k (W ++ B) = (k + length W)%nat.
Proof.
  intros HB. induction W as [|c r IH]; intros prev k Hn Hs.
  - cbn [app length]. destruct B as [|b B']; cbn [word_len]; [lia|].
    cbn in HB. rewrite (is_ws_not_hyphen b HB), HB. cbn. lia.
  - cbn [app] in *. cbn [no_space forallb] in Hn.
    apply andb_true_iff in Hn. destruct Hn as [Hc Hn].
    apply negb_true_iff in Hc.
    cbn [hyphen_safe] in Hs. apply andb_true_iff in Hs. destruct Hs as [Hh Hs].
    cbn [word_len].
    assert (Ha : (c =? hyphen) && behind_hyphen prev && ahead_hyphen (r ++ B) = false).
    { destruct (c =? hyphen); [|reflexivity].
      destruct r as [|d more]; [discriminate|].
      apply andb_true_iff in Hh. destruct Hh as [Hd _].
      apply negb_true_iff in Hd. cbn [andb app].
      unfold ahead_hyphen. destruct (more ++ B); [apply andb_false_r|].
      rewrite Hd. apply andb_false_r. }
    rewrite Ha, (no_space_not_ws c Hc).
    assert (Hd : dashes_then_word (c :: r ++ B) = false).
    { unfold dashes_then_word. cbn [hyphen_run].
      destruct (c =? hyphen); [|reflexivity].
      destruct r as [|d more]; [discriminate|].
      apply andb_true_iff in Hh. destruct Hh as [_ Hd].
      apply negb_true_iff in Hd. cbn [hyphen_run app]. rewrite Hd. reflexivity. }
    rewrite Hd, andb_false_r.
    rewrite (IH (c :: prev) (S k) Hn Hs). cbn [length]. lia.
Qed.

Lemma match_len_solid prev W B :
  W <> [] -> ws_start B = true ->
  no_space W = true -> hyphen_safe W = true ->
  match_len prev (W ++ B) = length W.
Proof.
  intros Hne HB Hn Hs. destruct W as [|c r]; [contradiction|].
  cbn [app match_len].
  pose proof Hn as Hn'. cbn [no_space forallb] in Hn'.
  apply andb_true_iff in Hn'. destruct Hn' as [Hc Hr].
  apply negb_true_iff in Hc. rewrite (no_space_not_ws c Hc).
  pose proof Hs as Hs'. cbn [hyphen_safe] in Hs'.
  apply andb_true_iff in Hs'. destruct Hs' as [Hh Hs'].
  assert (Hd : dashes_then_word (c :: r ++ B) = false).
  { unfold dashes_then_word. cbn [hyphen_run].
    destruct (c =? hyphen); [|reflexivity].
    destruct r as [|d more]; [discriminate|].
    apply andb_true_iff in Hh. destruct Hh as [_ Hd].
    apply negb_true_iff in Hd. cbn [hyphen_run app]. rewrite Hd. reflexivity. }
  rewrite Hd, andb_false_r.
  rewrite (word_len_solid B HB r (c :: prev) 1 Hr Hs'). reflexivity.
Qed.

Lemma ws_run_bound A x X :
  is_ws x = false -> (ws_run (A ++ x :: X) <= length A)%nat.
Proof.
  intros Hx. induction A as [|a A IH]; cbn [app ws_run length].
  - rewrite Hx. lia.
  - destruct (is_ws a); lia.
Qed.

Lemma hyphen_run_nonws t : (hyphen_run t <= nonws_run t)%nat.
Proof.
  induction t as [|c t IH]; cbn [hyphen_run nonws_run]; [lia|].
  destruct (c =? hyphen) eqn:E; [|lia].
  apply N.eqb_eq in E. subst c. cbn. lia.
Qed.

Lemma word_len_nonws : forall t prev k,
  (word_len prev k t <= k + nonws_run t)%nat.
Proof.
  induction t as [|c r IH]; intros prev k; cbn [word_len nonws_run]; [lia|].
  destruct ((c =? hyphen) && behind_hyphen prev && ahead_hyphen r) eqn:Ea.
  - apply andb_true_iff in Ea. destruct Ea as [Ea _].
    apply andb_true_iff in Ea. destruct Ea as [Ea _].
    apply N.eqb_eq in Ea. subst c. cbn. lia.
  - destruct (is_ws c); [lia|].
    destruct (behind_word_punct prev && dashes_then_word (c :: r)); [lia|].
    specialize (IH (c :: prev) (S k)). lia.
Qed.

Lemma nonws_run_ws_end A X :
  A <> [] -> ws_end A = true -> (nonws_run (A ++ X) < length A)%nat.
Proof.
  induction A as [|a A IH]; intros Hne He; [contradiction|].
  cbn [app nonws_run length]. destruct (is_ws a) eqn:Ea; [lia|].
  destruct A as [|a' A'].
  - unfold ws_end in He. cbn in He. rewrite Ea in He. discriminate.
  - assert (He' : ws_end (a' :: A') = true).
    { unfold ws_end in *. cbn [rev] in *.
      destruct (rev A' ++ [a']) as [|z zs] eqn:Ez.
      - destruct (rev A'); discriminate.
      - cbn in He. exact He. }
    specialize (IH ltac:(discriminate) He'). cbn [length] in *. lia.
Qed.

Lemma match_len_ws_end prev A x X :
  A <> [] -> ws_end A = true -> is_ws x = false ->
  (match_len prev (A ++ x :: X) <= length A)%nat.
Proof.
  intros Hne He Hx. destruct A as [|a A]; [contradiction|].
  cbn [app match_len]. destruct (is_ws a) eqn:Ea.
  - apply (ws_run_bound (a :: A) x X Hx).
  - pose proof (nonws_run_ws_end (a :: A) (x :: X) Hne He) as Hr.
    cbn [app nonws_run] in Hr. rewrite Ea in Hr.
    destruct (behind_word_punct prev && dashes_then_word (a :: A ++ x :: X)).
    + pose proof (hyphen_run_nonws (a :: A ++ x :: X)) as Hh.
      cbn [nonws_run] in Hh. rewrite Ea in Hh. lia.
    + pose proof (word_len_nonws (A ++ x :: X) (a :: prev) 1). lia.
Qed.

Lemma ws_end_skipn n A : ws_end A = true -> ws_end (skipn n A) = true.
Proof.
  intros He. unfold ws_end in *.
  rewrite <- (firstn_skipn n A), rev_app_distr in He.
  destruct (rev (skipn n A)) as [|c more]; [reflexivity|exact He].
Qed.

(** A solid word between whitespace (or the ends of the text) is one of the
    chunks. *)
Lemma split_from_has_word W B :
  W <> [] -> ws_start B = true ->
  no_space W = true -> hyphen_safe W = true ->
  forall fuel A prev,
  (length (A ++ W ++ B) <= fuel)%nat -> ws_end A = true ->
  In W (split_from fuel prev (A ++ W ++ B)).
Proof.
  intros Hne HB Hn Hs.
  destruct W as [|w W']; [contradiction|].
  assert (Hw : is_ws w = false).
  { cbn [no_space forallb] in Hn. apply andb_true_iff in Hn.
    destruct Hn as [Hn _]. apply negb_true_iff in Hn.
    exact (no_space_not_ws w Hn). }
  induction fuel as [|fuel IH]; intros A prev Hl He.
  - rewrite !length_app in Hl. cbn [length] in Hl. lia.
  - destruct A as [|a A].
    + cbn [app split_from]. left.
      change (w :: W' ++ B) with ((w :: W') ++ B).
      rewrite (match_len_solid prev (w :: W') B Hne HB Hn Hs).
      rewrite firstn_app, firstn_all, Nat.sub_diag. cbn [firstn].
      apply app_nil_r.
    + assert (HA : a :: A <> []) by discriminate.
      pose proof (match_len_ws_end prev (a :: A) w (W' ++ B) HA He Hw) as Hm.
      pose proof (match_len_pos prev a (A ++ w :: W' ++ B)) as Hp.
      change ((a :: A) ++ (w :: W') ++ B) with (a :: (A ++ w :: W' ++ B)) in *.
      cbn [split_from]. right.
      set (n := match_len prev (a :: A ++ w :: W' ++ B)).
      assert (Hm' : (n <= length (a :: A))%nat) by exact Hm.
      assert (Hp' : (1 <= n)%nat) by exact Hp.
      change (a :: A ++ w :: W' ++ B) with ((a :: A) ++ (w :: W') ++ B).
      rewrite skipn_app.
      replace (n - length (a :: A))%nat with 0%nat by lia.
      cbn [skipn].
      apply IH.
      * rewrite length_app, length_skipn.
        change (length (a :: A ++ w :: W' ++ B))
          with (length ((a :: A) ++ (w :: W') ++ B)) in Hl.
        rewrite length_app in Hl. lia.
      * apply ws_end_skipn. exact He.
Qed.

End SplitWords.

(** ** textwrap: a solid word of the text is in the result *)

Section FillWords.
Context {U : UnicodeDB}.
Local Open Scope N_scope.

Lemma munge_whitespace_eq t :
  munge_whitespace t = map to_space (expandtabs_from 0 t).
Proof. reflexivity. Qed.

Lemma expandtabs_from_app : forall X col Y,
  exists col', expandtabs_from col (X ++ Y) =
               expandtabs_from col X ++ expandtabs_from col' Y.
Proof.
  induction X as [|c X IH]; intros col Y.
  - exists col. reflexivity.
  - cbn [app expandtabs_from]. destruct (c =? 9).
    + destruct (IH (col + (8 - col mod 8))%nat Y) as (col' & ->).
      exists col'. rewrite <- app_assoc. reflexivity.
    + destruct ((c =? 10) || (c =? 13)).
      * destruct (IH 0%nat Y) as (col' & ->). exists col'. reflexivity.
      * destruct (IH (S col) Y) as (col' & ->). exists col'. reflexivity.
Qed.

Lemma expandtabs_from_no_space : forall W col,
  no_space W = true -> expandtabs_from col W = W.
Proof.
  induction W as [|c W IH]; intros col Hn; [reflexivity|].
  cbn [no_space forallb] in Hn. apply andb_true_iff in Hn.
  destruct Hn as [Hc Hn]. apply negb_true_iff in Hc.
  cbn [expandtabs_from].
  destruct (c =? 9) eqn:E9; [apply N.eqb_eq in E9; subst; discriminate|].
  destruct (c =? 10) eqn:E10; [apply N.eqb_eq in E10; subst; discriminate|].
  destruct (c =? 13) eqn:E13; [apply N.eqb_eq in E13; subst; discriminate|].
  cbn [orb]. f_equal. apply IH, Hn.
Qed.

Lemma map_to_space_no_space W : no_space W = true -> map to_space W = W.
Proof.
  induction W as [|c W IH]; intros Hn; [reflexivity|].
  cbn [no_space forallb] in Hn. apply andb_true_iff in Hn.
  destruct Hn as [Hc Hn]. apply negb_true_iff in Hc.
  cbn [map]. unfold to_space at 1. rewrite (no_space_not_ws c Hc).
  f_equal. apply IH, Hn.
Qed.

Lemma to_space_ws c : is_ws c = true -> to_space c = space.
Proof. unfold to_space. intros ->. reflexivity. Qed.

Lemma expandtabs_ws_start col c B :
  is_ws c = true ->
  exists more, map to_space (expandtabs_from col (c :: B)) = space :: more.
Proof.
  intros Hc. cbn [expandtabs_from]. destruct (c =? 9).
  - assert (Hi : exists k, (8 - col mod 8)%nat = S k).
    { pose proof (Nat.mod_upper_bound col 8 ltac:(discriminate)).
      exists (7 - col mod 8)%nat. lia. }
    destruct Hi as (k & ->). cbn [repeat app map].
    eexists. reflexivity.
  - destruct ((c =? 10) || (c =? 13)); cbn [map]; rewrite (to_space_ws c Hc);
      eexists; reflexivity.
Qed.

Lemma ws_start_munged col B :
  ws_start B = true -> ws_start (map to_space (expandtabs_from col B)) = true.
Proof.
  destruct B as [|c B]; [reflexivity|]. cbn [ws_start]. intros Hc.
  destruct (expandtabs_ws_start col c B Hc) as (more & ->). reflexivity.
Qed.

Lemma ws_end_app X Y : Y <> [] -> ws_end (X ++ Y) = ws_end Y.
Proof.
  intros Hy. unfold ws_end. rewrite rev_app_distr.
  destruct (rev Y) as [|y more] eqn:E; [|reflexivity].
  apply (f_equal (@rev char)) in E. rewrite rev_involutive in E.
  contradiction.
Qed.

Lemma expandtabs_ws_end col c :
  is_ws c = true ->
  ws_end (map to_space (expandtabs_from col [c])) = true.
Proof.
  intros Hc. cbn [expandtabs_from]. destruct (c =? 9).
  - rewrite app_nil_r.
    assert (Hr : forall n, n <> 0%nat -> ws_end (map to_space (repeat space n)) = true).
    { clear. intros n Hn. destruct n as [|n]; [contradiction|].
      assert (E : map to_space (repeat space (S n)) = repeat space n ++ [space]).
      { replace (S n) with (n + 1)%nat by lia. rewrite repeat_app, map_app.
        f_equal. clear. induction n; cbn; [reflexivity|]. f_equal. exact IHn. }
      rewrite E. rewrite ws_end_app by discriminate. reflexivity. }
    apply Hr. pose proof (Nat.mod_upper_bound col 8 ltac:(discriminate)). lia.
  - destruct ((c =? 10) || (c =? 13)); cbn [map]; rewrite (to_space_ws c Hc);
      reflexivity.
Qed.

Lemma ws_end_munged A : forall col,
  ws_end A = true -> ws_end (map to_space (expandtabs_from col A)) = true.
Proof.
  intros col He. unfold ws_end in He.
  destruct (rev A) as [|c more] eqn:E.
  - apply (f_equal (@rev char)) in E. rewrite rev_involutive in E. subst A.
    reflexivity.
  - apply (f_equal (@rev char)) in E. rewrite rev_involutive in E. subst A.
    cbn [rev].
    destruct (expandtabs_from_app (rev more) col [c]) as (col' & ->).
    rewrite map_app. pose proof (expandtabs_ws_end col' c He) as Hc.
    rewrite ws_end_app; [exact Hc|].
    intros Hnil. rewrite Hnil in Hc.
    cbn [expandtabs_from] in Hnil. destruct (c =? 9).
    + pose proof (Nat.mod_upper_bound col' 8 ltac:(discriminate)).
      destruct (8 - col' mod 8)%nat eqn:E8; [lia|discriminate].
    + destruct ((c =? 10) || (c =? 13)); discriminate.
Qed.

(** Whitespace handling leaves a word without whitespace where it is. *)
Lemma munge_around_word A W B :
  no_space W = true -> ws_end A = true -> ws_start B = true ->
  exists A' B', munge_whitespace (A ++ W ++ B) = A' ++ W ++ B' /\
                ws_end A' = true /\ ws_start B' = true.
Proof.
  intros Hn HA HB. rewrite munge_whitespace_eq.
  destruct (expandtabs_from_app A 0%nat (W ++ B)) as (c1 & ->).
  destruct (expandtabs_from_app W c1 B) as (c2 & ->).
  rewrite (expandtabs_from_no_space W c1 Hn), !map_app,
    (map_to_space_no_space W Hn).
  eexists _, _. split; [reflexivity|]. split.
  - apply ws_end_munged, HA.
  - apply ws_start_munged, HB.
Qed.

(** A solid word that fits the width, standing between whitespace or at an end
    of the text, is in the filled text as it is. *)
Lemma fill_keeps_word width A W B :
  (1 <= width)%nat -> W <> [] -> solid W = true -> (length W <= width)%nat ->
  ws_end A = true -> ws_start B = true ->
  substr W (fill width (A ++ W ++ B)).
Proof.
  intros Hw Hne Hs Hl HA HB. unfold solid in Hs.
  apply andb_true_iff in Hs. destruct Hs as [Hn Hh].
  destruct (munge_around_word A W B Hn HA HB) as (A' & B' & Hm & HA' & HB').
  apply fill_keeps_chunk; [exact Hw| |  |exact Hl].
  - unfold split_chunks, split_text. rewrite Hm.
    apply split_from_has_word; try assumption. lia.
  - destruct W as [|c W]; [contradiction|].
    cbn [no_space forallb] in Hn. apply andb_true_iff in Hn.
    destruct Hn as [Hc _]. apply negb_true_iff in Hc.
    cbn [blank forallb]. rewrite Hc. reflexivity.
Qed.

End FillWords.

(** ** Numbers and joined lists in a filled text *)

Section Items.
Context {U : UnicodeDB}.
Local Open Scope N_scope.

Lemma uint_digits d :
  Forall (fun c => ascii_digit c = true) (str (NilEmpty.string_of_uint d)).
Proof.
  induction d; cbn; constructor; try reflexivity; assumption.
Qed.

Lemma digit_facts c :
  ascii_digit c = true ->
  py_isspace c = false /\ (c =? hyphen) = false /\ is_letter c = false.
Proof.
  unfold ascii_digit. rewrite andb_true_iff, !N.leb_le. intros [H1 H2].
  assert (Hc : c = 48 \/ c = 49 \/ c = 50 \/ c = 51 \/ c = 52 \/ c = 53 \/
               c = 54 \/ c = 55 \/ c = 56 \/ c = 57) by lia.
  destruct Hc as [H|[H|[H|[H|[H|[H|[H|[H|[H|H]]]]]]]]]; subst c;
    repeat split; reflexivity.
Qed.

Lemma digits_solid t :
  Forall (fun c => ascii_digit c = true) t -> solid t = true.
Proof.
  unfold solid. induction 1 as [|c t Hc Ht IH]; [reflexivity|].
  destruct (digit_facts c Hc) as (H1 & H2 & _).
  apply andb_true_iff in IH. destruct IH as [IH1 IH2].
  cbn [no_space forallb hyphen_safe]. rewrite H1, H2.
  cbn [negb andb]. fold (no_space t). rewrite IH1, IH2. reflexivity.
Qed.

Lemma str_of_int_cases n :
  exists ds, ds <> [] /\ Forall (fun c => ascii_digit c = true) ds /\
             (str_of_int n = ds \/ str_of_int n = hyphen :: ds).
Proof.
  unfold str_of_int. destruct n as [|p|p]; cbn [Z.to_int NilEmpty.string_of_int].
  - exists (str "0"). split; [discriminate|]. split; [|left; reflexivity].
    constructor; [reflexivity|constructor].
  - exists (str (NilEmpty.string_of_uint (Pos.to_uint p))).
    split; [|split; [apply uint_digits|left; reflexivity]].
    pose proof (DecimalPos.Unsigned.to_uint_nonnil p) as Hn.
    destruct (Pos.to_uint p); [contradiction|..]; discriminate.
  - exists (str (NilEmpty.string_of_uint (Pos.to_uint p))).
    split; [|split; [apply uint_digits|right; reflexivity]].
    pose proof (DecimalPos.Unsigned.to_uint_nonnil p) as Hn.
    destruct (Pos.to_uint p); [contradiction|..]; discriminate.
Qed.

(** The text of an integer is one solid word. *)
Lemma str_of_int_solid n : solid (str_of_int n) = true /\ str_of_int n <> [].
Proof.
  destruct (str_of_int_cases n) as (ds & Hne & Hd & [->| ->]).
  - split; [apply digits_solid, Hd|exact Hne].
  - split; [|discriminate].
    pose proof (digits_solid ds Hd) as Hs. unfold solid in *.
    apply andb_true_iff in Hs. destruct Hs as [H1 H2].
    destruct ds as [|d ds]; [contradiction|].
    inversion Hd; subst. destruct (digit_facts d H3) as (_ & Hh & Hl).
    cbn [no_space forallb] in *. cbn [hyphen_safe] in *.
    rewrite H1. change (hyphen =? hyphen) with true. cbv iota.
    rewrite Hl, Hh. cbn. apply andb_true_iff in H2. destruct H2 as [H2 H2'].
    rewrite H2'. rewrite Hh in H2. reflexivity.
Qed.

Lemma hyphen_safe_app x y :
  hyphen_safe x = true -> hyphen_safe y = true -> hyphen_safe (x ++ y) = true.
Proof.
  intros Hx Hy. induction x as [|c r IH]; [exact Hy|].
  cbn [hyphen_safe app] in *. apply andb_true_iff in Hx.
  destruct Hx as [Hc Hr]. rewrite (IH Hr), andb_true_r.
  destruct (c =? hyphen); [|reflexivity].
  destruct r as [|d r']; [discriminate|exact Hc].
Qed.

Lemma solid_snoc x p :
  solid x = true -> p = 44 \/ p = 46 -> solid (x ++ [p]) = true.
Proof.
  unfold solid, no_space. intros Hs Hp. apply andb_true_iff in Hs.
  destruct Hs as [H1 H2]. rewrite forallb_app, H1.
  rewrite (hyphen_safe_app x [p] H2); [|destruct Hp; subst; reflexivity].
  destruct Hp; subst; reflexivity.
Qed.

(** Where an entry stands in a comma-joined list. *)
Lemma join_comma_split (l : list text) x :
  In x l ->
  exists J1 J2, join (str ", ") l = J1 ++ x ++ J2 /\
    (J1 = [] \/ exists J, J1 = J ++ str ", ") /\
    (J2 = [] \/ exists J, J2 = str ", " ++ J).
Proof.
  induction l as [|y l IH]; [contradiction|].
  intros Hin. destruct l as [|z l].
  - destruct Hin as [->|[]]. exists [], []. cbn [join].
    rewrite app_nil_r. split; [reflexivity|]. split; left; reflexivity.
  - change (join (str ", ") (y :: z :: l))
      with (y ++ str ", " ++ join (str ", ") (z :: l)).
    destruct Hin as [->|Hin].
    + exists [], (str ", " ++ join (str ", ") (z :: l)).
      split; [reflexivity|]. split; [left; reflexivity|].
      right. eexists. reflexivity.
    + destruct (IH Hin) as (J1 & J2 & E & H1 & H2).
      exists (y ++ str ", " ++ J1), J2. rewrite E.
      split; [rewrite <- !app_assoc; reflexivity|]. split; [|exact H2].
      right. destruct H1 as [->|(J & ->)].
      * exists y. rewrite app_nil_r. reflexivity.
      * exists (y ++ str ", " ++ J). rewrite <- !app_assoc. reflexivity.
Qed.

Lemma fill_keeps_item width P x S :
  (1 <= width)%nat -> x <> [] -> solid x = true -> (length x < width)%nat ->
  ws_end P = true -> closes_item S ->
  substr x (fill width (P ++ x ++ S)).
Proof.
  intros Hw Hne Hs Hl HP [HS|(p & S' & -> & Hp & HS)].
  - apply fill_keeps_word; try assumption. lia.
  - apply (substr_trans _ (x ++ [p])); [apply substr_prefix|].
    replace (P ++ x ++ p :: S') with (P ++ (x ++ [p]) ++ S')
      by (rewrite <- !app_assoc; reflexivity).
    apply fill_keeps_word; try assumption.
    + destruct x; discriminate.
    + apply solid_snoc; assumption.
    + rewrite length_app. cbn [length]. lia.
Qed.

(** A solid entry of a comma-joined list inside a text is in the filled text
    as it is. *)
Lemma fill_keeps_joined_item width P (l : list text) S x :
  (1 <= width)%nat -> In x l ->
  x <> [] -> solid x = true -> (length x < width)%nat ->
  ws_end P = true -> closes_item S ->
  substr x (fill width (P ++ join (str ", ") l ++ S)).
Proof.
  intros Hw Hin Hne Hs Hl HP HS.
  destruct (join_comma_split l x Hin) as (J1 & J2 & -> & H1 & H2).
  replace (P ++ (J1 ++ x ++ J2) ++ S) with ((P ++ J1) ++ x ++ (J2 ++ S))
    by (rewrite <- !app_assoc; reflexivity).
  apply fill_keeps_item; try assumption.
  - destruct H1 as [->|(J & ->)]; [rewrite app_nil_r; exact HP|].
    rewrite app_assoc, ws_end_app by discriminate. reflexivity.
  - destruct H2 as [->|(J & ->)]; [exact HS|].
    right. exists 44, (str " " ++ J ++ S).
    split; [reflexivity|]. split; [left; reflexivity|reflexivity].
Qed.

End Items.

(** ** The final draft *)

Section FinalDraft.
Context {U : UnicodeDB}.
Local Open Scope N_scope.

Lemma legal_evidence_counts b :
  exists rest, legal_evidence b =
    (name b ++ str " has authored ") ++ str_of_int (pubs b) ++
    (str " peer-reviewed publications with approximately " ++
     str_of_int (citations b) ++ str " citations." ++ rest).
Proof.
  unfold legal_evidence. destruct (key_awards b); cbn [app join];
    eexists; rewrite <- !app_assoc; reflexivity.
Qed.

Lemma legal_evidence_citations b :
  exists rest, legal_evidence b =
    (name b ++ str " has authored " ++ str_of_int (pubs b) ++
     str " peer-reviewed publications with approximately ") ++
    str_of_int (citations b) ++ (str " citations." ++ rest).
Proof.
  unfold legal_evidence. destruct (key_awards b); cbn [app join];
    eexists; rewrite <- !app_assoc; reflexivity.
Qed.

Lemma legal_evidence_awards b :
  key_awards b <> [] ->
  exists P S, legal_evidence b = P ++ join (str ", ") (key_awards b) ++ S /\
    ws_end P = true /\ closes_item S.
Proof.
  intros Hne. unfold legal_evidence.
  destruct (key_awards b) as [|a l] eqn:E; [contradiction|].
  cbn [app join].
  exists ((name b ++ str " has authored " ++ str_of_int (pubs b) ++
           str " peer-reviewed publications with approximately " ++
           str_of_int (citations b) ++ str " citations." ++ str " " ++
           str "Notably, " ++ name b) ++ str " received ").
  eexists. split; [rewrite <- !app_assoc; reflexivity|].
  split; [rewrite ws_end_app by discriminate; reflexivity|].
  right. eexists _, _. split; [reflexivity|].
  split; [right; reflexivity|reflexivity].
Qed.

Lemma legal_evidence_venues b :
  exists P S, legal_evidence b = P ++ join (str ", ") (key_venues b) ++ S /\
    ws_end P = true /\ closes_item S.
Proof.
  unfold legal_evidence.
  destruct (key_awards b) as [|a l] eqn:E; cbn [app join].
  - exists ((name b ++ str " has authored " ++ str_of_int (pubs b) ++
             str " peer-reviewed publications with approximately " ++
             str_of_int (citations b) ++ str " citations." ++ str " " ++
             name b) ++ str "'s research appears at ").
    eexists. split; [rewrite <- !app_assoc; reflexivity|].
    split; [rewrite ws_end_app by discriminate; reflexivity|].
    left. reflexivity.
  - exists ((name b ++ str " has authored " ++ str_of_int (pubs b) ++
             str " peer-reviewed publications with approximately " ++
             str_of_int (citations b) ++ str " citations." ++ str " " ++
             (str "Notably, " ++ name b ++ str " received " ++
              join (str ", ") (a :: l) ++ str ".") ++ str " " ++
             name b) ++ str "'s research appears at ").
    eexists. split; [rewrite <- !app_assoc; reflexivity|].
    split; [rewrite ws_end_app by discriminate; reflexivity|].
    left. reflexivity.
Qed.

Lemma legal_intro_visa visa r b :
  exists rest, legal_intro visa r b =
    (str "I am honored to recommend " ++ name b ++ str " for the ") ++
    visa ++ (str " visa category. " ++ rest).
Proof.
  unfold legal_intro. eexists. rewrite <- !app_assoc. reflexivity.
Qed.

Lemma in_final_draft visa r b x p :
  In p (final_paragraphs visa r b) -> substr x (fill 110 p) ->
  substr x (mk_final_draft visa r b).
Proof.
  intros Hp Hx. unfold mk_final_draft.
  apply (substr_trans _ (fill 110 p)); [exact Hx|].
  apply substr_join, in_map, Hp.
Qed.

End FinalDraft.

(** C1 as the spec states it fails: the award of [facts_ada] is in the
    evidence paragraph, and the line break of the wrapped draft falls between
    its two words. *)
Lemma award_split_by_wrapping :
  In (str "IEEE Fellow") (key_awards facts_ada) /\
  ~ substr (str "IEEE Fellow")
      (@mk_final_draft ascii_only (str "EB-1A") recommender_1 facts_ada) /\
  substr (str "received IEEE" ++ [newline] ++ str "Fellow.")
      (@mk_final_draft ascii_only (str "EB-1A") recommender_1 facts_ada).
Proof.
  split; [left; reflexivity|]. split.
  - apply not_contains_substr. vm_compute. reflexivity.
  - apply contains_substr. vm_compute. reflexivity.
Qed.

(** ** The fact renderer *)

Section FactRenderer.
Context {U : UnicodeDB}.


End FactRenderer.


(** ** Checks that pass through concatenation and wrapping *)

Section Checks.
Local Open Scope N_scope.

Lemma lacks_closed c : closed_check (lacks c).
Proof.
  split; [reflexivity|]. intros a b Ha Hb. unfold lacks in *.
  rewrite forallb_app. apply andb_true_iff. split; assumption.
Qed.

Lemma plain_closed : closed_check plain.
Proof.
  split; [reflexivity|]. intros a b Ha Hb. unfold plain in *.
  rewrite forallb_app. apply andb_true_iff. split; assumption.
Qed.

Lemma has_pair_app_clean x y a b :
  has_pair x y a = false -> pair_clean x y b = true ->
  has_pair x y (a ++ b) = false.
Proof.
  intros Ha Hb. unfold pair_clean in Hb. apply andb_true_iff in Hb.
  destruct Hb as [Hb1 Hb2]. apply negb_true_iff in Hb1, Hb2.
  induction a as [|c a IH]; [exact Hb1|].
  cbn [has_pair app] in *. apply orb_false_iff in Ha. destruct Ha as [Ha1 Ha2].
  rewrite (IH Ha2), orb_false_r.
  destruct a as [|d a']; cbn [app].
  - destruct b as [|e b']; [reflexivity|]. cbn in Hb2. rewrite Hb2.
    apply andb_false_r.
  - exact Ha1.
Qed.

Lemma pair_clean_closed x y : closed_check (pair_clean x y).
Proof.
  split; [reflexivity|]. intros a b Ha Hb.
  pose proof Ha as Ha'. unfold pair_clean in Ha'. apply andb_true_iff in Ha'.
  destruct Ha' as [Ha1 Ha2]. apply negb_true_iff in Ha1, Ha2.
  unfold pair_clean. rewrite (has_pair_app_clean x y a b Ha1 Hb). cbn [negb andb].
  destruct a as [|c a']; [|exact (proj2 (negb_true_iff _) Ha2)].
  unfold pair_clean in Hb. apply andb_true_iff in Hb. apply Hb.
Qed.

Lemma chk_join chk sep (l : list text) :
  closed_check chk -> chk sep = true ->
  Forall (fun p => chk p = true) l -> chk (join sep l) = true.
Proof.
  intros C Hs Hl. induction Hl as [|p l Hp Hl IH]; [apply (chk_nil _ C)|].
  destruct l as [|q l']; [exact Hp|].
  change (join sep (p :: q :: l')) with (p ++ sep ++ join sep (q :: l')).
  apply (chk_app _ C); [exact Hp|]. apply (chk_app _ C); [exact Hs|exact IH].
Qed.

Lemma lacks_substr c p t : substr p t -> lacks c t = true -> lacks c p = true.
Proof.
  intros (a & b & ->). unfold lacks. rewrite !forallb_app.
  intros H. apply andb_true_iff in H. destruct H as [_ H].
  apply andb_true_iff in H. apply H.
Qed.

Lemma has_pair_app_l x y a b :
  has_pair x y a = true -> has_pair x y (a ++ b) = true.
Proof.
  induction a as [|c a IH]; [discriminate|].
  cbn [has_pair app]. intros H. apply orb_true_iff in H.
  destruct H as [H|H].
  - destruct a as [|d a']; [discriminate|]. cbn [app]. rewrite H. reflexivity.
  - rewrite (IH H). apply orb_true_r.
Qed.

Lemma has_pair_app_r x y a b :
  has_pair x y b = true -> has_pair x y (a ++ b) = true.
Proof.
  intros H. induction a as [|c a IH]; [exact H|].
  cbn [has_pair app]. rewrite IH. apply orb_true_r.
Qed.

Lemma has_pair_substr x y p t :
  substr p t -> has_pair x y p = true -> has_pair x y t = true.
Proof.
  intros (a & b & ->) H. apply has_pair_app_r, has_pair_app_l, H.
Qed.

Lemma lacks_pair_clean x y t : lacks y t = true -> pair_clean x y t = true.
Proof.
  unfold pair_clean. intros H.
  assert (Hp : has_pair x y t = false).
  { induction t as [|c t IH]; [reflexivity|].
    cbn [lacks forallb] in H. apply andb_true_iff in H. destruct H as [_ H].
    cbn [has_pair]. rewrite (IH H), orb_false_r.
    destruct t as [|d t']; [reflexivity|].
    cbn [lacks forallb] in H. apply andb_true_iff in H. destruct H as [Hd _].
    apply negb_true_iff in Hd. rewrite Hd. apply andb_false_r. }
  rewrite Hp. destruct t as [|c t]; [reflexivity|].
  cbn [lacks forallb] in H. apply andb_true_iff in H. destruct H as [Hc _].
  cbn. rewrite Hc. reflexivity.
Qed.

Lemma lacks_first_pair_clean x y t :
  lacks x t = true -> starts_with_char y t = false -> pair_clean x y t = true.
Proof.
  unfold pair_clean. intros H Hs. rewrite Hs, andb_true_r.
  apply negb_true_iff. clear Hs.
  induction t as [|c t IH]; [reflexivity|].
  cbn [lacks forallb] in H. apply andb_true_iff in H. destruct H as [Hc H].
  apply negb_true_iff in Hc.
  cbn [has_pair]. rewrite (IH H), orb_false_r.
  destruct t; [reflexivity|]. rewrite Hc. reflexivity.
Qed.

Lemma lacks_join_newline c (ls : list text) :
  c <> newline -> Forall (fun l => lacks c l = true) ls ->
  lacks c (join [newline] ls) = true.
Proof.
  intros Hc Hl. apply chk_join; [apply lacks_closed| |exact Hl].
  unfold lacks. cbn [forallb]. rewrite andb_true_r.
  apply negb_true_iff, N.eqb_neq. congruence.
Qed.

Lemma has_pair_sep x y n a b :
  x <> n -> y <> n ->
  has_pair x y a = false -> has_pair x y b = false ->
  has_pair x y (a ++ n :: b) = false.
Proof.
  intros Hx Hy Ha Hb. apply N.eqb_neq in Hx, Hy.
  induction a as [|c a IH].
  - cbn [app has_pair]. rewrite Hb, orb_false_r.
    destruct b; [reflexivity|]. rewrite N.eqb_sym, Hx. reflexivity.
  - cbn [app has_pair] in *. apply orb_false_iff in Ha. destruct Ha as [Ha1 Ha2].
    rewrite (IH Ha2), orb_false_r.
    destruct a as [|d a']; cbn [app].
    + rewrite (N.eqb_sym n y), Hy. apply andb_false_r.
    + exact Ha1.
Qed.

Lemma has_pair_join_newline x y (ls : list text) :
  x <> newline -> y <> newline ->
  Forall (fun l => has_pair x y l = false) ls ->
  has_pair x y (join [newline] ls) = false.
Proof.
  intros Hx Hy Hl. induction Hl as [|p l Hp Hl IH]; [reflexivity|].
  destruct l as [|q l']; [exact Hp|].
  change (join [newline] (p :: q :: l'))
    with (p ++ newline :: join [newline] (q :: l')).
  apply has_pair_sep; assumption.
Qed.

Context {U : UnicodeDB}.

Lemma plain_expandtabs : forall t col, plain t = true -> expandtabs_from col t = t.
Proof.
  induction t as [|c t IH]; intros col Hp; [reflexivity|].
  cbn [plain forallb] in Hp. apply andb_true_iff in Hp. destruct Hp as [Hc Hp].
  cbn [expandtabs_from].
  destruct (c =? 9) eqn:E9; [apply N.eqb_eq in E9; subst; discriminate|].
  destruct (c =? 10) eqn:E10; [apply N.eqb_eq in E10; subst; discriminate|].
  destruct (c =? 13) eqn:E13; [apply N.eqb_eq in E13; subst; discriminate|].
  cbn [orb]. f_equal. apply IH, Hp.
Qed.

(** On a plain text the whitespace handling of [fill] changes nothing. *)
Lemma plain_munge t : plain t = true -> munge_whitespace t = t.
Proof.
  intros Hp. rewrite munge_whitespace_eq, (plain_expandtabs t 0%nat Hp).
  induction t as [|c t IH]; [reflexivity|].
  cbn [plain forallb] in Hp. apply andb_true_iff in Hp. destruct Hp as [Hc Hp].
  cbn [map]. rewrite (IH Hp). f_equal. unfold to_space.
  destruct (is_ws c); [|reflexivity].
  cbn in Hc. apply N.eqb_eq in Hc. symmetry. exact Hc.
Qed.

Lemma fill_lacks width c t :
  plain t = true -> c <> newline -> lacks c t = true ->
  lacks c (fill width t) = true.
Proof.
  intros Hp Hc Hl. unfold fill. apply lacks_join_newline; [exact Hc|].
  apply Forall_forall. intros l Hin. apply wrap_line_substr in Hin.
  rewrite (plain_munge t Hp) in Hin. exact (lacks_substr c l t Hin Hl).
Qed.

Lemma fill_no_pair width x y t :
  plain t = true -> x <> newline -> y <> newline ->
  has_pair x y t = false -> has_pair x y (fill width t) = false.
Proof.
  intros Hp Hx Hy Hl. unfold fill. apply has_pair_join_newline; try assumption.
  apply Forall_forall. intros l Hin. apply wrap_line_substr in Hin.
  rewrite (plain_munge t Hp) in Hin.
  destruct (has_pair x y l) eqn:E; [|reflexivity].
  rewrite (has_pair_substr x y l t Hin E) in Hl. discriminate.
Qed.

(** A string with the character [c] in it does not occur in a text without
    it; a string with [x] followed by [y] in it does not occur in a text
    without such a pair. *)
Lemma lacks_not_substr c p t :
  lacks c p = false -> lacks c t = true -> ~ substr p t.
Proof.
  intros Hp Ht Hs. rewrite (lacks_substr c p t Hs Ht) in Hp. discriminate.
Qed.

Lemma no_pair_not_substr x y p t :
  has_pair x y p = true -> has_pair x y t = false -> ~ substr p t.
Proof.
  intros Hp Ht Hs. rewrite (has_pair_substr x y p t Hs Hp) in Ht. discriminate.
Qed.

End Checks.

(** ** Checks on the drafts *)

Section NumberChecks.
Local Open Scope N_scope.

Lemma str_of_int_nonneg n :
  (0 <= n)%Z -> Forall (fun c => ascii_digit c = true) (str_of_int n).
Proof.
  intros Hn. unfold str_of_int.
  destruct n as [|p|p]; cbn [Z.to_int NilEmpty.string_of_int].
  - constructor; [reflexivity|constructor].
  - apply uint_digits.
  - lia.
Qed.

Lemma lacks_digits c ds :
  Forall (fun d => ascii_digit d = true) ds -> ascii_digit c = false ->
  lacks c ds = true.
Proof.
  intros Hd Hc. induction Hd as [|d ds Hd _ IH]; [reflexivity|].
  cbn [lacks forallb]. fold (lacks c ds). rewrite IH, andb_true_r.
  apply negb_true_iff, N.eqb_neq. intros ->. rewrite Hd in Hc. discriminate.
Qed.

Lemma lacks_str_of_int c n :
  ascii_digit c = false -> c <> hyphen -> lacks c (str_of_int n) = true.
Proof.
  intros Hc Hh. destruct (str_of_int_cases n) as (ds & _ & Hd & [->| ->]).
  - apply lacks_digits; assumption.
  - cbn [lacks forallb]. fold (lacks c ds). rewrite (lacks_digits c ds Hd Hc).
    rewrite andb_true_r. apply negb_true_iff, N.eqb_neq. congruence.
Qed.

Lemma lacks_str_of_int_nonneg c n :
  ascii_digit c = false -> (0 <= n)%Z -> lacks c (str_of_int n) = true.
Proof.
  intros Hc Hn. apply lacks_digits; [apply str_of_int_nonneg, Hn|exact Hc].
Qed.

Lemma plain_str_of_int n : plain (str_of_int n) = true.
Proof.
  assert (Hd : forall ds, Forall (fun d => ascii_digit d = true) ds ->
                          plain ds = true).
  { intros ds Hd. induction Hd as [|d ds Hd _ IH]; [reflexivity|].
    cbn [plain forallb]. fold (plain ds). rewrite IH, andb_true_r.
    unfold ascii_digit in Hd. apply andb_true_iff in Hd.
    rewrite !N.leb_le in Hd. unfold is_ws.
    replace (d <=? 13) with false by (symmetry; apply N.leb_gt; lia).
    replace (d =? 32) with false by (symmetry; apply N.eqb_neq; lia).
    rewrite andb_false_r. reflexivity. }
  destruct (str_of_int_cases n) as (ds & _ & Hds & [->| ->]).
  - apply Hd, Hds.
  - cbn [plain forallb]. fold (plain ds). rewrite (Hd ds Hds). reflexivity.
Qed.

End NumberChecks.

Section DraftChecks.
Variable chk : text -> bool.
Hypothesis C : closed_check chk.

Lemma chk_apps (parts : list text) :
  Forall (fun p => chk p = true) parts -> chk (concat parts) = true.
Proof.
  induction 1 as [|p l Hp _ IH]; [apply (chk_nil _ C)|].
  cbn [concat]. apply (chk_app _ C); assumption.
Qed.

Section Rough.
Hypothesis rough_lit : forallb chk rough_literals = true.

Lemma chk_rough_literal s : In s rough_literals -> chk s = true.
Proof.
  intros Hin. rewrite forallb_forall in rough_lit. apply rough_lit, Hin.
Qed.

Ltac lit :=
  solve [apply chk_rough_literal; cbn [rough_literals In];
         repeat (first [left; reflexivity | right])].

Variable cfg : Config.
Variables (visa : text) (b : BeneficiaryFacts) (g : GateLog).
Hypothesis Hname : chk (name b) = true.
Hypothesis Hfield : chk (field b) = true.
Hypothesis Hvenues : Forall (fun v => chk v = true) (key_venues b).
Hypothesis Hpubs : chk (str_of_int (pubs b)) = true.
Hypothesis Hcount : forall w, 1 <= w -> chk (str_of_int w) = true.
Hypothesis Hfake : forallb (fun f => chk (fake_claim f)) fake_awards = true.
Hypothesis Hvisa : chk (visa_closing visa) = true.
Hypothesis Hwrong : forall w, misnamed g = Some w -> chk (visa_closing w) = true.
Hypothesis Hlog : log_ok cfg visa b g.

Lemma chk_rough_intro : chk (rough_intro b) = true.
Proof.
  unfold rough_intro. repeat (apply (chk_app _ C)); try assumption; lit.
Qed.

Lemma chk_rough_evidence : chk (rough_evidence b) = true.
Proof.
  unfold rough_evidence. repeat (apply (chk_app _ C)); try lit.
  apply chk_join; [exact C|lit|exact Hvenues].
Qed.

Lemma chk_evidence_of : chk (evidence_of b g) = true.
Proof.
  destruct Hlog as (_ & Hw & Hf & _).
  unfold evidence_of, count_claim. repeat (apply (chk_app _ C)); try lit.
  - destruct (omitted g) as [[|]|]; [lit|lit|apply chk_rough_evidence].
  - destruct (wrong_count g) as [w|]; [|exact Hpubs].
    apply Hcount. destruct (Hw w eq_refl) as (d & _ & [->| ->]); lia.
  - destruct (hallucinated g) as [f|]; [|apply (chk_nil _ C)].
    rewrite forallb_forall in Hfake. apply Hfake, Hf. reflexivity.
Qed.

Lemma chk_closing_of : chk (closing_of visa g) = true.
Proof. unfold closing_of. destruct (weak_visa g); [lit|exact Hvisa]. Qed.

Lemma chk_chunks_of : Forall (fun c => chk c = true) (chunks_of visa b g).
Proof.
  pose proof chk_rough_intro as H1. pose proof chk_evidence_of as H2.
  pose proof chk_closing_of as H3.
  assert (H0 : chk filler_opening = true) by lit.
  unfold chunks_of, surviving_chunks, styled_chunks.
  destruct (misnamed g) as [w|] eqn:Em;
    [specialize (Hwrong w eq_refl)|];
    destruct (style_weak g), (section_removed g) as [[|]|];
    cbn [app tl removelast]; repeat constructor; assumption.
Qed.

(** A check that holds of every part of the rough draft holds of its text
    before wrapping. *)
Lemma chk_body_of : chk (body_of visa b g) = true.
Proof.
  unfold body_of. apply (chk_app _ C).
  - apply chk_join; [exact C|lit|apply chk_chunks_of].
  - destruct (passive g); [lit|apply (chk_nil _ C)].
Qed.

End Rough.

Section Final.
Hypothesis final_lit : forallb chk final_literals = true.

Lemma chk_final_literal s : In s final_literals -> chk s = true.
Proof.
  intros Hin. rewrite forallb_forall in final_lit. apply final_lit, Hin.
Qed.

Ltac lit :=
  solve [apply chk_final_literal; cbn [final_literals In];
         repeat (first [left; reflexivity | right])].

Variables (visa : text) (r : Person) (b : BeneficiaryFacts).
Hypothesis Hvisa : chk visa = true.
Hypothesis Htitle : chk (title r) = true.
Hypothesis Haff : chk (affiliation r) = true.
Hypothesis Hname : chk (name b) = true.
Hypothesis Hfield : chk (field b) = true.
Hypothesis Hpubs : chk (str_of_int (pubs b)) = true.
Hypothesis Hcit : chk (str_of_int (citations b)) = true.
Hypothesis Hawards : Forall (fun a => chk a = true) (key_awards b).
Hypothesis Hvenues : Forall (fun v => chk v = true) (key_venues b).

(** A check that holds of every part of the final draft holds of each of its
    paragraphs before wrapping. *)
Lemma chk_final_paragraphs :
  Forall (fun p => chk p = true) (final_paragraphs visa r b).
Proof.
  unfold final_paragraphs. repeat constructor.
  - unfold legal_intro. repeat (apply (chk_app _ C)); try assumption; lit.
  - unfold legal_evidence. apply chk_join; [exact C|lit|].
    assert (H1 : chk (name b ++ str " has authored " ++ str_of_int (pubs b) ++
                      str " peer-reviewed publications with approximately " ++
                      str_of_int (citations b) ++ str " citations.") = true).
    { repeat (apply (chk_app _ C)); try assumption; lit. }
    assert (H2 : chk (name b ++ str "'s research appears at " ++
                      join (str ", ") (key_venues b) ++
                      str " and is widely recognized in " ++ field b ++ str ".")
                 = true).
    { repeat (apply (chk_app _ C)); try assumption; try lit.
      apply chk_join; [exact C|lit|exact Hvenues]. }
    destruct (key_awards b) as [|a l] eqn:Ea; cbn [app];
      repeat constructor; try assumption.
    repeat (apply (chk_app _ C)); try assumption; try lit.
    apply chk_join; [exact C|lit|exact Hawards].
  - unfold legal_closing. repeat (apply (chk_app _ C)); try assumption; lit.
Qed.

End Final.

End DraftChecks.

(** ** Generated inputs *)

Lemma pool_check (chk : text -> bool) (pool l : list text) :
  forallb chk pool = true -> incl l pool -> Forall (fun x => chk x = true) l.
Proof.
  intros Hp Hl. rewrite forallb_forall in Hp. apply Forall_forall.
  intros x Hx. apply Hp, Hl, Hx.
Qed.

Lemma pool_check_in (chk : text -> bool) (pool : list text) x :
  forallb chk pool = true -> In x pool -> chk x = true.
Proof. intros Hp Hx. rewrite forallb_forall in Hp. apply Hp, Hx. Qed.

Section Recommender.
Context {U : UnicodeDB} {R : RandomSource}.

Lemma mk_rough_draft_ignores_recommender cfg visa r1 r2 b s :
  mk_rough_draft cfg visa r1 b s = mk_rough_draft cfg visa r2 b s.
Proof. reflexivity. Qed.

Lemma mk_final_draft_ignores_full_name visa r1 r2 b :
  title r1 = title r2 -> affiliation r1 = affiliation r2 ->
  mk_final_draft visa r1 b = mk_final_draft visa r2 b.
Proof.
  intros Ht Ha. unfold mk_final_draft, final_paragraphs, legal_intro.
  rewrite Ht, Ha. reflexivity.
Qed.

Lemma mk_rough_draft_run cfg visa r b s t s' :
  mk_rough_draft cfg visa r b s = Ok (t, s') ->
  exists g, t = fill 110 (body_of visa b g) /\ log_ok cfg visa b g.
Proof.
  unfold mk_rough_draft. intros H. apply bind_inv in H.
  destruct H as ([t0 g] & s1 & E & H). apply ret_inv in H.
  destruct H as [<- _]. apply mk_rough_draft_log_run in E.
  exists g. exact E.
Qed.

(** Both drafts of generated inputs are plain and have no capital J. *)
Lemma generated_drafts_lack_J visa r b :
  In visa (VISA_TYPES default_config) ->
  generated_recommender default_config r ->
  generated_facts default_config b ->
  lacks capital_J (mk_final_draft visa r b) = true /\
  forall s t s', mk_rough_draft default_config visa r b s = Ok (t, s') ->
                 lacks capital_J t = true.
Proof.
  intros Hv (_ & Haff & Htitle) ((i & Hname) & Hfield & Hpubs & Hcit & Haw & Hve).
  assert (Hnum : forall chk, chk = plain \/ chk = lacks capital_J ->
                 forall n, chk (str_of_int n) = true).
  { intros chk [->| ->] n; [apply plain_str_of_int|].
    apply lacks_str_of_int; [reflexivity|discriminate]. }
  assert (Hcl : forall chk, chk = plain \/ chk = lacks capital_J -> closed_check chk).
  { intros chk [->| ->]; [apply plain_closed|apply lacks_closed]. }
  assert (Hfin : forall chk, chk = plain \/ chk = lacks capital_J ->
            Forall (fun p => chk p = true) (final_paragraphs visa r b)).
  { intros chk Hc. pose proof (Hcl chk Hc) as C. pose proof (Hnum chk Hc) as N.
    apply chk_final_paragraphs; try apply N; try exact C.
    - destruct Hc as [->| ->]; vm_compute; reflexivity.
    - apply (pool_check_in chk (VISA_TYPES default_config)); [|exact Hv].
      destruct Hc as [->| ->]; vm_compute; reflexivity.
    - apply (pool_check_in chk (TITLE_POOL default_config)); [|exact Htitle].
      destruct Hc as [->| ->]; vm_compute; reflexivity.
    - apply (pool_check_in chk (ORG_POOL default_config)); [|exact Haff].
      destruct Hc as [->| ->]; vm_compute; reflexivity.
    - rewrite Hname. apply (chk_app _ C); [|apply N].
      destruct Hc as [->| ->]; vm_compute; reflexivity.
    - apply (pool_check_in chk (FIELDS default_config)); [|exact Hfield].
      destruct Hc as [->| ->]; vm_compute; reflexivity.
    - apply (pool_check chk (AWARD_POOL default_config)); [|exact Haw].
      destruct Hc as [->| ->]; vm_compute; reflexivity.
    - apply (pool_check chk (VENUE_POOL default_config)); [|exact Hve].
      destruct Hc as [->| ->]; vm_compute; reflexivity. }
  split.
  - unfold mk_final_draft.
    apply chk_join; [apply lacks_closed|reflexivity|].
    pose proof (Hfin plain (or_introl eq_refl)) as Hp.
    pose proof (Hfin (lacks capital_J) (or_intror eq_refl)) as Hl.
    rewrite Forall_forall in *. intros l Hin. apply in_map_iff in Hin.
    destruct Hin as (p & <- & Hin).
    apply fill_lacks; [apply Hp, Hin|discriminate|apply Hl, Hin].
  - intros s t s' H. apply mk_rough_draft_run in H.
    destruct H as (g & -> & Hlog).
    assert (Hbody : forall chk, chk = plain \/ chk = lacks capital_J ->
              chk (body_of visa b g) = true).
    { intros chk Hc. pose proof (Hcl chk Hc) as C. pose proof (Hnum chk Hc) as N.
      apply (chk_body_of chk C) with (cfg := default_config);
        try apply N; try exact Hlog.
      - destruct Hc as [->| ->]; vm_compute; reflexivity.
      - rewrite Hname. apply (chk_app _ C); [|apply N].
        destruct Hc as [->| ->]; vm_compute; reflexivity.
      - apply (pool_check_in chk (FIELDS default_config)); [|exact Hfield].
        destruct Hc as [->| ->]; vm_compute; reflexivity.
      - apply (pool_check chk (VENUE_POOL default_config)); [|exact Hve].
        destruct Hc as [->| ->]; vm_compute; reflexivity.
      - intros w _. apply N.
      - destruct Hc as [->| ->]; vm_compute; reflexivity.
      - apply (pool_check_in (fun w => chk (visa_closing w))
                 (VISA_TYPES default_config)); [|exact Hv].
        destruct Hc as [->| ->]; vm_compute; reflexivity.
      - intros w Hw. destruct Hlog as (_ & _ & _ & Hm).
        apply (pool_check_in (fun w => chk (visa_closing w))
                 (VISA_TYPES default_config)); [|apply (Hm w Hw)].
        destruct Hc as [->| ->]; vm_compute; reflexivity. }
    apply fill_lacks; [apply Hbody; left; reflexivity|discriminate|
                       apply Hbody; right; reflexivity].
Qed.

(** C10, as the code has it. The rough draft does not depend on the
    recommender at all, and the final draft depends on the recommender only
    through title and affiliation; so the full name is in a draft only when it
    occurs in the other inputs or in the templates. For a recommender made by
    [mk_recommender] with facts made by [mk_beneficiary] and a configured visa
    category, the full name is in neither draft. *)
Theorem drafts_ignore_full_name (cfg : Config) (visa : text) (r1 r2 : Person)
  (b : BeneficiaryFacts) (s : rng) :
  mk_rough_draft cfg visa r1 b s = mk_rough_draft cfg visa r2 b s /\
  (title r1 = title r2 -> affiliation r1 = affiliation r2 ->
   mk_final_draft visa r1 b = mk_final_draft visa r2 b) /\
  (In visa (VISA_TYPES default_config) ->
   generated_recommender default_config r1 ->
   generated_facts default_config b ->
   ~ substr (full_name r1) (mk_final_draft visa r1 b) /\
   forall s0 t s', mk_rough_draft default_config visa r1 b s0 = Ok (t, s') ->
                   ~ substr (full_name r1) t).
Proof.
  split; [reflexivity|]. split; [apply mk_final_draft_ignores_full_name|].
  intros Hv Hr Hb.
  destruct (generated_drafts_lack_J visa r1 b Hv Hr Hb) as [Hf Hrough].
  destruct Hr as ((i & Hn) & _).
  assert (HJ : lacks capital_J (full_name r1) = false) by (rewrite Hn; reflexivity).
  split.
  - apply (lacks_not_substr capital_J); assumption.
  - intros s0 t s' H. apply (lacks_not_substr capital_J); [exact HJ|].
    exact (Hrough s0 t s' H).
Qed.

End Recommender.

Section GeneratedInputs.
Context {R : RandomSource}.

Lemma mk_beneficiary_generated cfg i s b s' :
  mk_beneficiary cfg i s = Ok (b, s') -> generated_facts cfg b.
Proof.
  unfold mk_beneficiary. intros H.
  apply bind_inv in H. destruct H as (f & s1 & E1 & H).
  apply bind_inv in H. destruct H as (p & s2 & E2 & H).
  apply bind_inv in H. destruct H as (c & s3 & E3 & H).
  apply bind_inv in H. destruct H as (ka & s4 & E4 & H).
  apply bind_inv in H. destruct H as (aw & s5 & E5 & H).
  apply bind_inv in H. destruct H as (kv & s6 & E6 & H).
  apply bind_inv in H. destruct H as (ve & s7 & E7 & H).
  apply ret_inv in H. destruct H as [<- _].
  apply choice_inv in E1. apply randint_inv in E2. apply randint_inv in E3.
  apply sample_inv in E5. destruct E5 as (_ & _ & ra & Ha).
  apply sample_inv in E7. destruct E7 as (_ & _ & rv & Hv).
  unfold generated_facts. cbn [name field pubs citations key_awards key_venues].
  split; [exists i; reflexivity|]. split; [exact E1|].
  split; [exact E2|]. split; [exact E3|]. split.
  - exact (selection_incl _ _ _ Ha).
  - exact (selection_incl _ _ _ Hv).
Qed.

Lemma mk_recommender_generated cfg i s r s' :
  mk_recommender cfg i s = Ok (r, s') -> generated_recommender cfg r.
Proof.
  unfold mk_recommender. intros H.
  apply bind_inv in H. destruct H as (a & s1 & E1 & H).
  apply bind_inv in H. destruct H as (t & s2 & E2 & H).
  apply ret_inv in H. destruct H as [<- _].
  apply choice_inv in E1. apply choice_inv in E2.
  unfold generated_recommender. cbn [full_name affiliation title].
  split; [exists i; reflexivity|]. split; assumption.
Qed.

End GeneratedInputs.

Lemma facts_1_generated : generated_facts default_config facts_1.
Proof.
  unfold generated_facts. split; [exists 1; reflexivity|].
  split; [cbn; auto 8|]. split; [cbn; lia|]. split; [cbn; lia|].
  split; intros x Hx; cbn in Hx |- *; intuition.
Qed.

Lemma recommender_1_generated : generated_recommender default_config recommender_1.
Proof.
  unfold generated_recommender. split; [exists 1; reflexivity|].
  split; cbn; auto 8.
Qed.

(** C10 as the spec states it fails: a recommender who has the name of the
    beneficiary finds the name in both drafts. *)
Lemma full_name_can_occur :
  substr (full_name recommender_namesake)
    (@mk_final_draft ascii_only (str "EB-1A") recommender_namesake facts_1) /\
  match @mk_rough_draft ascii_only Tape.source default_config (str "EB-1A")
          recommender_namesake facts_1
          [999; 999; 999; 999; 999; 999; 999; 999]%N with
  | Ok (t, _) => substr (full_name recommender_namesake) t
  | Raise _ => False
  end.
Proof.
  split.
  - apply contains_substr. vm_compute. reflexivity.
  - apply contains_substr. vm_compute. reflexivity.
Qed.

Lemma drafts_ignore_full_name_witness :
  ~ substr (full_name recommender_1)
      (@mk_final_draft ascii_only (str "EB-1A") recommender_1 facts_1) /\
  forall s0 t s',
    @mk_rough_draft ascii_only Tape.source default_config (str "EB-1A")
      recommender_1 facts_1 s0 = Ok (t, s') ->
    ~ substr (full_name recommender_1) t.
Proof.
  destruct (@drafts_ignore_full_name ascii_only Tape.source default_config
              (str "EB-1A") recommender_1 recommender_1 facts_1 [])
    as (_ & _ & H).
  apply H.
  - left. reflexivity.
  - exact recommender_1_generated.
  - exact facts_1_generated.
Defined.

(** ** Section omission forced *)

Section SectionForced.
Context {U : UnicodeDB} {R : RandomSource}.
Variable cfg : Config.

Lemma float_lt_one s : float_lt (fst (random s)) 1 = true.
Proof.
  destruct (random_unit s) as [_ H]. unfold float_lt.
  apply negb_true_iff. destruct (Qle_bool 1 (fst (random s))) eqn:E;
    [|reflexivity].
  apply Qle_bool_iff in E. exfalso. exact (Qlt_not_le _ _ H E).
Qed.

(** With the probability at 1.0 the section block always removes. *)
Lemma gate_section_miss_forced chunks s chunks' o s' :
  P_SECTION_MISS cfg = 1%Q ->
  gate_section_miss cfg chunks s = Ok ((chunks', o), s') -> o <> None.
Proof.
  intros HP. unfold gate_section_miss, bind at 1, random_ at 1.
  pose proof (float_lt_one s) as Hu. destruct (random s) as [u s1].
  cbn [fst] in Hu. rewrite HP, Hu. intros H.
  apply bind_inv in H. destruct H as (v & s2 & _ & H).
  destruct (float_lt v (1 # 2) && (2 <? length chunks)%nat).
  - apply bind_inv in H. destruct H as (c & s3 & _ & H).
    apply ret_inv in H. destruct H as [H _]. inversion H. discriminate.
  - apply ret_inv in H. destruct H as [H _]. inversion H. discriminate.
Qed.

(** The logged removal is what the section block returned. *)
Lemma mk_rough_draft_log_section visa r b s t g s' :
  mk_rough_draft_log cfg visa r b s = Ok ((t, g), s') ->
  exists chunks s6 chunks' s7,
    gate_section_miss cfg chunks s6 = Ok ((chunks', section_removed g), s7).
Proof.
  unfold mk_rough_draft_log. intros H.
  apply bind_inv in H. destruct H as ([c1 g1] & s1 & _ & H).
  apply bind_inv in H. destruct H as ([c2 g2] & s2 & _ & H).
  apply bind_inv in H. destruct H as ([c3 g3] & s3 & _ & H).
  apply bind_inv in H. destruct H as ([c4 g4] & s4 & _ & H).
  apply bind_inv in H. destruct H as ([c5 g5] & s5 & _ & H).
  apply bind_inv in H. destruct H as ([c6 g6] & s6 & E6 & H).
  apply bind_inv in H. destruct H as ([c7 g7] & s7 & _ & H).
  apply bind_inv in H. destruct H as ([body g8] & s8 & _ & H).
  apply ret_inv in H. destruct H as [H _]. inversion H; subst.
  cbn [section_removed]. eexists _, _, _, _. exact E6.
Qed.

(** Without the closing and without a misnamed category the visa category is
    not used. *)
Lemma body_without_closing visa visa' b g :
  section_removed g = Some DropLast -> misnamed g = None ->
  body_of visa b g = body_of visa' b g.
Proof.
  intros Hs Hm. unfold body_of, chunks_of, surviving_chunks, styled_chunks.
  rewrite Hs, Hm. destruct (style_weak g); reflexivity.
Qed.

End SectionForced.

Section NoClosingChecks.
Variable chk : text -> bool.
Hypothesis C : closed_check chk.
Hypothesis rough_lit : forallb chk rough_literals = true.
Hypothesis pools :
  forallb chk (FIELDS default_config) = true /\
  forallb chk (VENUE_POOL default_config) = true /\
  forallb (fun f => chk (fake_claim f)) fake_awards = true.
Hypothesis numbers : forall n, 0 <= n -> chk (str_of_int n) = true.
Hypothesis names : forall i, chk (str "Dr. Alex " ++ str_of_int i) = true.

(** The rough draft of generated facts, when the closing is dropped and no
    category is misnamed, passes every check its parts pass. *)
Lemma chk_body_without_closing cfg visa b g :
  generated_facts default_config b -> log_ok cfg visa b g ->
  section_removed g = Some DropLast -> misnamed g = None ->
  chk (body_of visa b g) = true.
Proof.
  intros ((i & Hname) & Hfield & Hpubs & _ & _ & Hve) Hlog Hs Hm.
  destruct pools as (Pf & Pv & Pk).
  assert (H1 : chk (rough_intro b) = true).
  { apply chk_rough_intro; try assumption.
    - rewrite Hname. apply names.
    - exact (pool_check_in chk _ _ Pf Hfield). }
  assert (H2 : chk (evidence_of b g) = true).
  { apply (chk_evidence_of chk C rough_lit cfg visa); try assumption.
    - exact (pool_check chk _ _ Pv Hve).
    - apply numbers. cbn in Hpubs. lia.
    - intros w Hw. apply numbers. lia. }
  assert (H0 : chk filler_opening = true)
    by (apply (chk_rough_literal chk rough_lit); cbn; auto 20).
  assert (H3 : chk passive_filler = true)
    by (apply (chk_rough_literal chk rough_lit); cbn; auto 20).
  assert (H4 : chk (str " ") = true)
    by (apply (chk_rough_literal chk rough_lit); cbn; auto 20).
  unfold body_of, chunks_of, surviving_chunks, styled_chunks.
  rewrite Hs, Hm. apply (chk_app _ C).
  - apply chk_join; [exact C|exact H4|].
    destruct (style_weak g); cbn [app removelast]; repeat constructor; assumption.
  - destruct (passive g); [exact H3|apply (chk_nil _ C)].
Qed.

End NoClosingChecks.

Section NoVisaToken.
Context {U : UnicodeDB} {R : RandomSource}.
Local Open Scope N_scope.

Lemma plain_without_closing cfg visa b g :
  generated_facts default_config b -> log_ok cfg visa b g ->
  section_removed g = Some DropLast -> misnamed g = None ->
  plain (body_of visa b g) = true.
Proof.
  apply (chk_body_without_closing plain plain_closed).
  - vm_compute. reflexivity.
  - repeat split; vm_compute; reflexivity.
  - intros n _. apply plain_str_of_int.
  - intros i. apply (chk_app _ plain_closed); [reflexivity|].
    apply plain_str_of_int.
Qed.

Lemma no_pair_without_closing x y cfg visa b g :
  ascii_digit x = false -> x <> hyphen -> ascii_digit y = false ->
  forallb (pair_clean x y) rough_literals = true ->
  forallb (pair_clean x y) (FIELDS default_config) = true ->
  forallb (pair_clean x y) (VENUE_POOL default_config) = true ->
  forallb (fun f => pair_clean x y (fake_claim f)) fake_awards = true ->
  lacks x (str "Dr. Alex ") = true -> y <> 68 ->
  generated_facts default_config b -> log_ok cfg visa b g ->
  section_removed g = Some DropLast -> misnamed g = None ->
  has_pair x y (body_of visa b g) = false.
Proof.
  intros Hx Hxh Hy Hlit Hf Hv Hk Hn HD Hb Hlog Hs Hm.
  assert (H : pair_clean x y (body_of visa b g) = true).
  { apply (chk_body_without_closing (pair_clean x y) (pair_clean_closed x y))
      with (cfg := cfg); try assumption.
    - repeat split; assumption.
    - intros n Hn0. apply lacks_pair_clean, lacks_str_of_int_nonneg; assumption.
    - intros i. apply lacks_first_pair_clean.
      + apply (chk_app _ (lacks_closed x)); [exact Hn|].
        apply lacks_str_of_int; assumption.
      + change ((68 =? y) = false). apply N.eqb_neq. congruence. }
  unfold pair_clean in H. apply andb_true_iff in H. destruct H as [H _].
  apply negb_true_iff in H. exact H.
Qed.

(** With the closing dropped, a misnamed category is written over the
    evidence: the draft is the intro, after the filler if the style block
    fired, and the sentence that names the wrong category. *)
Lemma body_misnamed_without_closing visa b g w :
  section_removed g = Some DropLast -> misnamed g = Some w ->
  body_of visa b g =
    join (str " ")
      ((if style_weak g then [filler_opening] else []) ++
       [rough_intro b; visa_closing w]) ++
    (if passive g then passive_filler else []).
Proof.
  intros Hs Hm. unfold body_of, chunks_of, surviving_chunks, styled_chunks.
  rewrite Hs, Hm. destruct (style_weak g); reflexivity.
Qed.

(** C3, what the code does. With [P_SECTION_MISS] at 1.0 the section block
    removes a segment in every run. When it is the closing that goes and the
    misnaming block does not fire, the draft does not depend on the visa
    category, and for facts made by [mk_beneficiary] it contains none of the
    configured categories. When the misnaming block fires, its sentence is
    written over the last segment left, which is the evidence: the draft is
    the intro and the sentence naming a wrong category, and the category is
    in it when it is a solid word shorter than the width. *)
Theorem forced_section_miss (cfg : Config) (visa : text) (r : Person)
  (b : BeneficiaryFacts) (s : rng) (t : text) (g : GateLog) (s' : rng) :
  mk_rough_draft_log cfg visa r b s = Ok ((t, g), s') ->
  P_SECTION_MISS cfg = 1%Q ->
  section_removed g <> None /\
  (section_removed g = Some DropLast ->
   match misnamed g with
   | None =>
       (forall visa', t = fill 110 (body_of visa' b g)) /\
       (generated_facts default_config b ->
        forall v, In v (VISA_TYPES default_config) -> ~ substr v t)
   | Some w =>
       In w (VISA_TYPES cfg) /\ w <> visa /\
       t = fill 110
             (join (str " ")
                ((if style_weak g then [filler_opening] else []) ++
                 [rough_intro b; visa_closing w]) ++
              (if passive g then passive_filler else [])) /\
       (w <> [] -> solid w = true -> (length w < 110)%nat -> substr w t)
   end).
Proof.
  intros Hrun HP. split.
  - destruct (mk_rough_draft_log_section cfg _ _ _ _ _ _ _ Hrun)
      as (c & s6 & c' & s7 & E).
    exact (gate_section_miss_forced cfg _ _ _ _ _ HP E).
  - intros Hs. apply mk_rough_draft_log_run in Hrun.
    destruct Hrun as [-> Hlog].
    destruct (misnamed g) as [w|] eqn:Hm.
    { destruct Hlog as (_ & _ & _ & Hw). destruct (Hw w Hm) as [Hin Hne].
      split; [exact Hin|]. split; [exact Hne|].
      rewrite (body_misnamed_without_closing visa b g w Hs Hm).
      split; [reflexivity|]. intros Hw0 Hsol Hlen.
      assert (E : exists P S,
        join (str " ")
          ((if style_weak g then [filler_opening] else []) ++
           [rough_intro b; visa_closing w]) ++
        (if passive g then passive_filler else []) = P ++ w ++ S /\
        ws_end P = true /\ ws_start S = true).
      { unfold visa_closing.
        exists (join (str " ")
                  ((if style_weak g then [filler_opening] else []) ++
                   [rough_intro b]) ++
                str " " ++ str "I believe they are qualified for the "),
               (str " visa." ++ (if passive g then passive_filler else [])).
        split; [|split].
        - destruct (style_weak g); cbn [app join]; rewrite <- !app_assoc;
            reflexivity.
        - rewrite !app_assoc. rewrite ws_end_app by discriminate. reflexivity.
        - reflexivity. }
      destruct E as (P & S & -> & HP1 & HS1).
      apply fill_keeps_word; try assumption; lia. }
    split.
    + intros visa'. f_equal. apply body_without_closing; assumption.
    + intros Hb v Hv.
      pose proof (plain_without_closing cfg visa b g Hb Hlog Hs Hm) as Hp.
      assert (Hpair : forall x y,
        ascii_digit x = false -> x <> hyphen -> ascii_digit y = false ->
        forallb (pair_clean x y) rough_literals = true ->
        forallb (pair_clean x y) (FIELDS default_config) = true ->
        forallb (pair_clean x y) (VENUE_POOL default_config) = true ->
        forallb (fun f => pair_clean x y (fake_claim f)) fake_awards = true ->
        lacks x (str "Dr. Alex ") = true -> y <> 68 ->
        x <> newline -> y <> newline ->
        has_pair x y v = true ->
        ~ substr v (fill 110 (body_of visa b g))).
      { intros x y Hx Hxh Hy H1 H2 H3 H4 H5 H6 Hxn Hyn Hin.
        apply (no_pair_not_substr x y); [exact Hin|].
        apply fill_no_pair; [exact Hp|exact Hxn|exact Hyn|].
        apply (no_pair_without_closing x y cfg visa b g); assumption. }
      destruct Hv as [<-|[<-|[<-|[]]]].
      * apply (Hpair 69 66); try reflexivity; discriminate.
      * apply (Hpair 79 45); try reflexivity; discriminate.
      * apply (Hpair 73 87); try reflexivity; discriminate.
Qed.

End NoVisaToken.

(** The run in which the two blocks meet: with [P_SECTION_MISS] at 1.0 and
    the closing dropped, the misnaming block writes a visa category over the
    evidence segment. *)
Lemma dropped_closing_misnamed :
  P_SECTION_MISS config_section_miss = 1%Q /\
  match @mk_rough_draft_log ascii_only Tape.source config_section_miss
          (str "EB-1A") recommender_1 facts_1
          [999; 999; 999; 999; 999; 0; 999; 0; 0; 999]%N with
  | Ok (t, g, _) =>
      section_removed g = Some DropLast /\ misnamed g = Some (str "O-1A") /\
      mem_text (str "O-1A") (VISA_TYPES config_section_miss) = true /\
      contains (str "O-1A") t = true
  | Raise _ => False
  end.
Proof.
  split; [reflexivity|]. vm_compute. repeat split; reflexivity.
Qed.

Lemma forced_section_miss_witness :
  exists t g s',
    @mk_rough_draft_log ascii_only Tape.source config_section_miss
      (str "EB-1A") recommender_1 facts_1
      [999; 999; 999; 999; 999; 0; 999; 0; 0; 999]%N = Ok ((t, g), s') /\
    section_removed g = Some DropLast /\
    misnamed g = Some (str "O-1A") /\
    t = @fill ascii_only 110
          (str "I am writing to recommend Dr. Alex 1. Dr. Alex 1 is a talented researcher in NLP. I believe they are qualified for the O-1A visa.") /\
    substr (str "O-1A") t.
Proof.
  eexists _, _, _. split; [lazy; reflexivity|].
  split; [reflexivity|]. split; [reflexivity|].
  edestruct (@forced_section_miss ascii_only Tape.source config_section_miss
               (str "EB-1A") recommender_1 facts_1
               [999; 999; 999; 999; 999; 0; 999; 0; 0; 999]%N) as [_ H];
    [vm_compute; reflexivity|reflexivity|].
  specialize (H eq_refl). cbn [misnamed] in H.
  destruct H as (_ & _ & Ht & Hw).
  split; [exact Ht|].
  apply Hw; [discriminate|reflexivity|cbn; lia].
Defined.

(** ** Real awards and the rough draft *)

Section RealAwards.
Context {U : UnicodeDB} {R : RandomSource}.
Local Open Scope N_scope.

(** The rough draft reads of the awards only whether there are any. *)
Lemma mk_rough_draft_ignores_awards cfg visa r b awards s :
  (key_awards b = [] <-> awards = []) ->
  mk_rough_draft cfg visa r (with_awards b awards) s =
  mk_rough_draft cfg visa r b s.
Proof.
  intros Hiff. unfold mk_rough_draft.
  assert (Hg : forall chunks,
    gate_omit_key_fact cfg (with_awards b awards) chunks =
    gate_omit_key_fact cfg b chunks).
  { intros chunks. unfold gate_omit_key_fact. cbn [with_awards key_awards].
    destruct (key_awards b) as [|a l], awards as [|a' l']; try reflexivity.
    - destruct Hiff as [Hi _]. specialize (Hi eq_refl). discriminate.
    - destruct Hiff as [_ Hi]. specialize (Hi eq_refl). discriminate. }
  assert (Hl : mk_rough_draft_log cfg visa r (with_awards b awards) s =
               mk_rough_draft_log cfg visa r b s).
  { unfold mk_rough_draft_log.
    change (rough_intro (with_awards b awards)) with (rough_intro b).
    change (rough_evidence (with_awards b awards)) with (rough_evidence b).
    unfold bind at 1. symmetry. unfold bind at 1. symmetry.
    destruct (gate_weak_visa cfg visa
                [rough_intro b; rough_evidence b; rough_closing] s)
      as [[[c1 g1] s1]|e]; [|reflexivity].
    unfold bind at 1. symmetry. unfold bind at 1. symmetry.
    rewrite Hg. reflexivity. }
  unfold bind. rewrite Hl. reflexivity.
Qed.

Lemma chk_generated_body chk :
  closed_check chk ->
  forallb chk rough_literals = true ->
  forallb chk (FIELDS default_config) = true ->
  forallb chk (VENUE_POOL default_config) = true ->
  forallb (fun f => chk (fake_claim f)) fake_awards = true ->
  forallb (fun w => chk (visa_closing w)) (VISA_TYPES default_config) = true ->
  (forall n, (0 <= n)%Z -> chk (str_of_int n) = true) ->
  (forall i, chk (str "Dr. Alex " ++ str_of_int i) = true) ->
  forall visa b g,
  generated_facts default_config b ->
  In visa (VISA_TYPES default_config) ->
  log_ok default_config visa b g ->
  chk (body_of visa b g) = true.
Proof.
  intros C Hlit Pf Pv Pk Pw numbers names visa b g
    ((i & Hname) & Hfield & Hpubs & _ & _ & Hve) Hv Hlog.
  apply (chk_body_of chk C Hlit default_config); try assumption.
  - rewrite Hname. apply names.
  - exact (pool_check_in chk _ _ Pf Hfield).
  - exact (pool_check chk _ _ Pv Hve).
  - apply numbers. cbn in Hpubs. lia.
  - intros w Hw. apply numbers. lia.
  - exact (pool_check_in _ _ _ Pw Hv).
  - intros w Hw. destruct Hlog as (_ & _ & _ & Hm).
    exact (pool_check_in _ _ _ Pw (proj1 (Hm w Hw))).
Qed.

Lemma plain_generated_body visa b g :
  generated_facts default_config b ->
  In visa (VISA_TYPES default_config) ->
  log_ok default_config visa b g ->
  plain (body_of visa b g) = true.
Proof.
  apply (chk_generated_body plain plain_closed); try (vm_compute; reflexivity).
  - intros n _. apply plain_str_of_int.
  - intros i. apply (chk_app _ plain_closed); [reflexivity|].
    apply plain_str_of_int.
Qed.

Lemma no_award_pair_in_body x y visa b g :
  In (x, y) award_pairs ->
  generated_facts default_config b ->
  In visa (VISA_TYPES default_config) ->
  log_ok default_config visa b g ->
  has_pair x y (body_of visa b g) = false.
Proof.
  intros Hin Hb Hv Hlog.
  assert (H : pair_clean x y (body_of visa b g) = true).
  { apply (chk_generated_body (pair_clean x y) (pair_clean_closed x y));
      try assumption;
      try (destruct Hin as [E|[E|[E|[E|[]]]]]; inversion E; subst;
           vm_compute; reflexivity).
    - intros n Hn. apply lacks_pair_clean, lacks_str_of_int_nonneg; [|exact Hn].
      destruct Hin as [E|[E|[E|[E|[]]]]]; inversion E; reflexivity.
    - intros i. apply (chk_app _ (pair_clean_closed x y)).
      + destruct Hin as [E|[E|[E|[E|[]]]]]; inversion E; reflexivity.
      + apply lacks_pair_clean, lacks_str_of_int;
          destruct Hin as [E|[E|[E|[E|[]]]]]; inversion E;
          first [reflexivity|discriminate]. }
  unfold pair_clean in H. apply andb_true_iff in H. destruct H as [H _].
  apply negb_true_iff in H. exact H.
Qed.

Lemma award_has_pair a :
  In a (AWARD_POOL default_config) ->
  exists x y, In (x, y) award_pairs /\ has_pair x y a = true.
Proof.
  intros Hin. cbn in Hin.
  destruct Hin as [<-|[<-|[<-|[<-|[<-|[<-|[<-|[<-|[<-|[]]]]]]]]]].
  - exists 80, 97. split; [cbn; auto|reflexivity].
  - exists 70, 101. split; [cbn; auto|reflexivity].
  - exists 70, 101. split; [cbn; auto|reflexivity].
  - exists 65, 119. split; [cbn; auto|reflexivity].
  - exists 65, 119. split; [cbn; auto|reflexivity].
  - exists 70, 101. split; [cbn; auto|reflexivity].
  - exists 80, 97. split; [cbn; auto|reflexivity].
  - exists 80, 97. split; [cbn; auto|reflexivity].
  - exists 83, 112. split; [cbn; auto|reflexivity].
Qed.

(** C9, as the code has it. The fabricated pool shares no entry with the real
    award pool; the rough draft reads of [key_awards] only whether it is
    empty, so no award gets into the draft from there; and for facts made by
    [mk_beneficiary] and a configured visa category, no entry of the real
    award pool is in the draft, whatever the eight gates decide. *)
Theorem rough_draft_has_no_real_award (visa : text) (r : Person)
  (b : BeneficiaryFacts) :
  (forall f, In f fake_awards -> ~ In f (AWARD_POOL default_config)) /\
  (forall cfg awards s,
     (key_awards b = [] <-> awards = []) ->
     mk_rough_draft cfg visa r (with_awards b awards) s =
     mk_rough_draft cfg visa r b s) /\
  (generated_facts default_config b ->
   In visa (VISA_TYPES default_config) ->
   forall s t s', mk_rough_draft default_config visa r b s = Ok (t, s') ->
   forall a, In a (AWARD_POOL default_config) -> ~ substr a t).
Proof.
  split; [|split].
  - intros f Hf Hin. apply mem_text_In in Hin.
    cbn in Hf. destruct Hf as [<-|[<-|[<-|[]]]]; vm_compute in Hin;
      discriminate.
  - intros cfg awards s Hiff. apply mk_rough_draft_ignores_awards, Hiff.
  - intros Hb Hv s t s' Hrun a Ha. apply mk_rough_draft_run in Hrun.
    destruct Hrun as (g & -> & Hlog).
    destruct (award_has_pair a Ha) as (x & y & Hxy & Hp).
    apply (no_pair_not_substr x y); [exact Hp|].
    apply fill_no_pair.
    + apply plain_generated_body; assumption.
    + destruct Hxy as [E|[E|[E|[E|[]]]]]; inversion E; discriminate.
    + destruct Hxy as [E|[E|[E|[E|[]]]]]; inversion E; discriminate.
    + apply no_award_pair_in_body; assumption.
Qed.

End RealAwards.

(** C9 as the spec states it fails: a venue that is named like an entry of the
    award pool takes the entry into the rough draft. *)
Lemma award_name_can_occur :
  mem_text (str "ICLR Spotlight") (AWARD_POOL default_config) = true /\
  match @mk_rough_draft ascii_only Tape.source default_config (str "NIW")
          recommender_1 facts_spotlight
          [999; 999; 999; 999; 999; 999; 999; 999]%N with
  | Ok (t, _) => contains (str "ICLR Spotlight") t = true
  | Raise _ => False
  end.
Proof. split; vm_compute; reflexivity. Qed.

Lemma rough_draft_has_no_real_award_witness :
  exists t s',
    @mk_rough_draft ascii_only Tape.source default_config (str "EB-1A")
      recommender_1 facts_1 [999; 0; 0; 0; 3; 1; 0; 2; 0; 999; 999; 0]%N
    = Ok (t, s') /\
    forall a, In a (AWARD_POOL default_config) -> ~ substr a t.
Proof.
  eexists _, _. split; [lazy; reflexivity|].
  destruct (@rough_draft_has_no_real_award ascii_only Tape.source (str "EB-1A")
              recommender_1 facts_1) as (_ & _ & H).
  apply (H facts_1_generated (or_introl eq_refl)
           [999; 0; 0; 0; 3; 1; 0; 2; 0; 999; 999; 0]%N _ []).
  vm_compute. reflexivity.
Defined.

(** ** The recommender, and when the fact synthesizer raises *)

Section Outcomes.
Context {R : RandomSource}.

Lemma choice_empty {A} s : choice (@nil A) s = Raise IndexError.
Proof. exact (choice_spec A [] s). Qed.

Lemma randint_empty a b s : b < a -> randint a b s = Raise ValueError.
Proof.
  intros H. pose proof (randint_spec a b s) as Hs.
  destruct (a <=? b) eqn:E; [apply Z.leb_le in E; lia|exact Hs].
Qed.

(** The conversion of an int to text returns the decimal text within the
    limit and raises [ValueError] beyond it. *)
Lemma format_int_cases n :
  (convertible n = true /\ format_int n = Ok (str_of_int n)) \/
  (convertible n = false /\ format_int n = Raise ValueError).
Proof.
  unfold format_int. destruct (convertible n); [left|right]; split; reflexivity.
Qed.

Lemma convertible_bound n :
  convertible n = true <-> (Z.abs n < 10 ^ int_max_str_digits)%Z.
Proof. unfold convertible. apply Z.ltb_lt. Qed.

(** X1 ([mk_recommender]): for an index [i] within the limit on the
    conversion of ints, the recommender is made exactly when neither the pool
    of organisations nor the pool of titles is empty; it is then named
    Dr. Jordan [i], with an affiliation and a title out of the two pools.
    With an empty pool the call raises [IndexError], the error of
    [random.choice], and no other error is possible. *)
Theorem mk_recommender_outcome (cfg : Config) (i : Z) (s : rng) :
  convertible i = true ->
  match mk_recommender cfg i s with
  | Ok (r, _) =>
      ORG_POOL cfg <> [] /\ TITLE_POOL cfg <> [] /\
      full_name r = str "Dr. Jordan " ++ str_of_int i /\
      In (affiliation r) (ORG_POOL cfg) /\ In (title r) (TITLE_POOL cfg)
  | Raise e => e = IndexError /\ (ORG_POOL cfg = [] \/ TITLE_POOL cfg = [])
  end.
Proof.
  intros _. unfold mk_recommender.
  destruct (ORG_POOL cfg) as [|o os] eqn:Eo.
  - unfold bind. rewrite choice_empty. auto.
  - destruct (choice_ok (o :: os) s ltac:(discriminate)) as (x & s1 & E1 & Hx).
    rewrite (bind_ok _ _ _ _ _ E1).
    destruct (TITLE_POOL cfg) as [|t ts] eqn:Et.
    + unfold bind. rewrite choice_empty. auto.
    + destruct (choice_ok (t :: ts) s1 ltac:(discriminate))
        as (y & s2 & E2 & Hy).
      rewrite (bind_ok _ _ _ _ _ E2). unfold ret. cbn [full_name affiliation title].
      repeat split; try discriminate; assumption.
Qed.

(** X2 ([mk_beneficiary]): the three ways a call can end, for an index [i]
    within the limit on the conversion of ints. It raises [IndexError]
    exactly when no field is configured; with a field list it raises
    [ValueError] exactly when the publication range or the citation range is
    empty (its upper end below its lower end); otherwise it returns facts
    named Dr. Alex [i] whose field is a configured one. The award and venue
    pools play no part in this: an empty one is no error. *)
Theorem mk_beneficiary_outcome (cfg : Config) (i : Z) (s : rng) :
  convertible i = true ->
  match mk_beneficiary cfg i s with
  | Ok (b, _) =>
      FIELDS cfg <> [] /\
      fst (PUB_RANGE cfg) <= snd (PUB_RANGE cfg) /\
      fst (CITATION_RANGE cfg) <= snd (CITATION_RANGE cfg) /\
      name b = str "Dr. Alex " ++ str_of_int i /\
      In (field b) (FIELDS cfg)
  | Raise IndexError => FIELDS cfg = []
  | Raise ValueError =>
      FIELDS cfg <> [] /\
      (snd (PUB_RANGE cfg) < fst (PUB_RANGE cfg) \/
       snd (CITATION_RANGE cfg) < fst (CITATION_RANGE cfg))
  end.
Proof.
  intros _. unfold mk_beneficiary.
  destruct (FIELDS cfg) as [|f fs] eqn:Ef.
  { unfold bind. rewrite choice_empty. reflexivity. }
  destruct (choice_ok (f :: fs) s ltac:(discriminate)) as (x & s1 & E1 & Hx).
  rewrite (bind_ok _ _ _ _ _ E1).
  destruct (Z_lt_le_dec (snd (PUB_RANGE cfg)) (fst (PUB_RANGE cfg))) as [Hp|Hp].
  { unfold bind at 1. rewrite (randint_empty _ _ _ Hp).
    split; [discriminate|left; exact Hp]. }
  destruct (randint_ok _ _ s1 Hp) as (p & s2 & E2 & _).
  rewrite (bind_ok _ _ _ _ _ E2).
  destruct (Z_lt_le_dec (snd (CITATION_RANGE cfg)) (fst (CITATION_RANGE cfg)))
    as [Hc|Hc].
  { unfold bind at 1. rewrite (randint_empty _ _ _ Hc).
    split; [discriminate|right; exact Hc]. }
  destruct (randint_ok _ _ s2 Hc) as (c & s3 & E3 & _).
  rewrite (bind_ok _ _ _ _ _ E3).
  destruct (randint_ok 0 2 s3 ltac:(lia)) as (ka & s4 & E4 & Hka).
  rewrite (bind_ok _ _ _ _ _ E4).
  destruct (choice_no_replacement_ok (AWARD_POOL cfg) ka s4 ltac:(lia))
    as (aw & s5 & E5 & _).
  rewrite (bind_ok _ _ _ _ _ E5).
  destruct (randint_ok 1 3 s5 ltac:(lia)) as (kv & s6 & E6 & Hkv).
  rewrite (bind_ok _ _ _ _ _ E6).
  destruct (choice_no_replacement_ok (VENUE_POOL cfg) kv s6 ltac:(lia))
    as (ve & s7 & E7 & _).
  rewrite (bind_ok _ _ _ _ _ E7).
  unfold ret. cbn [name field].
  repeat split; try discriminate; assumption.
Qed.

(** X3 ([maybe_wrong_count]): the call never raises, and the count it returns
    is at least 1 and lies between [max(1, true_val - 20)] and
    [max(1, true_val + 20)]. For a true count of 6 or more it is off by at
    least 5 and at most 20; only below 6 can the floor at 1 bring it nearer
    to the truth. *)
Theorem maybe_wrong_count_bounds (true_val : Z) (s : rng) :
  exists w s', maybe_wrong_count true_val s = Ok (w, s') /\
    1 <= w /\
    Z.max 1 (true_val - 20) <= w <= Z.max 1 (true_val + 20) /\
    (6 <= true_val -> 5 <= Z.abs (w - true_val) <= 20).
Proof.
  unfold maybe_wrong_count.
  destruct (randint_ok 5 20 s ltac:(lia)) as (d & s1 & E1 & Hd).
  rewrite (bind_ok _ _ _ _ _ E1).
  destruct (choice_ok [- d; d] s1 ltac:(discriminate)) as (x & s2 & E2 & Hx).
  rewrite (bind_ok _ _ _ _ _ E2).
  exists (Z.max 1 (true_val + x)), s2. split; [reflexivity|].
  destruct Hx as [<-|[<-|[]]]; lia.
Qed.

End Outcomes.

Lemma mk_recommender_outcome_witness :
  convertible 7 = true /\
  match @mk_recommender Tape.source default_config 7 [2; 3]%N with
  | Ok (r, _) =>
      ORG_POOL default_config <> [] /\ TITLE_POOL default_config <> [] /\
      full_name r = str "Dr. Jordan " ++ str_of_int 7 /\
      In (affiliation r) (ORG_POOL default_config) /\
      In (title r) (TITLE_POOL default_config)
  | Raise e =>
      e = IndexError /\
      (ORG_POOL default_config = [] \/ TITLE_POOL default_config = [])
  end.
Proof.
  assert (H : convertible 7 = true) by (vm_compute; reflexivity).
  split; [exact H|].
  exact (@mk_recommender_outcome Tape.source default_config 7 [2; 3]%N H).
Defined.

Lemma mk_beneficiary_outcome_witness :
  convertible 7 = true /\
  match @mk_beneficiary Tape.source default_config 7 [3; 14; 1200; 1; 4; 2; 0; 5]%N
  with
  | Ok (b, _) =>
      FIELDS default_config <> [] /\
      fst (PUB_RANGE default_config) <= snd (PUB_RANGE default_config) /\
      fst (CITATION_RANGE default_config) <= snd (CITATION_RANGE default_config) /\
      name b = str "Dr. Alex " ++ str_of_int 7 /\
      In (field b) (FIELDS default_config)
  | Raise IndexError => FIELDS default_config = []
  | Raise ValueError =>
      FIELDS default_config <> [] /\
      (snd (PUB_RANGE default_config) < fst (PUB_RANGE default_config) \/
       snd (CITATION_RANGE default_config) < fst (CITATION_RANGE default_config))
  end.
Proof.
  assert (H : convertible 7 = true) by (vm_compute; reflexivity).
  split; [exact H|].
  exact (@mk_beneficiary_outcome Tape.source default_config 7
           [3; 14; 1200; 1; 4; 2; 0; 5]%N H).
Defined.

(** ** The recommender string *)

Lemma comma_split (a : text) : forall (a' b b' : text),
  lacks 44%N a = true -> lacks 44%N a' = true ->
  a ++ str ", " ++ b = a' ++ str ", " ++ b' -> a = a' /\ b = b'.
Proof.
  induction a as [|x a IH]; intros [|y a'] b b' Ha Ha' H.
  - cbn in H. inversion H. split; reflexivity.
  - cbn in H. inversion H. subst y. cbn in Ha'. discriminate.
  - cbn in H. inversion H. subst x. cbn in Ha. discriminate.
  - cbn [app] in H. inversion H. subst y.
    cbn [lacks forallb] in Ha, Ha'.
    apply andb_true_iff in Ha. apply andb_true_iff in Ha'.
    destruct (IH a' b b') as [-> ->]; [apply Ha|apply Ha'|assumption|].
    split; reflexivity.
Qed.

(** X4 ([recommender_to_string]): the string determines the recommender it
    was made from, as long as neither the full names nor the titles have a
    comma in them: two such recommenders with the same string are the same
    person. The affiliation, which comes last, may have commas. *)
Theorem recommender_to_string_injective (r1 r2 : Person) :
  lacks 44%N (full_name r1) = true -> lacks 44%N (title r1) = true ->
  lacks 44%N (full_name r2) = true -> lacks 44%N (title r2) = true ->
  recommender_to_string r1 = recommender_to_string r2 -> r1 = r2.
Proof.
  intros Hn1 Ht1 Hn2 Ht2 H. unfold recommender_to_string in H.
  destruct r1 as [n1 a1 t1], r2 as [n2 a2 t2]. cbn [full_name title affiliation] in *.
  apply comma_split in H; [|assumption|assumption].
  destruct H as [-> H].
  apply comma_split in H; [|assumption|assumption].
  destruct H as [-> ->]. reflexivity.
Qed.

Lemma recommender_to_string_injective_witness :
  recommender_to_string recommender_1 =
  recommender_to_string
    {| full_name := str "Dr. Jordan 1"; affiliation := str "MIT";
       title := str "Professor" |} /\
  recommender_1 =
    {| full_name := str "Dr. Jordan 1"; affiliation := str "MIT";
       title := str "Professor" |}.
Proof.
  split; [reflexivity|].
  apply (recommender_to_string_injective recommender_1
           {| full_name := str "Dr. Jordan 1"; affiliation := str "MIT";
              title := str "Professor" |}); reflexivity.
Defined.

(** ** When the rough draft raises *)

Section RoughOutcome.
Context {U : UnicodeDB} {R : RandomSource}.
Variable cfg : Config.

Lemma filter_nil_all (visa : text) (l : list text) :
  filter (fun v => negb (text_eqb v visa)) l = [] ->
  forall w, In w l -> w = visa.
Proof.
  intros Hf w Hw. destruct (text_eqb w visa) eqn:E.
  - apply text_eqb_eq. exact E.
  - assert (Hin : In w (filter (fun v => negb (text_eqb v visa)) l)).
    { apply filter_In. split; [exact Hw|]. rewrite E. reflexivity. }
    rewrite Hf in Hin. contradiction.
Qed.

(** The misnaming block raises only out of [random.choice], on the empty list
    of other categories. *)
Lemma gate_misname_raises visa chunks s e :
  chunks <> [] ->
  gate_misname cfg visa chunks s = Raise e ->
  e = IndexError /\ forall w, In w (VISA_TYPES cfg) -> w = visa.
Proof.
  intros Hc H.
  destruct (filter (fun v => negb (text_eqb v visa)) (VISA_TYPES cfg))
    as [|x l] eqn:Ef.
  - split; [|apply filter_nil_all; exact Ef].
    unfold gate_misname in H. rewrite Ef in H. unfold bind at 1 in H.
    unfold random_ in H. destruct (random s) as [u s1].
    destruct (float_lt u float_0_08).
    + unfold bind in H. rewrite choice_empty in H. inversion H. reflexivity.
    + unfold ret in H. discriminate.
  - exfalso.
    assert (Hw : exists w, In w (VISA_TYPES cfg) /\ w <> visa).
    { exists x. assert (Hin : In x (x :: l)) by (left; reflexivity).
      rewrite <- Ef in Hin. apply filter_In in Hin. destruct Hin as [Hin Hx].
      split; [exact Hin|]. intros ->.
      assert (Ht : text_eqb visa visa = true) by (apply text_eqb_eq; reflexivity).
      rewrite Ht in Hx. discriminate. }
    destruct (gate_misname_ok cfg visa chunks s Hc Hw) as (c & o & s' & E).
    rewrite E in H. discriminate.
Qed.

(** X5 ([mk_rough_draft]): the only error of the rough draft, for a
    publication count that stays within the limit on the conversion of ints,
    also when 20 is added to it as the largest wrong count. A run raises
    nothing but [IndexError], and only when the configuration has no category
    other than the one of the letter, so that the misnaming block finds nothing
    to choose from; with two different categories configured every run
    returns. A run that returns and has misnamed the category has named a
    configured one that differs from the category of the letter. *)
Theorem mk_rough_draft_outcome (visa : text) (r : Person) (b : BeneficiaryFacts)
  (s : rng) :
  convertible (pubs b) = true -> convertible (pubs b + 20) = true ->
  match mk_rough_draft cfg visa r b s with
  | Ok (t, s') =>
      exists g, mk_rough_draft_log cfg visa r b s = Ok (t, g, s') /\
        forall w, misnamed g = Some w -> In w (VISA_TYPES cfg) /\ w <> visa
  | Raise e => e = IndexError /\ forall w, In w (VISA_TYPES cfg) -> w = visa
  end.
Proof.
  intros _ _. unfold mk_rough_draft, bind.
  destruct (mk_rough_draft_log cfg visa r b s) as [[[t g] s']|e] eqn:E.
  - unfold ret. cbn [fst]. exists g. split; [reflexivity|].
    apply mk_rough_draft_log_run in E. destruct E as [_ (_ & _ & _ & H)].
    exact H.
  - unfold mk_rough_draft_log in E.
    destruct (gate_weak_visa_ok cfg visa (rough_intro b) (rough_evidence b)
                rough_closing s) as (c1 & g1 & s1 & E1 & (x1 & y1 & z1 & ->)).
    rewrite (bind_ok _ _ _ _ _ E1) in E.
    destruct (gate_omit_key_fact_ok cfg b x1 y1 z1 s1)
      as (c2 & g2 & s2 & E2 & (x2 & y2 & z2 & ->)).
    rewrite (bind_ok _ _ _ _ _ E2) in E.
    destruct (gate_wrong_count_ok cfg b x2 y2 z2 s2)
      as (c3 & g3 & s3 & E3 & (x3 & y3 & z3 & ->)).
    rewrite (bind_ok _ _ _ _ _ E3) in E.
    destruct (gate_hallucination_ok cfg x3 y3 z3 s3)
      as (c4 & g4 & s4 & E4 & (x4 & y4 & z4 & ->)).
    rewrite (bind_ok _ _ _ _ _ E4) in E.
    destruct (gate_style_weak_ok cfg [x4; y4; z4] s4)
      as (c5 & g5 & s5 & E5 & H5).
    rewrite (bind_ok _ _ _ _ _ E5) in E.
    destruct (gate_section_miss_ok cfg c5 s5) as (c6 & g6 & s6 & E6 & H6).
    { rewrite H5. destruct g5; cbn; lia. }
    rewrite (bind_ok _ _ _ _ _ E6) in E.
    destruct (gate_misname cfg visa c6 s6) as [[[c7 g7] s7]|e7] eqn:E7.
    + rewrite (bind_ok _ _ _ _ _ E7) in E.
      destruct (gate_passive_ok (join (str " ") c7) s7) as (bd & g8 & s8 & E8).
      rewrite (bind_ok _ _ _ _ _ E8) in E. unfold ret in E. discriminate.
    + unfold bind at 1 in E. rewrite E7 in E. inversion E. subst e7.
      apply (gate_misname_raises visa c6 s6 e H6 E7).
Qed.

End RoughOutcome.

Lemma mk_rough_draft_outcome_witness :
  convertible (pubs facts_1) = true /\ convertible (pubs facts_1 + 20) = true /\
  match @mk_rough_draft ascii_only Tape.source default_config (str "EB-1A")
          recommender_1 facts_1 [999; 999; 0; 7; 1; 999; 999; 999; 0; 1; 999]%N
  with
  | Ok (t, s') =>
      exists g,
        @mk_rough_draft_log ascii_only Tape.source default_config (str "EB-1A")
          recommender_1 facts_1 [999; 999; 0; 7; 1; 999; 999; 999; 0; 1; 999]%N
        = Ok (t, g, s') /\
        forall w, misnamed g = Some w ->
          In w (VISA_TYPES default_config) /\ w <> str "EB-1A"
  | Raise e =>
      e = IndexError /\
      forall w, In w (VISA_TYPES default_config) -> w = str "EB-1A"
  end.
Proof.
  assert (H1 : convertible (pubs facts_1) = true) by (vm_compute; reflexivity).
  assert (H2 : convertible (pubs facts_1 + 20) = true)
    by (vm_compute; reflexivity).
  split; [exact H1|]. split; [exact H2|].
  exact (@mk_rough_draft_outcome ascii_only Tape.source default_config
           (str "EB-1A") recommender_1 facts_1
           [999; 999; 0; 7; 1; 999; 999; 999; 0; 1; 999]%N H1 H2).
Defined.

(** With a single category configured, the run in which the misnaming block
    fires ends in [IndexError]. *)
Lemma single_category_raises :
  @mk_rough_draft ascii_only Tape.source
    (with_lists default_config [str "NIW"] (FIELDS default_config)
       (ORG_POOL default_config) (TITLE_POOL default_config))
    (str "NIW") recommender_1 facts_1 [999; 999; 999; 999; 999; 999; 0]%N
  = Raise IndexError.
Proof. vm_compute. reflexivity. Qed.

(** ** textwrap: no line is longer than the width *)

Section LineWidth.
Context {U : UnicodeDB}.
Local Open Scope nat_scope.

Lemma take_fitting_bound width : forall chunks n line rest,
  n <= width -> take_fitting width n chunks = (line, rest) ->
  n + total_len line <= width.
Proof.
  induction chunks as [|c cs IH]; intros n line rest Hn H.
  - cbn in H. inversion H. subst. cbn. lia.
  - cbn [take_fitting] in H.
    destruct (n + length c <=? width) eqn:E.
    + apply Nat.leb_le in E.
      destruct (take_fitting width (n + length c) cs) as [line' rest'] eqn:Et.
      inversion H. subst. apply IH in Et; [|exact E].
      rewrite total_len_cons. lia.
    + inversion H. subst. cbn. lia.
Qed.

Lemma rfind_hyphen_lt : forall chunk stop i,
  rfind_hyphen chunk stop = Some i -> i < stop.
Proof.
  induction chunk as [|c chunk IH]; intros [|stop] i H; try discriminate.
  cbn [rfind_hyphen] in H.
  destruct (rfind_hyphen chunk stop) as [j|] eqn:E.
  - inversion H. subst. apply IH in E. lia.
  - destruct (c =? hyphen)%N; inversion H. lia.
Qed.

Lemma handle_long_word_bound chunk n width piece left :
  n <= width -> handle_long_word chunk n width = (piece, left) ->
  n + length piece <= width.
Proof.
  intros Hn H. unfold handle_long_word in H. inversion H as [[Hp Hl]].
  clear H Hl Hp. rewrite length_firstn.
  assert (He : forall e, e <= width - n ->
            n + Nat.min e (length chunk) <= width) by (intros; lia).
  apply He.
  destruct (width - n <? length chunk); [|lia].
  destruct (rfind_hyphen chunk (width - n)) as [[|h]|] eqn:Er; try lia.
  apply rfind_hyphen_lt in Er.
  destruct (existsb _ _); lia.
Qed.

Lemma wrap_round_width width started chunks l chunks' :
  wrap_round width started chunks = (Some l, chunks') -> length l <= width.
Proof.
  unfold wrap_round.
  set (chunks1 := match chunks with
                  | c :: cs => if blank c && started then cs else chunks
                  | [] => chunks
                  end).
  clearbody chunks1.
  destruct (take_fitting width 0 chunks1) as [cur_line chunks2] eqn:E.
  apply take_fitting_bound in E; [|lia]. cbn [Nat.add] in E.
  assert (H2 : forall cl ch3, total_len cl <= width ->
    match drop_trailing_blank cl with
    | [] => (None, ch3)
    | t :: l0 => (Some (concat (t :: l0)), ch3)
    end = (Some l, chunks') -> length l <= width).
  { intros cl ch3 Hc H.
    destruct (drop_trailing_blank_concat cl) as (m & Hm).
    unfold total_len in Hc. rewrite Hm, length_app in Hc.
    destruct (drop_trailing_blank cl); inversion H; subst.
    eapply Nat.le_trans; [|exact Hc]. apply Nat.le_add_r. }
  destruct chunks2 as [|c cs].
  - apply H2. exact E.
  - destruct (width <? length c).
    + destruct (handle_long_word c (total_len cur_line) width)
        as [piece left] eqn:Eh.
      apply handle_long_word_bound in Eh; [|exact E]. apply H2.
      rewrite total_len_app, total_len_cons. cbn. lia.
    + apply H2. exact E.
Qed.

Lemma wrap_loop_width width : forall fuel started chunks,
  Forall (fun l => length l <= width) (wrap_loop fuel width started chunks).
Proof.
  induction fuel as [|fuel IH]; intros started chunks.
  - destruct chunks; constructor.
  - destruct chunks as [|c cs]; [constructor|].
    cbn [wrap_loop].
    destruct (wrap_round width started (c :: cs)) as [[l|] ch] eqn:E.
    + constructor; [|apply IH]. apply wrap_round_width in E. exact E.
    + apply IH.
Qed.

(** The pieces of a text between its newlines. *)
Lemma lines_of_nonempty (t : text) : lines_of t <> [].
Proof.
  induction t as [|c t IH]; cbn [lines_of]; [discriminate|].
  destruct (c =? newline)%N; [discriminate|].
  destruct (lines_of t); discriminate.
Qed.

Lemma lines_of_app_newline (a b : text) :
  lines_of (a ++ newline :: b) = lines_of a ++ lines_of b.
Proof.
  induction a as [|c a IH]; [reflexivity|].
  cbn [app lines_of]. rewrite IH.
  destruct (c =? newline)%N; [reflexivity|].
  pose proof (lines_of_nonempty a) as Hne.
  destruct (lines_of a); [contradiction|reflexivity].
Qed.

Lemma lines_of_short (t : text) :
  Forall (fun l => length l <= length t) (lines_of t).
Proof.
  induction t as [|c t IH]; cbn [lines_of].
  - constructor; [cbn; lia|constructor].
  - assert (Hs : Forall (fun l : text => length l <= length (c :: t))
                   (lines_of t)).
    { eapply Forall_impl; [|exact IH]. cbn. intros; lia. }
    destruct (c =? newline)%N.
    + constructor; [cbn; lia|exact Hs].
    + destruct (lines_of t) as [|l ls].
      * constructor; [cbn; lia|constructor].
      * inversion IH; subst. inversion Hs; subst.
        constructor; [cbn; lia|assumption].
Qed.

Lemma lines_of_line (l : text) :
  lacks newline l = true -> lines_of l = [l].
Proof.
  induction l as [|c l IH]; [reflexivity|].
  cbn [lacks forallb]. intros H. apply andb_true_iff in H.
  destruct H as [Hc Hl]. cbn [lines_of].
  destruct (c =? newline)%N; [discriminate|].
  rewrite (IH Hl). reflexivity.
Qed.

Lemma lines_of_join (ls : list text) :
  ls <> [] -> Forall (fun l => lacks newline l = true) ls ->
  lines_of (join [newline] ls) = ls.
Proof.
  induction ls as [|l ls IH]; [contradiction|].
  intros _ H. inversion H as [|? ? Hl Hls]; subst.
  destruct ls as [|l' ls].
  - cbn [join]. apply lines_of_line. exact Hl.
  - change (join [newline] (l :: l' :: ls))
      with (l ++ newline :: join [newline] (l' :: ls)).
    rewrite lines_of_app_newline, (lines_of_line l Hl), IH;
      [reflexivity|discriminate|exact Hls].
Qed.

Lemma lines_of_width width (ls : list text) :
  Forall (fun l => length l <= width) ls ->
  Forall (fun l => length l <= width) (lines_of (join [newline] ls)).
Proof.
  induction ls as [|l ls IH]; intros H.
  - cbn. constructor; [cbn; lia|constructor].
  - inversion H as [|? ? Hl Hls]; subst.
    assert (Hone : Forall (fun x : text => length x <= width) (lines_of l)).
    { eapply Forall_impl; [|apply lines_of_short]. cbn. intros; lia. }
    destruct ls as [|l' ls]; [exact Hone|].
    change (join [newline] (l :: l' :: ls))
      with (l ++ newline :: join [newline] (l' :: ls)).
    rewrite lines_of_app_newline. apply Forall_app. split; [exact Hone|].
    apply IH. exact Hls.
Qed.

(** No line of [fill] is longer than the width. *)
Lemma fill_line_width width t :
  Forall (fun l => length l <= width) (lines_of (fill width t)).
Proof.
  unfold fill. apply lines_of_width. unfold wrap, wrap_chunks.
  apply wrap_loop_width.
Qed.

End LineWidth.

(** ** textwrap: the lines have no newline and are not empty *)

Section LineShape.
Context {U : UnicodeDB}.

Lemma munge_lacks_newline t : lacks newline (munge_whitespace t) = true.
Proof.
  unfold munge_whitespace. generalize (expandtabs_from 0 t). intros x.
  induction x as [|c x IH]; [reflexivity|].
  cbn [map lacks forallb]. apply andb_true_iff. split; [|exact IH].
  unfold to_space. destruct (is_ws c) eqn:E; [reflexivity|].
  destruct (c =? newline)%N eqn:En; [|reflexivity].
  apply N.eqb_eq in En. subst c. discriminate.
Qed.

Lemma wrap_line_lacks_newline width t l :
  In l (wrap width t) -> lacks newline l = true.
Proof.
  intros H. apply wrap_line_substr in H.
  apply (lacks_substr _ _ _ H). apply munge_lacks_newline.
Qed.

Lemma concat_nonempty (cl : list text) x :
  In x cl -> x <> [] -> concat cl <> [].
Proof.
  intros Hin Hx Hc. apply in_split in Hin. destruct Hin as (a & b & ->).
  rewrite concat_app in Hc. cbn [concat] in Hc.
  apply app_eq_nil in Hc. destruct Hc as [_ Hc].
  apply app_eq_nil in Hc. destruct Hc as [Hc _]. contradiction.
Qed.

Lemma drop_trailing_blank_nonempty (cl : list text) :
  (forall pre c, cl = pre ++ [c] -> Forall (fun x => x <> []) pre) ->
  forall t l0, drop_trailing_blank cl = t :: l0 -> concat (t :: l0) <> [].
Proof.
  intros Hpre t l0 H. unfold drop_trailing_blank in H.
  destruct (rev cl) as [|c more] eqn:E.
  - rewrite H in E. cbn [rev] in E. apply app_eq_nil in E.
    destruct E as [_ E]. discriminate.
  - assert (Hcl : cl = rev more ++ [c]).
    { rewrite <- (rev_involutive cl), E. reflexivity. }
    specialize (Hpre _ _ Hcl).
    destruct (blank c) eqn:Eb.
    + rewrite H in Hpre. inversion Hpre; subst.
      apply (concat_nonempty _ t); [left; reflexivity|assumption].
    + rewrite <- H. apply (concat_nonempty _ c).
      * rewrite Hcl. apply in_or_app. right. left. reflexivity.
      * intros ->. discriminate.
Qed.

Lemma wrap_round_nonempty width started (chunks : list text) l chunks' :
  Forall (fun c => c <> []) chunks ->
  wrap_round width started chunks = (Some l, chunks') -> l <> [].
Proof.
  intros Hne. unfold wrap_round.
  set (chunks1 := match chunks with
                  | c :: cs => if blank c && started then cs else chunks
                  | [] => chunks
                  end).
  assert (H1 : Forall (fun c : text => c <> []) chunks1).
  { subst chunks1. destruct chunks as [|c cs]; [exact Hne|].
    destruct (blank c && started); [inversion Hne; assumption|exact Hne]. }
  clearbody chunks1.
  destruct (take_fitting width 0 chunks1) as [cur_line chunks2] eqn:E.
  apply take_fitting_app in E. subst chunks1.
  apply Forall_app in H1. destruct H1 as [Hl _].
  assert (H2 : forall cl ch3,
    (forall pre c, cl = pre ++ [c] -> Forall (fun x : text => x <> []) pre) ->
    match drop_trailing_blank cl with
    | [] => (None, ch3)
    | t :: l0 => (Some (concat (t :: l0)), ch3)
    end = (Some l, chunks') -> l <> []).
  { intros cl ch3 Hc H.
    pose proof (drop_trailing_blank_nonempty cl Hc) as Hd.
    destruct (drop_trailing_blank cl) as [|t l0]; inversion H; subst.
    apply Hd. reflexivity. }
  assert (Hcur : forall pre c, cur_line = pre ++ [c] ->
            Forall (fun x : text => x <> []) pre).
  { intros pre c ->. apply Forall_app in Hl. apply Hl. }
  destruct chunks2 as [|c cs].
  - apply H2. exact Hcur.
  - destruct (width <? length c)%nat.
    + destruct (handle_long_word c (total_len cur_line) width)
        as [piece left] eqn:Eh.
      apply H2. intros pre x Hx. apply app_inj_tail in Hx.
      destruct Hx as [<- _]. exact Hl.
    + apply H2. exact Hcur.
Qed.

Lemma wrap_loop_nonempty width : (1 <= width)%nat ->
  forall fuel started chunks,
  Forall (fun c => c <> []) chunks ->
  Forall (fun l => l <> []) (wrap_loop fuel width started chunks).
Proof.
  intros Hw. induction fuel as [|fuel IH]; intros started chunks Hne.
  - destruct chunks; constructor.
  - destruct chunks as [|c cs]; [constructor|].
    cbn [wrap_loop].
    destruct (wrap_round width started (c :: cs)) as [ol ch] eqn:E.
    pose proof (wrap_round_progress width started (c :: cs) ol ch Hw
                  ltac:(discriminate) Hne E) as [_ Hch].
    destruct ol as [l|].
    + constructor; [|apply IH; exact Hch].
      apply (wrap_round_nonempty _ _ _ _ _ Hne E).
    + apply IH. exact Hch.
Qed.

Lemma wrap_lines_nonempty width t :
  (1 <= width)%nat -> Forall (fun l => l <> []) (wrap width t).
Proof.
  intros Hw. unfold wrap, wrap_chunks. apply wrap_loop_nonempty; [exact Hw|].
  apply split_from_nonempty.
Qed.

(** The lines of a filled text are the lines that [wrap] made, when there is
    one at least. *)
Lemma lines_of_fill width t :
  wrap width t <> [] -> lines_of (fill width t) = wrap width t.
Proof.
  intros Hne. unfold fill. apply lines_of_join; [exact Hne|].
  apply Forall_forall. intros l Hl. apply (wrap_line_lacks_newline width t l Hl).
Qed.

(** A text with a solid word in it is wrapped into one line at least. *)
Lemma wrap_has_line width A W B :
  (1 <= width)%nat -> W <> [] -> solid W = true -> (length W <= width)%nat ->
  ws_end A = true -> ws_start B = true ->
  wrap width (A ++ W ++ B) <> [].
Proof.
  intros Hw Hne Hs Hl Ha Hb Hnil.
  pose proof (fill_keeps_word width A W B Hw Hne Hs Hl Ha Hb) as (x & y & H).
  unfold fill in H. rewrite Hnil in H. cbn [join] in H.
  destruct x; [|discriminate]. destruct W; [contradiction|discriminate].
Qed.

End LineShape.

(** ** The lines of the drafts *)

Lemma lines_of_blank_join (a b : text) :
  lines_of (a ++ [newline; newline] ++ b) = lines_of a ++ [] :: lines_of b.
Proof.
  change (a ++ [newline; newline] ++ b) with (a ++ newline :: ([] ++ newline :: b)).
  rewrite !lines_of_app_newline. reflexivity.
Qed.

Section DraftLines.
Context {U : UnicodeDB}.

Lemma final_draft_lines visa r b :
  lines_of (mk_final_draft visa r b) =
  lines_of (fill 110 (legal_intro visa r b)) ++
  [] :: lines_of (fill 110 (legal_evidence b)) ++
  [] :: lines_of (fill 110 (legal_closing b)).
Proof.
  unfold mk_final_draft, final_paragraphs. cbn [map join].
  rewrite !lines_of_blank_join. reflexivity.
Qed.

(** X6 ([mk_rough_draft]): every rough draft fits its width. No line of the
    text that a run returns is longer than 110 characters, whatever the facts,
    the category and the decisions of the gates are: a word longer than the
    width is broken rather than left to overflow. *)
Theorem rough_draft_line_width {R : RandomSource} (cfg : Config) (visa : text)
  (r : Person) (b : BeneficiaryFacts) (s : rng) (t : text) (s' : rng) :
  mk_rough_draft cfg visa r b s = Ok (t, s') ->
  Forall (fun l => (length l <= 110)%nat) (lines_of t).
Proof.
  intros H. apply mk_rough_draft_run in H. destruct H as (g & -> & _).
  apply fill_line_width.
Qed.

(** X7 ([mk_final_draft], [facts_to_string]): the two other wrapped texts fit
    their widths for every input. No line of a final draft is longer than 110
    characters, the empty lines between its paragraphs included, and no line
    of a facts string is longer than 120. *)
Theorem final_draft_line_width (visa : text) (r : Person) (b : BeneficiaryFacts) :
  Forall (fun l => (length l <= 110)%nat) (lines_of (mk_final_draft visa r b)) /\
  Forall (fun l => (length l <= 120)%nat) (lines_of (facts_to_string b)).
Proof.
  split; [|apply fill_line_width].
  rewrite final_draft_lines.
  repeat (apply Forall_app; split; [apply fill_line_width|]; constructor;
          [cbn; lia|]).
  apply fill_line_width.
Qed.

Lemma legal_intro_first_word visa r b :
  exists rest, legal_intro visa r b =
    [] ++ str "I" ++ (str " am honored to recommend " ++ rest).
Proof. unfold legal_intro. eexists. reflexivity. Qed.

Lemma legal_evidence_first_word b :
  exists rest, legal_evidence b =
    (name b ++ str " ") ++ str "has" ++ (str " authored " ++ rest).
Proof.
  unfold legal_evidence.
  change (str " has authored ")
    with (str " " ++ str "has" ++ str " authored ").
  destruct (key_awards b); cbn [app join];
    eexists; rewrite <- !app_assoc; reflexivity.
Qed.

Lemma legal_closing_first_word b :
  exists rest, legal_closing b = [] ++ str "In" ++ (str " summary, " ++ rest).
Proof. unfold legal_closing. eexists. reflexivity. Qed.

Lemma final_paragraph_has_line visa r b p :
  In p (final_paragraphs visa r b) -> wrap 110 p <> [].
Proof.
  intros [<-|[<-|[<-|[]]]].
  - destruct (legal_intro_first_word visa r b) as (rest & ->).
    apply wrap_has_line; try reflexivity; try discriminate; cbn; lia.
  - destruct (legal_evidence_first_word b) as (rest & ->).
    apply wrap_has_line; try reflexivity; try discriminate;
      try (cbn; lia).
    rewrite ws_end_app; [reflexivity|discriminate].
  - destruct (legal_closing_first_word b) as (rest & ->).
    apply wrap_has_line; try reflexivity; try discriminate; cbn; lia.
Qed.

(** X8 ([mk_final_draft]): the paragraphs can be read back off the draft. The
    lines of a final draft are the wrapped lines of the intro, one empty
    line, the wrapped lines of the evidence, one empty line and the wrapped
    lines of the closing. Each paragraph has a line at least and none of its
    lines is empty, so the draft has exactly two empty lines and they are the
    paragraph breaks, whatever the inputs contain. *)
Theorem final_draft_paragraphs (visa : text) (r : Person) (b : BeneficiaryFacts) :
  lines_of (mk_final_draft visa r b) =
    wrap 110 (legal_intro visa r b) ++
    [] :: wrap 110 (legal_evidence b) ++
    [] :: wrap 110 (legal_closing b) /\
  forall p, In p (final_paragraphs visa r b) ->
    wrap 110 p <> [] /\ Forall (fun l => l <> []) (wrap 110 p).
Proof.
  split.
  - rewrite final_draft_lines.
    rewrite !lines_of_fill; [reflexivity| | |];
      apply (final_paragraph_has_line visa r b); cbn; auto.
  - intros p Hp. split; [apply (final_paragraph_has_line visa r b p Hp)|].
    apply wrap_lines_nonempty. lia.
Qed.

End DraftLines.

Lemma rough_draft_line_width_witness :
  exists t s',
    @mk_rough_draft ascii_only Tape.source default_config (str "EB-1A")
      recommender_1 facts_1 [999; 0; 0; 0; 3; 1; 0; 2; 0; 999; 999; 0]%N
    = Ok (t, s') /\
    Forall (fun l => (length l <= 110)%nat) (lines_of t).
Proof.
  eexists _, _. split; [lazy; reflexivity|].
  apply (@rough_draft_line_width ascii_only Tape.source default_config
           (str "EB-1A") recommender_1 facts_1
           [999; 0; 0; 0; 3; 1; 0; 2; 0; 999; 999; 0]%N _ []).
  vm_compute. reflexivity.
Defined.

(** ** The rows of the dataset *)

Lemma str_inj (a b : string) : str a = str b -> a = b.
Proof.
  unfold str. intros H.
  assert (Hm : forall x y : list ascii,
            map N_of_ascii x = map N_of_ascii y -> x = y).
  { induction x as [|c x IH]; intros [|d y] E; try discriminate;
      [reflexivity|].
    cbn [map] in E. inversion E as [[Hc Hx]]. apply IH in Hx. subst y.
    f_equal. rewrite <- (ascii_N_embedding c), Hc. apply ascii_N_embedding. }
  apply Hm in H.
  rewrite <- (string_of_list_ascii_of_string a), H.
  apply string_of_list_ascii_of_string.
Qed.

(** Two numbers with the same decimal text are equal. *)
Lemma str_of_int_inj n m : str_of_int n = str_of_int m -> n = m.
Proof.
  unfold str_of_int. intros H. apply str_inj in H.
  apply DecimalZ.to_int_inj.
  assert (E : Some (Z.to_int n) = Some (Z.to_int m)).
  { rewrite <- !NilEmpty.isi, H. reflexivity. }
  inversion E. reflexivity.
Qed.

Lemma NoDup_map_injective {A B} (f : A -> B) (l : list A) :
  (forall x y, f x = f y -> x = y) -> NoDup l -> NoDup (map f l).
Proof.
  intros Hf. induction 1 as [|x l Hx Hl IH]; cbn [map]; constructor;
    [|exact IH].
  intros Hin. apply in_map_iff in Hin. destruct Hin as (y & Hy & Hin).
  apply Hf in Hy. subst y. contradiction.
Qed.

Lemma Forall2_map_eq {A B C} (f : B -> C) (g : A -> C) (la : list A)
  (lb : list B) :
  Forall2 (fun a b => f b = g a) la lb -> map f lb = map g la.
Proof.
  induction 1 as [|a b la lb H _ IH]; cbn [map]; [reflexivity|].
  rewrite H, IH. reflexivity.
Qed.

Lemma indices_shift (i : Z) (count : nat) :
  map (fun k => i + Z.of_nat k) (seq 1 count) =
  map (fun k => i + 1 + Z.of_nat k) (seq 0 count).
Proof.
  rewrite <- seq_shift, map_map. apply map_ext. intros k. lia.
Qed.

Section RowRuns.
Context {U : UnicodeDB} {R : RandomSource}.
Variable cfg : Config.

Lemma mk_beneficiary_name i s b s' :
  mk_beneficiary cfg i s = Ok (b, s') ->
  name b = str "Dr. Alex " ++ str_of_int i.
Proof.
  unfold mk_beneficiary. intros H.
  do 7 (apply bind_inv in H; destruct H as (? & ? & _ & H)).
  apply ret_inv in H. destruct H as [<- _]. reflexivity.
Qed.

Lemma mk_recommender_name i s r s' :
  mk_recommender cfg i s = Ok (r, s') ->
  full_name r = str "Dr. Jordan " ++ str_of_int i.
Proof.
  unfold mk_recommender. intros H.
  do 2 (apply bind_inv in H; destruct H as (? & ? & _ & H)).
  apply ret_inv in H. destruct H as [<- _]. reflexivity.
Qed.

Lemma mk_beneficiary_returns i s :
  FIELDS cfg <> [] ->
  fst (PUB_RANGE cfg) <= snd (PUB_RANGE cfg) ->
  fst (CITATION_RANGE cfg) <= snd (CITATION_RANGE cfg) ->
  exists b s', mk_beneficiary cfg i s = Ok (b, s').
Proof.
  intros Hf Hp Hc. unfold mk_beneficiary.
  destruct (choice_ok (FIELDS cfg) s Hf) as (x & s1 & E1 & _).
  rewrite (bind_ok _ _ _ _ _ E1).
  destruct (randint_ok _ _ s1 Hp) as (p & s2 & E2 & _).
  rewrite (bind_ok _ _ _ _ _ E2).
  destruct (randint_ok _ _ s2 Hc) as (c & s3 & E3 & _).
  rewrite (bind_ok _ _ _ _ _ E3).
  destruct (randint_ok 0 2 s3 ltac:(lia)) as (ka & s4 & E4 & Hka).
  rewrite (bind_ok _ _ _ _ _ E4).
  destruct (choice_no_replacement_ok (AWARD_POOL cfg) ka s4 ltac:(lia))
    as (aw & s5 & E5 & _).
  rewrite (bind_ok _ _ _ _ _ E5).
  destruct (randint_ok 1 3 s5 ltac:(lia)) as (kv & s6 & E6 & Hkv).
  rewrite (bind_ok _ _ _ _ _ E6).
  destruct (choice_no_replacement_ok (VENUE_POOL cfg) kv s6 ltac:(lia))
    as (ve & s7 & E7 & _).
  rewrite (bind_ok _ _ _ _ _ E7).
  eexists _, _. reflexivity.
Qed.

Lemma mk_recommender_returns i s :
  ORG_POOL cfg <> [] -> TITLE_POOL cfg <> [] ->
  exists r s', mk_recommender cfg i s = Ok (r, s').
Proof.
  intros Ho Ht. unfold mk_recommender.
  destruct (choice_ok (ORG_POOL cfg) s Ho) as (x & s1 & E1 & _).
  rewrite (bind_ok _ _ _ _ _ E1).
  destruct (choice_ok (TITLE_POOL cfg) s1 Ht) as (y & s2 & E2 & _).
  rewrite (bind_ok _ _ _ _ _ E2).
  eexists _, _. reflexivity.
Qed.

(** What a row made for the index [i] is. *)
Lemma make_row_inv i s row s' :
  make_row cfg i s = Ok (row, s') ->
  case_id row = str "case_" ++ str_of_int i /\
  In (visa_type row) (VISA_TYPES cfg) /\
  exists b r g,
    name b = str "Dr. Alex " ++ str_of_int i /\
    full_name r = str "Dr. Jordan " ++ str_of_int i /\
    generated_facts cfg b /\ generated_recommender cfg r /\
    log_ok cfg (visa_type row) b g /\
    beneficiary_data row = facts_to_string b /\
    recommender_data row = recommender_to_string r /\
    rough_draft row = fill 110 (body_of (visa_type row) b g) /\
    final_draft row = mk_final_draft (visa_type row) r b.
Proof.
  unfold make_row. intros H.
  apply bind_inv in H. destruct H as (visa & s1 & E1 & H).
  apply bind_inv in H. destruct H as (b & s2 & E2 & H).
  apply bind_inv in H. destruct H as (r & s3 & E3 & H).
  apply bind_inv in H. destruct H as ([[[bs rs] rough] final] & s4 & E4 & H).
  apply ret_inv in H. destruct H as [<- _].
  cbn [case_id visa_type beneficiary_data recommender_data rough_draft
       final_draft].
  unfold build_strings in E4.
  apply bind_inv in E4. destruct E4 as (t & s5 & E5 & E4).
  apply ret_inv in E4. destruct E4 as [E4 _].
  apply pair_equal_spec in E4. destruct E4 as [E4 <-].
  apply pair_equal_spec in E4. destruct E4 as [E4 <-].
  apply pair_equal_spec in E4. destruct E4 as [<- <-].
  apply mk_rough_draft_run in E5. destruct E5 as (g & Ht & Hg).
  split; [reflexivity|]. split; [exact (choice_inv _ _ _ _ E1)|].
  exists b, r, g.
  split; [exact (mk_beneficiary_name _ _ _ _ E2)|].
  split; [exact (mk_recommender_name _ _ _ _ E3)|].
  split; [exact (mk_beneficiary_generated _ _ _ _ _ E2)|].
  split; [exact (mk_recommender_generated _ _ _ _ _ E3)|].
  split; [exact Hg|].
  repeat split; try reflexivity. exact Ht.
Qed.

Lemma make_row_returns i s :
  usable cfg -> exists row s', make_row cfg i s = Ok (row, s').
Proof.
  intros (Hv & Hw & Hf & Hp & Hc & Ho & Ht). unfold make_row.
  destruct (choice_ok (VISA_TYPES cfg) s Hv) as (visa & s1 & E1 & Hin).
  rewrite (bind_ok _ _ _ _ _ E1).
  destruct (mk_beneficiary_returns i s1 Hf Hp Hc) as (b & s2 & E2).
  rewrite (bind_ok _ _ _ _ _ E2).
  destruct (mk_recommender_returns i s2 Ho Ht) as (r & s3 & E3).
  rewrite (bind_ok _ _ _ _ _ E3).
  destruct (mk_rough_draft_log_returns cfg visa r b s3 (Hw visa Hin))
    as (t & g & s4 & E4).
  assert (E5 : build_strings cfg visa r b s3 =
               Ok ((facts_to_string b, recommender_to_string r, t,
                    mk_final_draft visa r b), s4)).
  { unfold build_strings, mk_rough_draft.
    rewrite (bind_ok _ _ _ _ _ (bind_ok _ _ _ _ _ E4)). reflexivity. }
  rewrite (bind_ok _ _ _ _ _ E5).
  eexists _, _. reflexivity.
Qed.

(** The loop: the rows it appends, one for every index. *)
Lemma make_rows_from_inv (P : Z -> Record_ -> Prop) :
  (forall i s row s', make_row cfg i s = Ok (row, s') -> P i row) ->
  forall count i rows s rows' s',
  make_rows_from cfg count i rows s = Ok (rows', s') ->
  exists new, rows' = rows ++ new /\
    Forall2 P (map (fun k => i + Z.of_nat k) (seq 0 count)) new.
Proof.
  intros HP. induction count as [|count IH]; intros i rows s rows' s' H.
  - cbn [make_rows_from] in H. apply ret_inv in H. destruct H as [<- _].
    exists []. split; [symmetry; apply app_nil_r|constructor].
  - cbn [make_rows_from] in H.
    apply bind_inv in H. destruct H as (row & s1 & E & H).
    apply IH in H. destruct H as (new & -> & Hnew).
    exists (row :: new). split; [rewrite <- app_assoc; reflexivity|].
    cbn [seq map]. constructor.
    + replace (i + Z.of_nat 0) with i by lia. exact (HP _ _ _ _ E).
    + rewrite indices_shift. exact Hnew.
Qed.

Lemma make_rows_inv (P : Z -> Record_ -> Prop) n s rows s' :
  (forall i s row s', make_row cfg i s = Ok (row, s') -> P i row) ->
  make_rows cfg n s = Ok (rows, s') ->
  Forall2 P (map Z.of_nat (seq 1 (Z.to_nat n))) rows.
Proof.
  intros HP H. unfold make_rows in H.
  apply (make_rows_from_inv P HP) in H. destruct H as (new & -> & H).
  cbn [app].
  replace (map Z.of_nat (seq 1 (Z.to_nat n)))
    with (map (fun k => 1 + Z.of_nat k) (seq 0 (Z.to_nat n))); [exact H|].
  rewrite <- seq_shift, map_map. apply map_ext. intros k. lia.
Qed.

Lemma make_rows_from_returns :
  usable cfg ->
  forall count i rows s,
  exists rows' s', make_rows_from cfg count i rows s = Ok (rows', s').
Proof.
  intros Hu. induction count as [|count IH]; intros i rows s.
  - eexists _, _. reflexivity.
  - cbn [make_rows_from].
    destruct (make_row_returns i s Hu) as (row & s1 & E).
    rewrite (bind_ok _ _ _ _ _ E). apply IH.
Qed.

End RowRuns.

Lemma Forall2_right {A B} (Q : B -> Prop) (la : list A) (lb : list B) :
  Forall2 (fun _ b => Q b) la lb -> Forall Q lb.
Proof. induction 1; constructor; assumption. Qed.

Lemma case_id_injective (j k : nat) :
  str "case_" ++ str_of_int (Z.of_nat j) =
  str "case_" ++ str_of_int (Z.of_nat k) -> j = k.
Proof.
  intros H. apply app_inv_head in H. apply str_of_int_inj in H. lia.
Qed.

Lemma usable_default_config : usable default_config.
Proof.
  unfold usable. cbn.
  repeat split; try discriminate; try lia.
  intros v [<-|[<-|[<-|[]]]].
  - exists (str "NIW"). split; [auto|discriminate].
  - exists (str "NIW"). split; [auto|discriminate].
  - exists (str "EB-1A"). split; [auto|discriminate].
Qed.

Section Rows.
Context {U : UnicodeDB} {R : RandomSource}.
Variable cfg : Config.

(** X9 ([make_rows]): the rows are numbered in order. A call that returns
    has made [max(0, n_rows)] rows, none for a count of zero or below, and
    their case ids are case_1, case_2, ... up to the count, in this order; no
    two rows have the same case id. *)
Theorem make_rows_case_ids (n_rows : Z) (s : rng) (rows : list Record_)
  (s' : rng) :
  make_rows cfg n_rows s = Ok (rows, s') ->
  length rows = Z.to_nat n_rows /\
  map case_id rows =
    map (fun k => str "case_" ++ str_of_int (Z.of_nat k))
      (seq 1 (Z.to_nat n_rows)) /\
  NoDup (map case_id rows).
Proof.
  intros H.
  apply (make_rows_inv cfg
           (fun i row => case_id row = str "case_" ++ str_of_int i)) in H.
  2:{ intros i s0 row s1 E. apply make_row_inv in E. apply E. }
  apply Forall2_map_eq in H. rewrite map_map in H.
  split; [|split; [exact H|]].
  - rewrite <- (length_map case_id), H, length_map. apply length_seq.
  - rewrite H. apply NoDup_map_injective; [|apply seq_NoDup].
    exact case_id_injective.
Qed.

(** X10 ([make_rows]): on a usable configuration the synthesis never raises,
    as long as the row count and the counts of the configured ranges are
    within the limit on the conversion of ints. When no list read by
    [random.choice] is empty, the two count ranges are not empty and every
    category has another one beside it, a call returns for every such row
    count and every state of the random source, with exactly
    [max(0, n_rows)] rows. *)
Theorem make_rows_returns (n_rows : Z) (s : rng) :
  usable cfg -> within_limit cfg = true -> convertible n_rows = true ->
  exists rows s', make_rows cfg n_rows s = Ok (rows, s') /\
    length rows = Z.to_nat n_rows.
Proof.
  intros Hu _ _.
  destruct (make_rows_from_returns cfg Hu (Z.to_nat n_rows) 1 [] s)
    as (rows & s' & E).
  exists rows, s'. split; [exact E|].
  apply (make_rows_inv cfg (fun _ _ => True)) in E; [|auto].
  apply Forall2_length in E. rewrite length_map, length_seq in E.
  symmetry. exact E.
Qed.

(** X11 ([make_rows], [build_strings]): the six columns of a row tell of one
    case. In the row of index [i] the case id is case_[i], the category is
    a configured one, and there are facts of a beneficiary named Dr. Alex [i]
    and a recommender named Dr. Jordan [i], both as the synthesizers make
    them, such that the four texts of the row are the facts string and the
    recommender string of these two, a rough draft of these facts for the
    category of the row, and the final draft of the three. *)
Theorem make_rows_consistent (n_rows : Z) (s : rng) (rows : list Record_)
  (s' : rng) :
  make_rows cfg n_rows s = Ok (rows, s') ->
  Forall2
    (fun i row =>
       case_id row = str "case_" ++ str_of_int i /\
       In (visa_type row) (VISA_TYPES cfg) /\
       exists b r g,
         name b = str "Dr. Alex " ++ str_of_int i /\
         full_name r = str "Dr. Jordan " ++ str_of_int i /\
         generated_facts cfg b /\ generated_recommender cfg r /\
         log_ok cfg (visa_type row) b g /\
         beneficiary_data row = facts_to_string b /\
         recommender_data row = recommender_to_string r /\
         rough_draft row = fill 110 (body_of (visa_type row) b g) /\
         final_draft row = mk_final_draft (visa_type row) r b)
    (map Z.of_nat (seq 1 (Z.to_nat n_rows))) rows.
Proof.
  intros H. apply (make_rows_inv cfg _ _ _ _ _ (make_row_inv cfg) H).
Qed.

(** X12 ([make_rows], [mk_final_draft]): the final draft of every row names
    the category of the row. When every configured category is a solid word
    shorter than the width (as EB-1A, O-1A and NIW are), the category of a
    row occurs verbatim in the final draft of the same row. *)
Theorem make_rows_final_names_category (n_rows : Z) (s : rng)
  (rows : list Record_) (s' : rng) :
  (forall v, In v (VISA_TYPES cfg) ->
     v <> [] /\ solid v = true /\ (length v < 110)%nat) ->
  make_rows cfg n_rows s = Ok (rows, s') ->
  Forall (fun row => substr (visa_type row) (final_draft row)) rows.
Proof.
  intros Hv H.
  apply (make_rows_inv cfg
           (fun _ row => substr (visa_type row) (final_draft row))) in H.
  - apply Forall2_right in H. exact H.
  - intros i s0 row s1 E. apply make_row_inv in E.
    destruct E as (_ & Hin & b & r & g & _ & _ & _ & _ & _ & _ & _ & _ & ->).
    destruct (Hv _ Hin) as (Hne & Hs & Hl).
    apply (in_final_draft _ r b _ (legal_intro (visa_type row) r b));
      [left; reflexivity|].
    destruct (legal_intro_visa (visa_type row) r b) as (rest & ->).
    apply fill_keeps_item; try assumption; [lia| |left; reflexivity].
    rewrite !app_assoc. rewrite ws_end_app by discriminate. reflexivity.
Qed.

(** X13 ([make_rows]): without a category there is no row. With an empty list
    of categories a call for one row or more raises [IndexError], the error
    of [random.choice], before anything else of the first row is made;
    nothing guards the list. *)
Theorem make_rows_without_categories (n_rows : Z) (s : rng) :
  VISA_TYPES cfg = [] -> 1 <= n_rows ->
  make_rows cfg n_rows s = Raise IndexError.
Proof.
  intros Hv Hn. unfold make_rows.
  destruct (Z.to_nat n_rows) as [|count] eqn:E; [lia|].
  cbn [make_rows_from]. unfold make_row, bind. rewrite Hv, choice_empty.
  reflexivity.
Qed.

End Rows.


Lemma make_rows_case_ids_witness :
  exists rows s',
    @make_rows ascii_only Tape.source default_config 2 [] = Ok (rows, s') /\
    length rows = 2%nat /\
    map case_id rows = [str "case_1"; str "case_2"] /\
    NoDup (map case_id rows).
Proof.
  eexists _, _. split; [lazy; reflexivity|].
  apply (@make_rows_case_ids ascii_only Tape.source default_config 2 [] _ []).
  vm_compute. reflexivity.
Defined.

Lemma make_rows_returns_witness :
  usable default_config /\ within_limit default_config = true /\
  convertible 3 = true /\
  exists rows s',
    @make_rows ascii_only Tape.source default_config 3 [5; 7]%N
    = Ok (rows, s') /\
    length rows = 3%nat.
Proof.
  assert (H1 : within_limit default_config = true) by (vm_compute; reflexivity).
  assert (H2 : convertible 3 = true) by (vm_compute; reflexivity).
  split; [exact usable_default_config|]. split; [exact H1|]. split; [exact H2|].
  exact (@make_rows_returns ascii_only Tape.source default_config 3 [5; 7]%N
           usable_default_config H1 H2).
Defined.

Lemma make_rows_consistent_witness :
  exists rows s',
    @make_rows ascii_only Tape.source default_config 1 [] = Ok (rows, s') /\
    Forall2
      (fun i row =>
         case_id row = str "case_" ++ str_of_int i /\
         In (visa_type row) (VISA_TYPES default_config) /\
         exists b r g,
           name b = str "Dr. Alex " ++ str_of_int i /\
           full_name r = str "Dr. Jordan " ++ str_of_int i /\
           generated_facts default_config b /\
           generated_recommender default_config r /\
           log_ok default_config (visa_type row) b g /\
           beneficiary_data row = @facts_to_string ascii_only b /\
           recommender_data row = recommender_to_string r /\
           rough_draft row =
             @fill ascii_only 110 (body_of (visa_type row) b g) /\
           final_draft row = @mk_final_draft ascii_only (visa_type row) r b)
      [1] rows.
Proof.
  eexists _, _. split; [lazy; reflexivity|].
  apply (@make_rows_consistent ascii_only Tape.source default_config 1 [] _ []).
  vm_compute. reflexivity.
Defined.

Lemma make_rows_final_names_category_witness :
  (forall v, In v (VISA_TYPES default_config) ->
     v <> [] /\ @solid ascii_only v = true /\ (length v < 110)%nat) /\
  exists rows s',
    @make_rows ascii_only Tape.source default_config 1 [2]%N = Ok (rows, s') /\
    Forall (fun row => substr (visa_type row) (final_draft row)) rows.
Proof.
  assert (Hv : forall v, In v (VISA_TYPES default_config) ->
            v <> [] /\ @solid ascii_only v = true /\ (length v < 110)%nat).
  { intros v [<-|[<-|[<-|[]]]]; (split; [discriminate|]);
      (split; [reflexivity|cbn; lia]). }
  split; [exact Hv|].
  eexists _, _. split; [lazy; reflexivity|].
  apply (@make_rows_final_names_category ascii_only Tape.source default_config
           1 [2]%N _ [] Hv).
  vm_compute. reflexivity.
Defined.

Lemma make_rows_without_categories_witness :
  @make_rows ascii_only Tape.source
    (with_lists default_config [] (FIELDS default_config)
       (ORG_POOL default_config) (TITLE_POOL default_config)) 1 []
  = Raise IndexError.
Proof.
  apply (@make_rows_without_categories ascii_only Tape.source); [reflexivity|lia].
Defined.

(** ** The summary *)

Lemma text_eqb_refl (a : text) : text_eqb a a = true.
Proof. apply text_eqb_eq. reflexivity. Qed.

Lemma text_eqb_neq (a b : text) : a <> b -> text_eqb a b = false.
Proof.
  intros H. destruct (text_eqb a b) eqn:E; [|reflexivity].
  apply text_eqb_eq in E. contradiction.
Qed.

Lemma dict_get_set_same {V} (d : dict V) k v default :
  dict_get (dict_set d k v) k default = v.
Proof.
  induction d as [|[k1 v1] d IH]; cbn [dict_set dict_get].
  - rewrite text_eqb_refl. reflexivity.
  - destruct (text_eqb k1 k) eqn:E; cbn [dict_get]; rewrite E;
      [reflexivity|exact IH].
Qed.

Lemma dict_get_set_other {V} (d : dict V) k k' v default :
  k' <> k -> dict_get (dict_set d k v) k' default = dict_get d k' default.
Proof.
  intros Hk. induction d as [|[k1 v1] d IH]; cbn [dict_set dict_get].
  - rewrite text_eqb_neq; [reflexivity|]. intros E. apply Hk. symmetry. exact E.
  - destruct (text_eqb k1 k) eqn:E; cbn [dict_get].
    + apply text_eqb_eq in E. subst k1.
      rewrite text_eqb_neq; [reflexivity|]. intros E. apply Hk. symmetry.
      exact E.
    + destruct (text_eqb k1 k'); [reflexivity|exact IH].
Qed.

(** Setting a key keeps the keys in place and puts a new key last. *)
Lemma dict_set_keys {V} (d : dict V) k v :
  map fst (dict_set d k v) =
  if mem_text k (map fst d) then map fst d else map fst d ++ [k].
Proof.
  induction d as [|[k1 v1] d IH]; cbn [dict_set map fst mem_text];
    [reflexivity|].
  destruct (text_eqb k1 k) eqn:E.
  - apply text_eqb_eq in E. subst k1. rewrite text_eqb_refl. reflexivity.
  - rewrite text_eqb_neq.
    2:{ intros ->. rewrite text_eqb_refl in E. discriminate. }
    cbn [orb map fst]. rewrite IH.
    destruct (mem_text k (map fst d)); reflexivity.
Qed.

Lemma dict_set_sum (d : dict Z) k :
  fold_right Z.add 0 (map snd (dict_set d k (dict_get d k 0 + 1))) =
  fold_right Z.add 0 (map snd d) + 1.
Proof.
  induction d as [|[k1 v1] d IH]; cbn [dict_set dict_get map snd fold_right].
  - reflexivity.
  - destruct (text_eqb k1 k); cbn [map snd fold_right]; [lia|].
    rewrite IH. lia.
Qed.

(** The counting loop of [summarize], from a dictionary [d] on. *)
Lemma count_loop (rows : list Record_) : forall d : dict Z,
  NoDup (map fst d) ->
  let d' := fold_left count_visa rows d in
  NoDup (map fst d') /\
  (forall v, dict_get d' v 0 =
     dict_get d v 0 +
     Z.of_nat (length (filter (fun r => text_eqb (visa_type r) v) rows))) /\
  fold_right Z.add 0 (map snd d') =
    fold_right Z.add 0 (map snd d) + Z.of_nat (length rows) /\
  (forall v, In v (map fst d') <->
     In v (map fst d) \/ In v (map visa_type rows)).
Proof.
  induction rows as [|r rows IH]; intros d Hd; cbn [fold_left].
  - cbn. split; [exact Hd|]. split; [intros; lia|]. split; [lia|].
    intros v. tauto.
  - assert (Hk : map fst (count_visa d r) =
                 if mem_text (visa_type r) (map fst d) then map fst d
                 else map fst d ++ [visa_type r])
      by apply dict_set_keys.
    assert (Hd1 : NoDup (map fst (count_visa d r))).
    { rewrite Hk. destruct (mem_text (visa_type r) (map fst d)) eqn:E;
        [exact Hd|].
      apply NoDup_app; [exact Hd|repeat constructor; intros []|].
      intros x Hx [<-|[]]. apply mem_text_In in Hx. rewrite Hx in E.
      discriminate. }
    destruct (IH _ Hd1) as (H1 & H2 & H3 & H4).
    split; [exact H1|]. split; [|split].
    + intros v. rewrite H2. cbn [filter]. unfold count_visa at 1.
      destruct (text_eqb (visa_type r) v) eqn:E.
      * apply text_eqb_eq in E. subst v. rewrite dict_get_set_same.
        cbn [length]. lia.
      * rewrite dict_get_set_other; [lia|].
        intros ->. rewrite text_eqb_refl in E. discriminate.
    + rewrite H3. unfold count_visa. rewrite dict_set_sum. cbn [length]. lia.
    + intros v. rewrite H4, Hk. cbn [map In].
      destruct (mem_text (visa_type r) (map fst d)) eqn:E.
      * apply mem_text_In in E. split; [tauto|].
        intros [H|[<-|H]]; tauto.
      * rewrite in_app_iff. cbn [In]. tauto.
Qed.

(** X14 ([summarize]): the printed distribution counts the rows. The
    dictionary that the second [print] shows has every category of the rows
    as a key, once, and no other key; the count of a key is the number of
    rows of this category, and the counts add up to the number of rows. *)
Theorem summarize_counts (rows : list Record_) :
  exists d,
    nth_error (fst (summarize rows)) 1 =
      Some (PrintCounts (str "Visa distribution:") d) /\
    NoDup (map fst d) /\
    (forall v, In v (map fst d) <-> In v (map visa_type rows)) /\
    (forall v, dict_get d v 0 =
       Z.of_nat (length (filter (fun r => text_eqb (visa_type r) v) rows))) /\
    fold_right Z.add 0 (map snd d) = Z.of_nat (length rows).
Proof.
  exists (fold_left count_visa rows []).
  destruct (count_loop rows [] ltac:(constructor)) as (H1 & H2 & H3 & H4).
  split; [|split; [exact H1|split; [|split]]].
  - unfold summarize. destruct (get_item rows 0); reflexivity.
  - intros v. rewrite H4. cbn [map In]. tauto.
  - intros v. rewrite H2. cbn [dict_get]. lia.
  - rewrite H3. cbn. lia.
Qed.

Section SummaryOfRows.
Context {U : UnicodeDB} {R : RandomSource}.
Variable cfg : Config.


End SummaryOfRows.


(** ** The facts string with awards *)

Section FactsWithAwards.
Context {U : UnicodeDB}.

Lemma lacks_repeat_space c n : c <> space -> lacks c (repeat space n) = true.
Proof.
  intros Hc. induction n as [|n IH]; [reflexivity|].
  cbn [repeat lacks forallb]. apply andb_true_iff. split; [|exact IH].
  destruct (space =? c)%N eqn:E; [|reflexivity].
  apply N.eqb_eq in E. congruence.
Qed.

Lemma expandtabs_lacks c t : c <> space -> lacks c t = true ->
  forall col, lacks c (expandtabs_from col t) = true.
Proof.
  intros Hc. induction t as [|x t IH]; intros Hl col; [reflexivity|].
  cbn [lacks forallb] in Hl. apply andb_true_iff in Hl.
  destruct Hl as [Hx Ht]. cbn [expandtabs_from].
  destruct (x =? 9)%N.
  - apply (chk_app _ (lacks_closed c)); [apply lacks_repeat_space, Hc|].
    apply IH. exact Ht.
  - destruct ((x =? 10)%N || (x =? 13)%N); cbn [lacks forallb];
      apply andb_true_iff; (split; [exact Hx|apply IH; exact Ht]).
Qed.

(** A character other than the space that is not in a text is not in the
    text with its whitespace turned into spaces. *)
Lemma munge_lacks c t :
  c <> space -> lacks c t = true -> lacks c (munge_whitespace t) = true.
Proof.
  intros Hc Hl. unfold munge_whitespace.
  pose proof (expandtabs_lacks c t Hc Hl 0%nat) as H.
  induction (expandtabs_from 0 t) as [|x l IH]; [reflexivity|].
  cbn [lacks forallb] in H. apply andb_true_iff in H. destruct H as [Hx Hr].
  cbn [map lacks forallb]. apply andb_true_iff. split; [|apply IH; exact Hr].
  unfold to_space. destruct (is_ws x); [|exact Hx].
  destruct (space =? c)%N eqn:E; [|reflexivity].
  apply N.eqb_eq in E. congruence.
Qed.

Lemma fill_lacks_any width c t :
  c <> space -> c <> newline -> lacks c t = true ->
  lacks c (fill width t) = true.
Proof.
  intros Hs Hn Hl. unfold fill. apply lacks_join_newline; [exact Hn|].
  apply Forall_forall. intros l Hin. apply wrap_line_substr in Hin.
  exact (lacks_substr c l _ Hin (munge_lacks c t Hs Hl)).
Qed.

(** X16 ([facts_to_string]): with awards the placeholder is not shown. When
    the award list is not empty the string is the wrapped paragraph with the
    awards joined by commas where the dash would stand; every award that is a
    solid word shorter than the width is in it unbroken, and the dash of the
    empty case occurs in it only if the name, the field, an award or a venue
    has one. *)
Theorem facts_to_string_with_awards (b : BeneficiaryFacts) :
  key_awards b <> [] ->
  facts_to_string b =
    fill 120
      (name b ++ str " works in " ++ field b ++ str ". Publications: " ++
       str_of_int (pubs b) ++ str ". Citations: " ++ str_of_int (citations b) ++
       str ". Awards: " ++ join (str ", ") (key_awards b) ++
       str ". Key venues: " ++ join (str ", ") (key_venues b) ++ str ".") /\
  (forall a, In a (key_awards b) ->
     a <> [] -> solid a = true -> (length a < 120)%nat ->
     substr a (facts_to_string b)) /\
  (lacks emdash (name b) = true -> lacks emdash (field b) = true ->
   Forall (fun a => lacks emdash a = true) (key_awards b) ->
   Forall (fun v => lacks emdash v = true) (key_venues b) ->
   lacks emdash (facts_to_string b) = true).
Proof.
  intros Ha. unfold facts_to_string, facts_paragraph.
  assert (Hm : match key_awards b with
               | [] => [emdash]
               | _ :: _ => join (str ", ") (key_awards b)
               end = join (str ", ") (key_awards b)).
  { destruct (key_awards b); [contradiction|reflexivity]. }
  rewrite Hm. clear Hm.
  split; [reflexivity|]. split.
  - intros a Hin Hne Hs Hl.
    replace (name b ++ str " works in " ++ field b ++ str ". Publications: " ++
             str_of_int (pubs b) ++ str ". " ++ str "Citations: " ++
             str_of_int (citations b) ++ str ". Awards: " ++
             join (str ", ") (key_awards b) ++
             str ". " ++ str "Key venues: " ++ join (str ", ") (key_venues b) ++
             str ".")
      with ((name b ++ str " works in " ++ field b ++ str ". Publications: " ++
             str_of_int (pubs b) ++ str ". " ++ str "Citations: " ++
             str_of_int (citations b) ++ str ". Awards: ") ++
            join (str ", ") (key_awards b) ++
            (str ". " ++ str "Key venues: " ++
             join (str ", ") (key_venues b) ++ str "."))
      by (rewrite <- !app_assoc; reflexivity).
    apply fill_keeps_joined_item; try assumption.
    + lia.
    + rewrite !app_assoc. rewrite ws_end_app by discriminate. reflexivity.
    + right. exists 46%N, (str " " ++ str "Key venues: " ++
                          join (str ", ") (key_venues b) ++ str ".").
      split; [reflexivity|]. split; [right; reflexivity|reflexivity].
  - intros Hn Hf Haw Hve.
    apply fill_lacks_any; [discriminate|discriminate|].
    pose proof (chk_app _ (lacks_closed emdash)) as App.
    assert (Hint : forall n, lacks emdash (str_of_int n) = true).
    { intros n. apply lacks_str_of_int; [reflexivity|discriminate]. }
    assert (Hj : forall l, Forall (fun a => lacks emdash a = true) l ->
              lacks emdash (join (str ", ") l) = true).
    { intros l Hl. apply chk_join; [apply lacks_closed|reflexivity|exact Hl]. }
    repeat (apply App; [first [assumption | reflexivity | apply Hint
                               | apply Hj; assumption]|]).
    reflexivity.
Qed.

End FactsWithAwards.

Lemma facts_to_string_with_awards_witness :
  key_awards facts_1 <> [] /\
  contains (str "Awards: ACM") (@facts_to_string ascii_only facts_1) = true /\
  lacks emdash (@facts_to_string ascii_only facts_1) = true.
Proof.
  assert (Ha : key_awards facts_1 <> []) by discriminate.
  split; [exact Ha|]. split; [vm_compute; reflexivity|].
  destruct (@facts_to_string_with_awards ascii_only facts_1 Ha) as (_ & _ & H).
  apply H; try reflexivity; repeat constructor.
Defined.

(** ** textwrap: words with single spaces between them *)

Lemma words_of_nonempty (t : text) : words_of t <> [].
Proof.
  destruct t as [|c t]; cbn [words_of]; [discriminate|].
  destruct (c =? space)%N; [discriminate|].
  destruct (words_of t); discriminate.
Qed.

Lemma join_words_of (t : text) : join [space] (words_of t) = t.
Proof.
  induction t as [|c t IH]; [reflexivity|].
  cbn [words_of]. pose proof (words_of_nonempty t) as Hne.
  destruct (words_of t) as [|w ws] eqn:Ew; [contradiction|].
  destruct (c =? space)%N eqn:E.
  - apply N.eqb_eq in E. subst c.
    change (join [space] ([] :: w :: ws)) with (space :: join [space] (w :: ws)).
    rewrite IH. reflexivity.
  - destruct ws as [|w' ws].
    + cbn [join] in *. rewrite IH. reflexivity.
    + change (join [space] ((c :: w) :: w' :: ws))
        with (c :: (w ++ [space] ++ join [space] (w' :: ws))).
      change (join [space] (w :: w' :: ws))
        with (w ++ [space] ++ join [space] (w' :: ws)) in IH.
      rewrite IH. reflexivity.
Qed.

Lemma concat_interleave (ws : list text) :
  concat (interleave ws) = join [space] ws.
Proof.
  induction ws as [|w ws IH]; [reflexivity|].
  destruct ws as [|w' ws]; [cbn; apply app_nil_r|].
  change (interleave (w :: w' :: ws)) with (w :: [space] :: interleave (w' :: ws)).
  cbn [concat]. rewrite IH. reflexivity.
Qed.

Lemma interleave_app (ws1 ws2 : list text) :
  ws1 <> [] -> ws2 <> [] ->
  interleave (ws1 ++ ws2) = interleave ws1 ++ [space] :: interleave ws2.
Proof.
  intros H1 H2. induction ws1 as [|w ws1 IH]; [contradiction|].
  destruct ws1 as [|w' ws1].
  - cbn [app]. destruct ws2; [contradiction|reflexivity].
  - change ((w :: w' :: ws1) ++ ws2) with (w :: (w' :: ws1) ++ ws2).
    change (interleave (w :: (w' :: ws1) ++ ws2))
      with (w :: [space] :: interleave ((w' :: ws1) ++ ws2)).
    rewrite IH by discriminate. reflexivity.
Qed.

Lemma join_space_app (ws1 ws2 : list text) :
  ws1 <> [] -> ws2 <> [] ->
  join [space] (ws1 ++ ws2) = join [space] ws1 ++ space :: join [space] ws2.
Proof.
  intros H1 H2. rewrite <- !concat_interleave, interleave_app by assumption.
  rewrite concat_app. reflexivity.
Qed.


(** ** textwrap: the chunks of a run of words *)

Section WordChunks.
Context {U : UnicodeDB}.

Lemma split_from_step fuel prev (rest : text) :
  rest <> [] ->
  split_from (S fuel) prev rest =
  firstn (match_len prev rest) rest ::
  split_from fuel (rev (firstn (match_len prev rest) rest) ++ prev)
    (skipn (match_len prev rest) rest).
Proof. destruct rest; [contradiction|reflexivity]. Qed.

Lemma no_space_head_not_ws (w : text) (X : text) :
  w <> [] -> no_space w = true -> ws_run (w ++ X) = 0%nat.
Proof.
  intros Hne Hn. destruct w as [|c w]; [contradiction|].
  cbn [no_space forallb] in Hn. apply andb_true_iff in Hn.
  destruct Hn as [Hc _]. apply negb_true_iff in Hc.
  cbn [app ws_run]. rewrite (no_space_not_ws c Hc). reflexivity.
Qed.

Lemma join_space_cons (w w' : text) (ws : list text) :
  join [space] (w :: w' :: ws) = w ++ space :: join [space] (w' :: ws).
Proof. reflexivity. Qed.

Lemma join_space_head (w : text) (ws : list text) :
  exists T, join [space] (w :: ws) = w ++ T /\ ws_start T = true.
Proof.
  destruct ws as [|w' ws].
  - exists []. cbn [join]. rewrite app_nil_r. split; reflexivity.
  - eexists. rewrite join_space_cons. split; reflexivity.
Qed.

Lemma join_space_nonempty (ws : list text) :
  ws <> [] -> Forall (fun w : text => w <> []) ws -> join [space] ws <> [].
Proof.
  intros Hne H. destruct ws as [|w ws]; [contradiction|].
  inversion H as [|? ? Hw _]; subst.
  destruct (join_space_head w ws) as (T & -> & _).
  destruct w; [contradiction|discriminate].
Qed.

(** A solid word at the start of the text is the first chunk. *)
Lemma split_from_word fuel prev (w T : text) :
  w <> [] -> solid w = true -> ws_start T = true ->
  split_from (S fuel) prev (w ++ T) =
  w :: split_from fuel (rev w ++ prev) T.
Proof.
  intros Hw Hs HT. unfold solid in Hs. apply andb_true_iff in Hs.
  destruct Hs as [Hn Hh].
  rewrite split_from_step by (destruct w; [contradiction|discriminate]).
  rewrite (match_len_solid prev w T Hw HT Hn Hh).
  rewrite firstn_app, firstn_all, Nat.sub_diag. cbn [firstn].
  rewrite app_nil_r, skipn_app, skipn_all, Nat.sub_diag. reflexivity.
Qed.

(** A single space before a word is a chunk. *)
Lemma split_from_space fuel prev (X : text) :
  ws_run X = 0%nat ->
  split_from (S fuel) prev (space :: X) =
  [space] :: split_from fuel (space :: prev) X.
Proof.
  intros Hr. rewrite split_from_step by discriminate.
  cbn [match_len]. change (is_ws space) with true. cbn [ws_run].
  change (is_ws space) with true. rewrite Hr. reflexivity.
Qed.

(** From the start of a run of solid words, the chunks are the words and the
    single spaces between them. *)
Lemma split_from_item B : ws_start B = true ->
  forall (ws : list text) fuel prev,
  ws <> [] ->
  Forall (fun w : text => w <> [] /\ solid w = true) ws ->
  (length (join [space] ws ++ B) <= fuel)%nat ->
  exists post, split_from fuel prev (join [space] ws ++ B) =
               interleave ws ++ post.
Proof.
  intros HB. induction ws as [|w ws IH]; intros fuel prev Hne Hws Hl;
    [contradiction|].
  inversion Hws as [|? ? [Hw Hs] Hws']; subst.
  assert (Hlw : (1 <= length w)%nat).
  { destruct w; [contradiction|cbn; lia]. }
  destruct ws as [|w' ws].
  - cbn [join interleave] in *. rewrite length_app in Hl.
    destruct fuel as [|fuel]; [lia|].
    rewrite (split_from_word fuel prev w B Hw Hs HB).
    eexists. reflexivity.
  - rewrite join_space_cons in Hl |- *.
    rewrite <- app_assoc, <- app_comm_cons in Hl |- *.
    rewrite length_app in Hl. cbn [length] in Hl.
    destruct fuel as [|fuel]; [lia|].
    erewrite split_from_word; [|exact Hw|exact Hs|reflexivity].
    destruct fuel as [|fuel]; [lia|].
    inversion Hws' as [|? ? [Hw' Hs'] _]; subst.
    assert (Hr : ws_run (join [space] (w' :: ws) ++ B) = 0%nat).
    { destruct (join_space_head w' ws) as (T & -> & _).
      rewrite <- app_assoc. apply no_space_head_not_ws; [exact Hw'|].
      unfold solid in Hs'. apply andb_true_iff in Hs'. apply Hs'. }
    rewrite (split_from_space fuel _ _ Hr).
    destruct (IH fuel (space :: rev w ++ prev)) as (post & Hpost);
      [discriminate|exact Hws'|lia|].
    exists post.
    change (interleave (w :: w' :: ws))
      with (w :: [space] :: interleave (w' :: ws)).
    cbn [app]. f_equal. f_equal. exact Hpost.
Qed.

(** No match of the separator pattern is longer than the stretch of
    whitespace or of other characters it starts in. *)
Lemma match_len_runs prev (T : text) :
  (match_len prev T <= Nat.max (ws_run T) (nonws_run T))%nat.
Proof.
  destruct T as [|c r]; cbn [match_len]; [lia|].
  destruct (is_ws c) eqn:Ec; [lia|].
  destruct (behind_word_punct prev && dashes_then_word (c :: r)).
  - pose proof (hyphen_run_nonws (c :: r)). lia.
  - pose proof (word_len_nonws r (c :: prev) 1) as Hwl.
    cbn [nonws_run]. rewrite Ec. lia.
Qed.

Lemma ws_end_tail a a' (A : text) :
  ws_end (a :: a' :: A) = true -> ws_end (a' :: A) = true.
Proof.
  intros He. unfold ws_end in *. cbn [rev] in *.
  destruct (rev A ++ [a']) as [|z zs] eqn:Ez.
  - destruct (rev A); discriminate.
  - cbn in He. exact He.
Qed.

(** What follows whitespace changes none of the stretches before it. *)
Lemma runs_before_word (A : text) x (X : text) :
  A <> [] -> ws_end A = true -> is_ws x = false ->
  ws_run (A ++ x :: X) = ws_run A /\ nonws_run (A ++ x :: X) = nonws_run A.
Proof.
  intros Hne He Hx. induction A as [|a A IH]; [contradiction|].
  destruct A as [|a' A].
  - unfold ws_end in He. cbn in He.
    cbn [app ws_run nonws_run]. rewrite He, Hx. split; reflexivity.
  - destruct (IH ltac:(discriminate) (ws_end_tail a a' A He)) as [E1 E2].
    change ((a :: a' :: A) ++ x :: X) with (a :: ((a' :: A) ++ x :: X)).
    cbn [ws_run nonws_run] in *. rewrite E1, E2. split; reflexivity.
Qed.

Lemma runs_max_run (A : text) :
  (Nat.max (ws_run A) (nonws_run A) <= max_run A)%nat.
Proof. destruct A; cbn [max_run ws_run nonws_run]; lia. Qed.

Lemma max_run_tail c (A : text) : (max_run A <= max_run (c :: A))%nat.
Proof. cbn [max_run]. lia. Qed.

Lemma max_run_skipn n (A : text) : (max_run (skipn n A) <= max_run A)%nat.
Proof.
  revert A. induction n as [|n IH]; intros A; [cbn [skipn]; lia|].
  destruct A as [|a A]; [cbn [skipn]; lia|].
  cbn [skipn]. specialize (IH A). pose proof (max_run_tail a A). lia.
Qed.

(** A run of solid words after whitespace: its chunks stand together among
    the chunks of the text, after the chunks of what comes before, none of
    which is longer than the longest stretch there. *)
Lemma split_from_around (ws : list text) B :
  ws <> [] -> Forall (fun w : text => w <> [] /\ solid w = true) ws ->
  ws_start B = true ->
  forall fuel A prev,
  (length (A ++ join [space] ws ++ B) <= fuel)%nat -> ws_end A = true ->
  exists pre post,
    split_from fuel prev (A ++ join [space] ws ++ B) =
    pre ++ interleave ws ++ post /\ concat pre = A /\
    Forall (fun c : text => (length c <= max_run A)%nat) pre.
Proof.
  intros Hne Hws HB.
  destruct ws as [|w0 ws0] eqn:Ews; [contradiction|]. rewrite <- Ews in *.
  assert (Hw0 : exists x T, join [space] ws = x :: T /\ is_ws x = false).
  { rewrite Ews. destruct (join_space_head w0 ws0) as (T & -> & _).
    rewrite Ews in Hws. inversion Hws as [|? ? [Hw Hs] _]; subst.
    destruct w0 as [|x w0]; [contradiction|]. exists x, (w0 ++ T).
    split; [reflexivity|]. unfold solid in Hs. apply andb_true_iff in Hs.
    destruct Hs as [Hn _]. cbn [no_space forallb] in Hn.
    apply andb_true_iff in Hn. destruct Hn as [Hx _].
    apply negb_true_iff in Hx. exact (no_space_not_ws x Hx). }
  destruct Hw0 as (x & T & EJ & Hx).
  assert (Hne' : ws <> []) by (rewrite Ews; discriminate).
  clear Ews w0 ws0 Hne.
  induction fuel as [|fuel IH]; intros A prev Hl He.
  - rewrite !length_app, EJ in Hl. cbn [length] in Hl. lia.
  - destruct A as [|a A].
    + cbn [app] in *.
      destruct (split_from_item B HB ws (S fuel) prev Hne' Hws Hl)
        as (post & ->).
      exists [], post. split; [reflexivity|]. split; [reflexivity|constructor].
    + assert (HA : a :: A <> []) by discriminate.
      rewrite split_from_step by discriminate.
      set (n := match_len prev ((a :: A) ++ join [space] ws ++ B)).
      assert (Hm : (n <= length (a :: A))%nat).
      { unfold n. rewrite EJ, <- app_comm_cons.
        apply (match_len_ws_end prev (a :: A) x (T ++ B) HA He Hx). }
      assert (Hp : (1 <= n)%nat).
      { unfold n. rewrite <- app_comm_cons. apply match_len_pos. }
      assert (Hb : (n <= max_run (a :: A))%nat).
      { pose proof (match_len_runs prev ((a :: A) ++ join [space] ws ++ B))
          as Hr. fold n in Hr. rewrite EJ in Hr.
        change ((x :: T) ++ B) with (x :: (T ++ B)) in Hr.
        destruct (runs_before_word (a :: A) x (T ++ B) HA He Hx) as [E1 E2].
        rewrite E1, E2 in Hr. pose proof (runs_max_run (a :: A)). lia. }
      rewrite firstn_app, skipn_app.
      replace (n - length (a :: A))%nat with 0%nat by lia.
      cbn [firstn skipn]. rewrite app_nil_r.
      destruct (IH (skipn n (a :: A))
                  (rev (firstn n (a :: A)) ++ prev))
        as (pre & post & E & Hc & Hbound).
      * rewrite length_app, length_skipn.
        rewrite length_app in Hl. lia.
      * apply ws_end_skipn. exact He.
      * rewrite E. exists (firstn n (a :: A) :: pre), post.
        split; [reflexivity|]. split.
        -- cbn [concat]. rewrite Hc. apply firstn_skipn.
        -- constructor.
           ++ rewrite length_firstn. lia.
           ++ eapply Forall_impl; [|exact Hbound]. intros c Hcl.
              cbn beta in Hcl |- *.
              eapply Nat.le_trans; [exact Hcl|apply max_run_skipn].
Qed.

(** The longest stretch in a text of words, one space behind each. *)
Lemma nonws_run_word (w : text) c (R : text) :
  no_space w = true -> is_ws c = true ->
  nonws_run (w ++ c :: R) = length w.
Proof.
  intros Hn Hc. induction w as [|a w IH]; cbn [app nonws_run length].
  - rewrite Hc. reflexivity.
  - cbn [no_space forallb] in Hn. apply andb_true_iff in Hn.
    destruct Hn as [Ha Hn]. apply negb_true_iff in Ha.
    rewrite (no_space_not_ws a Ha), (IH Hn). reflexivity.
Qed.

Lemma max_run_word (w : text) (R : text) :
  no_space w = true ->
  (max_run (w ++ space :: R) <= Nat.max (length w) (max_run (space :: R)))%nat.
Proof.
  intros Hn. induction w as [|a w IH]; [cbn [app length]; lia|].
  pose proof (nonws_run_word (a :: w) space R Hn eq_refl) as Hr.
  cbn [no_space forallb] in Hn. apply andb_true_iff in Hn.
  destruct Hn as [Ha Hn]. apply negb_true_iff in Ha.
  specialize (IH Hn). remember (max_run (space :: R)) as m.
  cbn [app max_run] in *. rewrite Hr.
  cbn [ws_run]. rewrite (no_space_not_ws a Ha).
  cbn [length] in *. lia.
Qed.

Lemma max_run_space (R : text) :
  ws_run R = 0%nat -> max_run (space :: R) = Nat.max 1 (max_run R).
Proof.
  intros H. cbn [max_run ws_run nonws_run].
  change (is_ws space) with true. cbv iota. rewrite H. reflexivity.
Qed.

Lemma max_run_words L (ws : list text) :
  (1 <= L)%nat ->
  Forall (fun w : text => w <> [] /\ no_space w = true /\ (length w <= L)%nat)
    ws ->
  (max_run (join [space] ws ++ [space]) <= L)%nat.
Proof.
  intros HL. induction ws as [|w ws IH]; intros Hws.
  - cbn. lia.
  - inversion Hws as [|? ? (Hw & Hn & Hl) Hws']; subst.
    specialize (IH Hws'). destruct ws as [|w' ws].
    + cbn [join]. pose proof (max_run_word w [] Hn) as Hm.
      rewrite (max_run_space [] eq_refl) in Hm. cbn [max_run] in Hm. lia.
    + rewrite join_space_cons, <- app_assoc, <- app_comm_cons.
      pose proof (max_run_word w (join [space] (w' :: ws) ++ [space]) Hn) as Hm.
      inversion Hws' as [|? ? (Hw' & Hn' & _) _]; subst.
      assert (Hr : ws_run (join [space] (w' :: ws) ++ [space]) = 0%nat).
      { destruct (join_space_head w' ws) as (T & -> & _).
        rewrite <- app_assoc. apply no_space_head_not_ws; assumption. }
      rewrite (max_run_space _ Hr) in Hm. lia.
Qed.

End WordChunks.

(** ** textwrap: a run of words through one round of the loop *)

Section WrapWords.
Context {U : UnicodeDB}.
Local Open Scope nat_scope.

Lemma take_fitting_stop width : forall (chunks : list text) n line rest,
  take_fitting width n chunks = (line, rest) ->
  match rest with
  | [] => True
  | c :: _ => width < n + total_len line + length c
  end.
Proof.
  induction chunks as [|c cs IH]; intros n line rest H.
  - cbn in H. inversion H. exact I.
  - cbn [take_fitting] in H.
    destruct (n + length c <=? width) eqn:E.
    + destruct (take_fitting width (n + length c) cs) as [line' rest'] eqn:Et.
      inversion H. subst. apply IH in Et.
      destruct rest as [|d ds]; [exact I|].
      rewrite total_len_cons. lia.
    + apply Nat.leb_gt in E. inversion H. subst. cbn. lia.
Qed.

Lemma drop_trailing_blank_keep (a : list text) (c : text) (y : list text) :
  blank c = false ->
  exists y', drop_trailing_blank (a ++ c :: y) = a ++ c :: y'.
Proof.
  intros Hc. unfold drop_trailing_blank.
  assert (Er : rev (a ++ c :: y) = rev y ++ c :: rev a).
  { rewrite rev_app_distr. cbn [rev]. rewrite <- app_assoc. reflexivity. }
  rewrite Er. destruct (rev y) as [|z more] eqn:Ey.
  - cbn [app]. rewrite Hc. eexists. reflexivity.
  - cbn [app]. destruct (blank z).
    + exists (rev more). rewrite rev_app_distr. cbn [rev].
      rewrite rev_involutive, <- app_assoc. reflexivity.
    + eexists. reflexivity.
Qed.

Lemma drop_trailing_blank_last (a : list text) (z : text) :
  blank z = true -> drop_trailing_blank (a ++ [z]) = a.
Proof.
  intros Hz. unfold drop_trailing_blank. rewrite rev_app_distr. cbn [rev app].
  rewrite Hz. apply rev_involutive.
Qed.

Lemma interleave_last (ws : list text) :
  ws <> [] -> exists a w, interleave ws = a ++ [w] /\ In w ws.
Proof.
  induction ws as [|w ws IH]; [contradiction|]. intros _.
  destruct ws as [|w' ws].
  - exists [], w. split; [reflexivity|left; reflexivity].
  - destruct (IH ltac:(discriminate)) as (a & x & E & Hin).
    exists (w :: [space] :: a), x.
    change (interleave (w :: w' :: ws))
      with (w :: [space] :: interleave (w' :: ws)).
    rewrite E. split; [reflexivity|right; exact Hin].
Qed.

Lemma interleave_head (w : text) (ws : list text) :
  exists more, interleave (w :: ws) = w :: more.
Proof. destruct ws; eexists; reflexivity. Qed.

(** Where a run of words can be cut in two. *)
Lemma interleave_split (ws : list text) : forall (m m2 : list text),
  interleave ws = m ++ m2 -> m <> [] -> m2 <> [] ->
  exists ws1 ws2, ws = ws1 ++ ws2 /\ ws1 <> [] /\ ws2 <> [] /\
    ((m = interleave ws1 /\ m2 = [space] :: interleave ws2) \/
     (m = interleave ws1 ++ [[space]] /\ m2 = interleave ws2)).
Proof.
  induction ws as [|w ws IH]; intros m m2 E Hm Hm2.
  - destruct m; [contradiction|discriminate].
  - destruct ws as [|w' ws].
    + cbn [interleave] in E. destruct m as [|x m]; [contradiction|].
      destruct m; [|destruct m; discriminate].
      destruct m2; [contradiction|discriminate].
    + change (interleave (w :: w' :: ws))
        with (w :: [space] :: interleave (w' :: ws)) in E.
      destruct m as [|x m]; [contradiction|].
      inversion E as [[Hx E1]]. subst x. clear E.
      destruct m as [|y m].
      * cbn [app] in E1. subst m2.
        exists [w], (w' :: ws). repeat split; try discriminate.
        left. split; reflexivity.
      * inversion E1 as [[Hy E2]]. subst y. clear E1.
        destruct m as [|z m].
        -- cbn [app] in E2. subst m2.
           exists [w], (w' :: ws). repeat split; try discriminate.
           right. split; reflexivity.
        -- destruct (IH (z :: m) m2 E2 ltac:(discriminate) Hm2)
             as (ws1 & ws2 & Ews & H1 & H2 & Hc).
           exists (w :: ws1), ws2. rewrite Ews.
           split; [reflexivity|]. split; [discriminate|]. split; [exact H2|].
           destruct ws1 as [|v ws1]; [contradiction|].
           change (interleave (w :: v :: ws1))
             with (w :: [space] :: interleave (v :: ws1)).
           destruct Hc as [[-> ->]|[-> ->]]; [left|right]; split; reflexivity.
Qed.

Lemma line_of_chunks (l : list text) (ch3 : list text) :
  l <> [] ->
  match l with
  | [] => (None, ch3)
  | t :: l0 => (Some (concat (t :: l0)), ch3)
  end = (Some (concat l), ch3).
Proof. destruct l; [contradiction|reflexivity]. Qed.


Lemma total_len_interleave (ws : list text) :
  total_len (interleave ws) = length (join [space] ws).
Proof. unfold total_len. rewrite concat_interleave. reflexivity. Qed.

Lemma blank_space : blank [space] = true.
Proof. reflexivity. Qed.

(** One round of the loop on chunks that have a run of words among them:
    the round ends before the run, or puts the whole run on its line, or
    ends the line between two words of the run. *)
Lemma wrap_round_item width started (pre : list text) (ws : list text)
  (post : list text) ol chunks' :
  1 <= width -> ws <> [] ->
  Forall (fun w : text => w <> [] /\ blank w = false /\ length w <= width) ws ->
  wrap_round width started (pre ++ interleave ws ++ post) = (ol, chunks') ->
  exists pre1 : list text,
    ((pre1 = pre /\
      match pre with c0 :: _ => blank c0 && started = false | [] => True end) \/
     exists c0, pre = c0 :: pre1 /\ blank c0 = true /\ started = true) /\
    ((exists pre' : list text,
        chunks' = pre' ++ interleave ws ++ post /\
        ((exists (cur : list text) (c : text),
            In c pre1 /\ width < total_len cur + length c /\
            total_len cur + length c <= total_len pre1 /\
            total_len cur + total_len pre' <= total_len pre1) \/
         (pre' = [] /\ exists c, In c ws /\
            width < total_len pre1 + length c))) \/
     (exists Y, ol = Some (concat pre1 ++ join [space] ws ++ Y) /\
        total_len pre1 + length (join [space] ws) <= width) \/
     (exists (ws1 ws2 : list text) (ld : list text),
        ws = ws1 ++ ws2 /\ ws1 <> [] /\ ws2 <> [] /\
        ol = Some (concat pre1 ++ join [space] ws1) /\
        chunks' = ld ++ interleave ws2 ++ post /\
        (ld = [] \/ ld = [[space]]) /\
        total_len pre1 + length (join [space] ws1) <= width /\
        width < total_len pre1 + length (join [space] ws))).
Proof.
  intros Hw Hne Hws. unfold wrap_round.
  set (chunks1 := match pre ++ interleave ws ++ post with
                  | c :: cs => if blank c && started then cs
                               else pre ++ interleave ws ++ post
                  | [] => pre ++ interleave ws ++ post
                  end).
  assert (H1 : exists pre1 : list text,
            chunks1 = pre1 ++ interleave ws ++ post /\
            ((pre1 = pre /\
              match pre with
              | c0 :: _ => blank c0 && started = false
              | [] => True
              end) \/
             exists c0, pre = c0 :: pre1 /\ blank c0 = true /\ started = true)).
  { subst chunks1. destruct pre as [|c0 pre0].
    - exists []. split; [|left; split; [reflexivity|exact I]].
      destruct ws as [|w ws']; [contradiction|].
      destruct (interleave_head w ws') as (more & ->).
      inversion Hws as [|? ? (_ & Hb & _) _]; subst.
      cbn [app]. rewrite Hb. reflexivity.
    - cbn [app]. destruct (blank c0 && started) eqn:E.
      + apply andb_true_iff in E. destruct E as [E1 E2].
        exists pre0. split; [reflexivity|]. right. exists c0. auto.
      + exists (c0 :: pre0). split; [reflexivity|].
        left. split; reflexivity. }
  destruct H1 as (pre1 & E1 & Hpre1). rewrite E1. clear E1. clearbody chunks1.
  exists pre1. split; [exact Hpre1|]. clear Hpre1 chunks1.
  destruct (take_fitting width 0 (pre1 ++ interleave ws ++ post))
    as [cur rest] eqn:E.
  pose proof (take_fitting_app _ _ _ _ _ E) as Happ.
  pose proof (take_fitting_bound width _ 0 _ _ (Nat.le_0_l _) E) as Hfit.
  pose proof (take_fitting_stop width _ 0 _ _ E) as Hstop.
  cbn [Nat.add] in Hfit, Hstop. clear E.
  assert (Hitem : forall w, In w ws -> blank w = false /\ length w <= width).
  { intros w Hin. rewrite Forall_forall in Hws. apply Hws in Hin. tauto. }
  assert (Hcases :
    (exists l, pre1 = cur ++ l /\ rest = l ++ interleave ws ++ post) \/
    (exists l2, cur = pre1 ++ interleave ws ++ l2 /\ post = l2 ++ rest) \/
    (exists l l2, l <> [] /\ l2 <> [] /\ cur = pre1 ++ l /\
       interleave ws = l ++ l2 /\ rest = l2 ++ post)).
  { apply app_eq_app in Happ. destruct Happ as (l & [[Ep Er]|[Ec Ei]]).
    - left. exists l. split; assumption.
    - destruct l as [|x l].
      + left. exists []. rewrite app_nil_r in Ec. subst cur.
        rewrite app_nil_r. split; [reflexivity|]. symmetry. exact Ei.
      + apply app_eq_app in Ei. destruct Ei as (l2 & [[Ea Eb]|[Ea Eb]]).
        * destruct l2 as [|y l2].
          -- right. left. exists []. rewrite app_nil_r in Ea. cbn [app] in Eb.
             subst rest. rewrite Ea, app_nil_r. split; [exact Ec|reflexivity].
          -- right. right. exists (x :: l), (y :: l2).
             repeat split; try discriminate; assumption.
        * right. left. exists l2. rewrite Ec, Ea. split; [reflexivity|exact Eb]. }
  clear Happ.
  destruct Hcases as [(l & Ep & Er)|[(l2 & Ec & Ep)|(l & l2 & Hl & Hl2 & Ec & Ei & Er)]].
  - (* the round ends before the run *)
    left. destruct l as [|c l'].
    + destruct ws as [|w ws']; [contradiction|].
      destruct (interleave_head w ws') as (more & Em).
      rewrite Em in Er. cbn [app] in Er. subst rest.
      destruct (Hitem w (or_introl eq_refl)) as [_ Hlw].
      replace (width <? length w) with false in H
        by (symmetry; apply Nat.ltb_ge; exact Hlw).
      exists [].
      assert (Ech : chunks' = w :: more ++ post).
      { destruct (drop_trailing_blank cur); inversion H; reflexivity. }
      rewrite Ech, Em. rewrite app_nil_r in Ep. subst pre1.
      split; [reflexivity|]. right. split; [reflexivity|].
      exists w. split; [left; reflexivity|exact Hstop].
    + cbn [app] in Er. subst rest.
      assert (Hin : In c pre1).
      { rewrite Ep. apply in_or_app. right. left. reflexivity. }
      assert (Htl : total_len pre1 = total_len cur + (length c + total_len l')).
      { rewrite Ep, total_len_app, total_len_cons. reflexivity. }
      destruct (width <? length c) eqn:Elong.
      * destruct (handle_long_word c (total_len cur) width)
          as [piece left] eqn:Eh.
        apply handle_long_word_app in Eh.
        exists (left :: l').
        assert (Ech : chunks' = left :: l' ++ interleave ws ++ post).
        { destruct (drop_trailing_blank (cur ++ [piece])); inversion H;
            reflexivity. }
        rewrite Ech. split; [reflexivity|]. left. exists cur, c.
        split; [exact Hin|]. split; [exact Hstop|].
        rewrite Htl, total_len_cons.
        assert (length left <= length c)
          by (rewrite Eh, length_app; lia).
        lia.
      * exists (c :: l').
        assert (Ech : chunks' = c :: l' ++ interleave ws ++ post).
        { destruct (drop_trailing_blank cur); inversion H; reflexivity. }
        rewrite Ech. split; [reflexivity|]. left. exists cur, c.
        split; [exact Hin|]. split; [exact Hstop|].
        rewrite Htl, total_len_cons. lia.
  - (* the whole run is on the line *)
    right. left.
    assert (Hgen : forall (tail ch3 : list text),
      match drop_trailing_blank (pre1 ++ interleave ws ++ tail) with
      | [] => (None, ch3)
      | t :: l0 => (Some (concat (t :: l0)), ch3)
      end = (ol, chunks') ->
      exists Y, ol = Some (concat pre1 ++ join [space] ws ++ Y)).
    { intros tail ch3 Hm.
      destruct (interleave_last ws Hne) as (a & wl & Ea & Hin).
      destruct (Hitem wl Hin) as [Hb _].
      assert (Er : pre1 ++ interleave ws ++ tail = (pre1 ++ a) ++ wl :: tail).
      { rewrite Ea, <- !app_assoc. reflexivity. }
      rewrite Er in Hm.
      destruct (drop_trailing_blank_keep (pre1 ++ a) wl tail Hb) as (y' & Ed).
      rewrite Ed in Hm. rewrite line_of_chunks in Hm
        by (destruct (pre1 ++ a); discriminate).
      inversion Hm. exists (concat y').
      rewrite !concat_app. cbn [concat].
      rewrite <- concat_interleave, Ea, concat_app. cbn [concat].
      rewrite app_nil_r, <- !app_assoc. reflexivity. }
    assert (Hb : total_len pre1 + length (join [space] ws) <= width).
    { rewrite Ec, !total_len_app, total_len_interleave in Hfit. lia. }
    rewrite Ec in H.
    destruct rest as [|c cs].
    + destruct (Hgen l2 [] H) as (Y & HY). exists Y. split; assumption.
    + destruct (width <? length c).
      * destruct (handle_long_word c
                    (total_len (pre1 ++ interleave ws ++ l2)) width)
          as [piece left] eqn:Eh.
        rewrite <- !app_assoc in H.
        destruct (Hgen (l2 ++ [piece]) _ H) as (Y & HY).
        exists Y. split; assumption.
      * destruct (Hgen l2 _ H) as (Y & HY). exists Y. split; assumption.
  - (* the line ends inside the run *)
    right. right.
    destruct (interleave_split ws l l2 Ei Hl Hl2)
      as (ws1 & ws2 & Ews & H1 & H2 & Hshape).
    exists ws1, ws2.
    assert (Hin1 : forall w, In w ws1 -> In w ws).
    { intros w Hin. rewrite Ews. apply in_or_app. left. exact Hin. }
    assert (Hin2 : forall w, In w ws2 -> In w ws).
    { intros w Hin. rewrite Ews. apply in_or_app. right. exact Hin. }
    assert (Hline : drop_trailing_blank (pre1 ++ l) = pre1 ++ interleave ws1).
    { destruct (interleave_last ws1 H1) as (a & wl & Ea & Hin).
      destruct (Hitem wl (Hin1 wl Hin)) as [Hb _].
      assert (Hkeep : drop_trailing_blank (pre1 ++ interleave ws1) =
                      pre1 ++ interleave ws1).
      { rewrite Ea, app_assoc.
        destruct (drop_trailing_blank_keep (pre1 ++ a) wl [] Hb) as (y' & Ed).
        unfold drop_trailing_blank in *. rewrite rev_app_distr in *.
        cbn [rev app] in *. rewrite Hb. reflexivity. }
      destruct Hshape as [[-> _]|[-> _]]; [exact Hkeep|].
      rewrite app_assoc. apply drop_trailing_blank_last. reflexivity. }
    assert (Hhead : exists h more, l2 = h :: more /\ length h <= width /\
                      length h <= total_len l2).
    { destruct Hshape as [[_ ->]|[_ ->]].
      - exists [space], (interleave ws2). split; [reflexivity|].
        split; [cbn; lia|]. rewrite total_len_cons. lia.
      - destruct ws2 as [|w2 ws2']; [contradiction|].
        destruct (interleave_head w2 ws2') as (more & ->).
        exists w2, more. split; [reflexivity|].
        destruct (Hitem w2 (Hin2 w2 (or_introl eq_refl))) as [_ Hlw].
        split; [exact Hlw|]. rewrite total_len_cons. lia. }
    destruct Hhead as (h & more & Eh & Hh & Hh2).
    rewrite Er, Eh in H, Hstop. cbn [app] in H, Hstop.
    replace (width <? length h) with false in H
      by (symmetry; apply Nat.ltb_ge; exact Hh).
    rewrite Ec, Hline in H.
    rewrite line_of_chunks in H.
    2:{ destruct ws1 as [|w1 ws1']; [contradiction|].
        destruct (interleave_head w1 ws1') as (m1 & ->).
        destruct pre1; discriminate. }
    inversion H as [[Hol Hch]].
    assert (Hl1 : length (join [space] ws1) <= total_len l).
    { rewrite <- total_len_interleave.
      destruct Hshape as [[-> _]|[-> _]]; [lia|].
      rewrite total_len_app. lia. }
    assert (Htot : total_len l + total_len l2 = length (join [space] ws)).
    { rewrite <- total_len_interleave, Ei, total_len_app. reflexivity. }
    rewrite Ec, total_len_app in Hfit, Hstop.
    assert (Hld : exists ld : list text,
              h :: more ++ post = ld ++ interleave ws2 ++ post /\
              (ld = [] \/ ld = [[space]])).
    { rewrite app_comm_cons, <- Eh.
      destruct Hshape as [[_ ->]|[_ ->]].
      - exists [[space]]. split; [reflexivity|right; reflexivity].
      - exists []. split; [reflexivity|left; reflexivity]. }
    destruct Hld as (ld & Eld & Hld).
    exists ld.
    split; [exact Ews|]. split; [exact H1|]. split; [exact H2|].
    split; [rewrite concat_app, concat_interleave; reflexivity|].
    split; [exact Eld|]. split; [exact Hld|].
    split; [lia|]. lia.
Qed.

End WrapWords.

(** ** textwrap: a run of words through the loop *)

Section WrapRuns.
Context {U : UnicodeDB}.
Local Open Scope nat_scope.

Lemma unbreak_app (a b : text) : unbreak (a ++ b) = unbreak a ++ unbreak b.
Proof. apply map_app. Qed.

Lemma unbreak_lacks (t : text) : lacks newline t = true -> unbreak t = t.
Proof.
  induction t as [|c t IH]; [reflexivity|].
  cbn [lacks forallb]. intros H. apply andb_true_iff in H.
  destruct H as [Hc Ht]. cbn [unbreak map]. fold (unbreak t).
  rewrite (IH Ht). destruct (c =? newline)%N; [discriminate|reflexivity].
Qed.

Lemma unbreak_substr (p t : text) : substr p t -> substr (unbreak p) (unbreak t).
Proof.
  intros (a & b & ->). exists (unbreak a), (unbreak b).
  rewrite !unbreak_app. reflexivity.
Qed.

Lemma lacks_join_space (ws : list text) :
  Forall (fun w : text => lacks newline w = true) ws ->
  lacks newline (join [space] ws) = true.
Proof.
  intros H. apply chk_join; [apply lacks_closed|reflexivity|exact H].
Qed.

Lemma join_newline_cons (l : text) (L : list text) :
  L <> [] -> join [newline] (l :: L) = l ++ newline :: join [newline] L.
Proof. destruct L; [contradiction|reflexivity]. Qed.

Lemma join_cons_prefix (sep l : text) (L : list text) :
  exists more, join sep (l :: L) = l ++ more.
Proof.
  destruct L; [exists []; cbn; symmetry; apply app_nil_r|].
  eexists. reflexivity.
Qed.

Lemma substr_join_tail (sep t l : text) (L : list text) :
  substr t (join sep L) -> t <> [] -> substr t (join sep (l :: L)).
Proof.
  intros H Ht. destruct L as [|l' L].
  - cbn in H. destruct H as (a & b & H).
    destruct a; [destruct t; [contradiction|discriminate]|discriminate].
  - change (join sep (l :: l' :: L)) with (l ++ sep ++ join sep (l' :: L)).
    apply substr_app_r, substr_app_r. exact H.
Qed.

Lemma word_in_join (ws : list text) (c : text) :
  In c ws -> length c <= length (join [space] ws).
Proof.
  intros Hin. destruct (substr_join [space] c ws Hin) as (a & b & ->).
  rewrite !length_app. lia.
Qed.

Lemma wordy_nonempty width (ws : list text) :
  Forall (fun w : text => w <> [] /\ blank w = false /\ length w <= width) ws ->
  Forall (fun w : text => w <> []) ws.
Proof. apply Forall_impl. tauto. Qed.

Lemma interleave_nonempty (ws : list text) :
  Forall (fun w : text => w <> []) ws ->
  Forall (fun c : text => c <> []) (interleave ws).
Proof.
  induction ws as [|w ws IH]; intros H; [constructor|].
  inversion H; subst. destruct ws as [|w' ws]; [repeat constructor; assumption|].
  change (interleave (w :: w' :: ws))
    with (w :: [space] :: interleave (w' :: ws)).
  constructor; [assumption|]. constructor; [discriminate|]. apply IH. assumption.
Qed.


Lemma wrap_loop_step fuel width started (chunks : list text) :
  chunks <> [] ->
  wrap_loop (S fuel) width started chunks =
  match wrap_round width started chunks with
  | (Some line, chunks') => line :: wrap_loop fuel width true chunks'
  | (None, chunks') => wrap_loop fuel width started chunks'
  end.
Proof. destruct chunks; [contradiction|reflexivity]. Qed.

(** A run of words at the start of a line: the text from there on begins
    with the words in order, with a space or a line break between two
    neighbours. *)
Lemma wrap_loop_run_start width (post : list text) :
  1 <= width -> Forall (fun c : text => c <> []) post ->
  forall fuel (ws : list text) started (ld : list text),
  ws <> [] -> Forall (fun w : text => w <> [] /\ blank w = false /\ length w <= width) ws ->
  Forall (fun w : text => lacks newline w = true) ws ->
  (ld = [] \/ (ld = [[space]] /\ started = true)) ->
  total_len (ld ++ interleave ws ++ post) < fuel ->
  exists t rest,
    join [newline] (wrap_loop fuel width started (ld ++ interleave ws ++ post))
    = t ++ rest /\
    unbreak t = join [space] ws.
Proof.
  intros Hw Hpost. induction fuel as [|fuel IH];
    intros ws started ld Hne Hws Hnl Hld Hfuel; [lia|].
  assert (Hall : Forall (fun c : text => c <> [])
                   (ld ++ interleave ws ++ post)).
  { apply Forall_app. split.
    - destruct Hld as [->|[-> _]]; repeat constructor. discriminate.
    - apply Forall_app. split; [|exact Hpost].
      apply interleave_nonempty. apply (wordy_nonempty width). exact Hws. }
  assert (Hcons : ld ++ interleave ws ++ post <> []).
  { destruct ws as [|w ws']; [contradiction|].
    destruct (interleave_head w ws') as (more & ->).
    destruct ld; discriminate. }
  rewrite wrap_loop_step by exact Hcons.
  destruct (wrap_round width started (ld ++ interleave ws ++ post))
    as [ol chunks'] eqn:Er.
  pose proof (wrap_round_progress width started _ ol chunks' Hw
                Hcons Hall Er) as [Hprog Hall'].
  destruct (wrap_round_item width started ld ws post ol chunks' Hw Hne Hws Er)
    as (pre1 & Hpre1 & Hcase).
  assert (Ep : pre1 = []).
  { destruct Hld as [->|[-> Hst]].
    - destruct Hpre1 as [[-> _]|(c & Hc & _)]; [reflexivity|discriminate].
    - destruct Hpre1 as [[_ Hb]|(c & Hc & _)].
      + rewrite Hst in Hb. discriminate.
      + inversion Hc. reflexivity. }
  subst pre1. cbn [total_len concat length app] in Hcase.
  assert (Hjl : lacks newline (join [space] ws) = true)
    by (apply lacks_join_space; exact Hnl).
  destruct Hcase as [(pre' & _ & Hc)|[(Y & Eol & _)|Hc]]; try subst ol.
  - exfalso. destruct Hc as [(cur & c & [] & _)|(_ & c & Hin & Hlt)].
    rewrite Forall_forall in Hws. apply Hws in Hin. lia.
  - destruct (join_cons_prefix [newline] (join [space] ws ++ Y)
                (wrap_loop fuel width true chunks')) as (more & ->).
    exists (join [space] ws), (Y ++ more).
    split; [rewrite <- app_assoc; reflexivity|].
    apply unbreak_lacks. exact Hjl.
  - destruct Hc as (ws1 & ws2 & ld' & Ews & H1 & H2 & Eol & Ech' & Hld' & _).
    subst ol chunks'.
    assert (Hws2 : Forall (fun w : text => w <> [] /\ blank w = false /\ length w <= width) ws2).
    { rewrite Ews in Hws. apply Forall_app in Hws. apply Hws. }
    assert (Hnl1 : Forall (fun w : text => lacks newline w = true) ws1).
    { rewrite Ews in Hnl. apply Forall_app in Hnl. apply Hnl. }
    assert (Hnl2 : Forall (fun w : text => lacks newline w = true) ws2).
    { rewrite Ews in Hnl. apply Forall_app in Hnl. apply Hnl. }
    destruct (IH ws2 true ld' H2 Hws2 Hnl2) as (t2 & rest2 & Et & Hu).
    { destruct Hld' as [E'|E']; subst ld'; [left; reflexivity|right; split; reflexivity]. }
    { lia. }
    assert (Ht2 : t2 <> []).
    { intros ->. cbn in Hu. symmetry in Hu. revert Hu.
      apply join_space_nonempty; [exact H2|].
      apply (wordy_nonempty width). exact Hws2. }
    rewrite join_newline_cons.
    2:{ intros EL. rewrite EL in Et. cbn in Et.
        destruct t2; [contradiction|discriminate]. }
    rewrite Et.
    exists (join [space] ws1 ++ newline :: t2), rest2.
    split; [rewrite <- app_assoc; reflexivity|].
    rewrite unbreak_app. cbn [unbreak map]. fold (unbreak t2).
    rewrite Hu, (unbreak_lacks _ (lacks_join_space ws1 Hnl1)), Ews.
    rewrite N.eqb_refl. symmetry. apply join_space_app; assumption.
Qed.


Lemma run_chunks_nonempty (pre : list text) (ws : list text) (post : list text) :
  ws <> [] -> pre ++ interleave ws ++ post <> [].
Proof.
  intros Hne. destruct ws as [|w ws']; [contradiction|].
  destruct (interleave_head w ws') as (more & ->).
  destruct pre; discriminate.
Qed.

(** A run of words among the chunks: the wrapped text has the words in
    order, with a space or a line break between two neighbours. *)
Lemma wrap_loop_run width (ws : list text) (post : list text) :
  1 <= width -> ws <> [] -> Forall (fun w : text => w <> [] /\ blank w = false /\ length w <= width) ws ->
  Forall (fun w : text => lacks newline w = true) ws ->
  forall fuel started (pre : list text),
  Forall (fun c : text => c <> []) (pre ++ interleave ws ++ post) ->
  total_len (pre ++ interleave ws ++ post) < fuel ->
  exists t,
    substr t (join [newline]
                (wrap_loop fuel width started (pre ++ interleave ws ++ post))) /\
    unbreak t = join [space] ws.
Proof.
  intros Hw Hne Hws Hnl.
  assert (Hjn : join [space] ws <> []).
  { apply join_space_nonempty; [exact Hne|].
    apply (wordy_nonempty width). exact Hws. }
  induction fuel as [|fuel IH]; intros started pre Hall Hfuel; [lia|].
  pose proof (run_chunks_nonempty pre ws post Hne) as Hcons.
  rewrite wrap_loop_step by exact Hcons.
  destruct (wrap_round width started (pre ++ interleave ws ++ post))
    as [ol chunks'] eqn:Er.
  pose proof (wrap_round_progress width started _ ol chunks' Hw
                Hcons Hall Er) as [Hprog Hall'].
  destruct (wrap_round_item width started pre ws post ol chunks' Hw Hne Hws Er)
    as (pre1 & _ & Hcase).
  destruct Hcase as [(pre' & Ech & _)|[(Y & Eol & _)|Hc]].
  - subst chunks'.
    destruct ol as [line|].
    + destruct (IH true pre' Hall' ltac:(lia)) as (t & Hs & Hu).
      exists t. split; [|exact Hu].
      apply substr_join_tail; [exact Hs|].
      intros ->. cbn in Hu. symmetry in Hu. contradiction.
    + destruct (IH started pre' Hall' ltac:(lia)) as (t & Hs & Hu).
      exists t. split; assumption.
  - subst ol. exists (join [space] ws).
    split; [|apply unbreak_lacks, lacks_join_space; exact Hnl].
    destruct (join_cons_prefix [newline] (concat pre1 ++ join [space] ws ++ Y)
                (wrap_loop fuel width true chunks')) as (more & ->).
    exists (concat pre1), (Y ++ more). rewrite <- !app_assoc. reflexivity.
  - destruct Hc as (ws1 & ws2 & ld' & Ews & H1 & H2 & Eol & Ech' & Hld' & _).
    subst ol chunks'.
    assert (Hws2 : Forall (fun w : text => w <> [] /\ blank w = false /\ length w <= width) ws2).
    { rewrite Ews in Hws. apply Forall_app in Hws. apply Hws. }
    assert (Hnl1 : Forall (fun w : text => lacks newline w = true) ws1).
    { rewrite Ews in Hnl. apply Forall_app in Hnl. apply Hnl. }
    assert (Hnl2 : Forall (fun w : text => lacks newline w = true) ws2).
    { rewrite Ews in Hnl. apply Forall_app in Hnl. apply Hnl. }
    assert (Hpost : Forall (fun c : text => c <> []) post).
    { apply Forall_app in Hall. destruct Hall as [_ Hall].
      apply Forall_app in Hall. apply Hall. }
    destruct (wrap_loop_run_start width post Hw Hpost fuel ws2 true ld'
                H2 Hws2 Hnl2) as (t2 & rest2 & Et & Hu).
    { destruct Hld' as [E'|E']; subst ld';
        [left; reflexivity|right; split; reflexivity]. }
    { lia. }
    assert (Ht2 : t2 <> []).
    { intros ->. cbn in Hu. symmetry in Hu. revert Hu.
      apply join_space_nonempty; [exact H2|].
      apply (wordy_nonempty width). exact Hws2. }
    rewrite join_newline_cons.
    2:{ intros EL. rewrite EL in Et. cbn in Et.
        destruct t2; [contradiction|discriminate]. }
    rewrite Et.
    exists (join [space] ws1 ++ newline :: t2). split.
    + exists (concat pre1), rest2. rewrite <- !app_assoc. reflexivity.
    + rewrite unbreak_app. cbn [unbreak map]. fold (unbreak t2).
      rewrite Hu, (unbreak_lacks _ (lacks_join_space ws1 Hnl1)), Ews.
      rewrite N.eqb_refl. symmetry. apply join_space_app; assumption.
Qed.

(** A run of words that fits the line with what stands before it is on the
    line as it is. *)
Lemma wrap_loop_run_fits width (ws : list text) (post : list text) fuel
  started (pre : list text) :
  1 <= width -> ws <> [] -> Forall (fun w : text => w <> [] /\ blank w = false /\ length w <= width) ws ->
  total_len pre + length (join [space] ws) <= width ->
  substr (join [space] ws)
    (join [newline]
       (wrap_loop (S fuel) width started (pre ++ interleave ws ++ post))).
Proof.
  intros Hw Hne Hws Hfit.
  pose proof (run_chunks_nonempty pre ws post Hne) as Hcons.
  rewrite wrap_loop_step by exact Hcons.
  destruct (wrap_round width started (pre ++ interleave ws ++ post))
    as [ol chunks'] eqn:Er.
  destruct (wrap_round_item width started pre ws post ol chunks' Hw Hne Hws Er)
    as (pre1 & Hpre1 & Hcase).
  assert (Hp : total_len pre1 <= total_len pre).
  { destruct Hpre1 as [[-> _]|(c0 & -> & _)]; [lia|].
    rewrite total_len_cons. lia. }
  destruct Hcase as [(pre' & _ & Hc)|[(Y & Eol & _)|Hc]].
  - exfalso. destruct Hc as [(cur & c & _ & H1 & H2 & _)|(_ & c & Hin & Hlt)].
    + lia.
    + pose proof (word_in_join ws c Hin). lia.
  - subst ol.
    destruct (join_cons_prefix [newline] (concat pre1 ++ join [space] ws ++ Y)
                (wrap_loop fuel width true chunks')) as (more & ->).
    exists (concat pre1), (Y ++ more). rewrite <- !app_assoc. reflexivity.
  - exfalso.
    destruct Hc as (ws1 & ws2 & ld' & _ & _ & _ & _ & _ & _ & _ & Hlt). lia.
Qed.

(** A run of words behind more than a line of chunks, none of them long: when
    the rest of the first line, the run and the longest chunk fit a second
    line, the run is on the second line as it is. *)
Lemma wrap_loop_run_second width (ws : list text) (post : list text) fuel
  (pre : list text) (L : nat) :
  1 <= width -> ws <> [] -> Forall (fun w : text => w <> [] /\ blank w = false /\ length w <= width) ws ->
  width < total_len pre ->
  Forall (fun c : text => length c <= L) pre ->
  total_len pre + length (join [space] ws) + L <= 2 * width + 1 ->
  substr (join [space] ws)
    (join [newline]
       (wrap_loop (S (S fuel)) width false (pre ++ interleave ws ++ post))).
Proof.
  intros Hw Hne Hws Hlong HL Hfit.
  assert (Hjn : join [space] ws <> []).
  { apply join_space_nonempty; [exact Hne|].
    apply (wordy_nonempty width). exact Hws. }
  pose proof (run_chunks_nonempty pre ws post Hne) as Hcons.
  rewrite wrap_loop_step by exact Hcons.
  destruct (wrap_round width false (pre ++ interleave ws ++ post))
    as [ol chunks'] eqn:Er.
  destruct (wrap_round_item width false pre ws post ol chunks' Hw Hne Hws Er)
    as (pre1 & Hpre1 & Hcase).
  assert (Ep : pre1 = pre).
  { destruct Hpre1 as [[-> _]|(c0 & _ & _ & Hst)]; [reflexivity|discriminate]. }
  subst pre1.
  destruct Hcase as [(pre' & Ech & Hc)|[(Y & _ & Hb)|Hc]].
  - subst chunks'.
    assert (Hfit' : total_len pre' + length (join [space] ws) <= width).
    { destruct Hc as [(cur & c & Hin & H1 & H2 & H3)|(-> & _)].
      - rewrite Forall_forall in HL. apply HL in Hin. lia.
      - cbn. lia. }
    destruct ol as [line|].
    + apply substr_join_tail; [|exact Hjn].
      apply wrap_loop_run_fits; assumption.
    + apply wrap_loop_run_fits; assumption.
  - exfalso. lia.
  - exfalso.
    destruct Hc as (ws1 & ws2 & ld' & _ & _ & _ & _ & _ & _ & Hb & _). lia.
Qed.

End WrapRuns.

(** ** textwrap: a run of words in a filled text *)

Section FillRuns.
Context {U : UnicodeDB}.
Local Open Scope nat_scope.

Lemma no_space_plain (w : text) : no_space w = true -> plain w = true.
Proof.
  induction w as [|c w IH]; [reflexivity|].
  cbn [no_space plain forallb]. intros H. apply andb_true_iff in H.
  destruct H as [Hc Hw]. apply negb_true_iff in Hc.
  rewrite (no_space_not_ws c Hc). cbn. apply IH. exact Hw.
Qed.

Lemma no_space_lacks_newline (w : text) :
  no_space w = true -> lacks newline w = true.
Proof.
  induction w as [|c w IH]; [reflexivity|].
  cbn [no_space lacks forallb]. intros H. apply andb_true_iff in H.
  destruct H as [Hc Hw]. apply andb_true_iff. split; [|exact (IH Hw)].
  destruct (c =? newline)%N eqn:E; [|reflexivity].
  apply N.eqb_eq in E. subst c. discriminate.
Qed.

Lemma no_space_not_blank (w : text) :
  w <> [] -> no_space w = true -> blank w = false.
Proof.
  intros Hne H. destruct w as [|c w]; [contradiction|].
  cbn [no_space forallb] in H. apply andb_true_iff in H.
  destruct H as [Hc _]. apply negb_true_iff in Hc.
  cbn [blank forallb]. rewrite Hc. reflexivity.
Qed.

Lemma map_to_space_plain (t : text) : plain t = true -> map to_space t = t.
Proof.
  induction t as [|c t IH]; [reflexivity|].
  cbn [plain forallb]. intros H. apply andb_true_iff in H.
  destruct H as [Hc Ht]. cbn [map]. rewrite (IH Ht). f_equal.
  unfold to_space. destruct (is_ws c); [|reflexivity].
  cbn in Hc. apply N.eqb_eq in Hc. symmetry. exact Hc.
Qed.

Lemma plain_join_space (ws : list text) :
  Forall (fun w : text => w <> [] /\ solid w = true) ws ->
  plain (join [space] ws) = true.
Proof.
  intros H. apply chk_join; [apply plain_closed|reflexivity|].
  eapply Forall_impl; [|exact H]. intros w [_ Hs]. apply no_space_plain.
  unfold solid in Hs. apply andb_true_iff in Hs. apply Hs.
Qed.

(** Whitespace handling leaves a run of solid words where it is. *)
Lemma munge_around_run A (ws : list text) B :
  Forall (fun w : text => w <> [] /\ solid w = true) ws ->
  ws_end A = true -> ws_start B = true ->
  exists A' B',
    munge_whitespace (A ++ join [space] ws ++ B) = A' ++ join [space] ws ++ B' /\
    ws_end A' = true /\ ws_start B' = true /\ (plain A = true -> A' = A).
Proof.
  intros Hws HA HB. pose proof (plain_join_space ws Hws) as Hp.
  rewrite munge_whitespace_eq.
  destruct (expandtabs_from_app A 0 (join [space] ws ++ B)) as (c1 & ->).
  destruct (expandtabs_from_app (join [space] ws) c1 B) as (c2 & ->).
  rewrite (plain_expandtabs _ c1 Hp), !map_app, (map_to_space_plain _ Hp).
  eexists _, _. split; [reflexivity|]. split; [|split].
  - apply ws_end_munged, HA.
  - apply ws_start_munged, HB.
  - intros HpA. apply (plain_munge A HpA).
Qed.

(** The chunks of a text with a run of solid words in it. *)
Lemma split_chunks_run A (ws : list text) B :
  ws <> [] -> Forall (fun w : text => w <> [] /\ solid w = true) ws ->
  ws_end A = true -> ws_start B = true ->
  exists (pre post : list text),
    split_chunks (A ++ join [space] ws ++ B) = pre ++ interleave ws ++ post /\
    (plain A = true ->
     concat pre = A /\ Forall (fun c : text => length c <= max_run A) pre).
Proof.
  intros Hne Hws HA HB.
  destruct (munge_around_run A ws B Hws HA HB) as (A' & B' & Em & HA' & HB' & Hpl).
  unfold split_chunks, split_text. rewrite Em.
  destruct (split_from_around ws B' Hne Hws HB' _ A' [] (Nat.le_refl _) HA')
    as (pre & post & E & Hc & Hb).
  exists pre, post. split; [exact E|]. intros HpA.
  rewrite <- (Hpl HpA). split; assumption.
Qed.

(** A run of solid words that fit the width, standing between whitespace or
    at an end of the text, is in the filled text with a space or a line break
    between two neighbours. *)
Lemma fill_keeps_run width A (ws : list text) B :
  1 <= width -> ws <> [] ->
  Forall (fun w : text => w <> [] /\ solid w = true /\ length w <= width) ws ->
  ws_end A = true -> ws_start B = true ->
  substr (join [space] ws) (unbreak (fill width (A ++ join [space] ws ++ B))).
Proof.
  intros Hw Hne Hws HA HB.
  assert (Hws1 : Forall (fun w : text => w <> [] /\ solid w = true) ws).
  { eapply Forall_impl; [|exact Hws]. intros w (H1 & H2 & _). split; assumption. }
  assert (Hws2 : Forall (fun w : text =>
                           w <> [] /\ blank w = false /\ length w <= width) ws).
  { eapply Forall_impl; [|exact Hws]. intros w (H1 & H2 & H3).
    split; [exact H1|]. split; [|exact H3]. apply no_space_not_blank; [exact H1|].
    unfold solid in H2. apply andb_true_iff in H2. apply H2. }
  assert (Hnl : Forall (fun w : text => lacks newline w = true) ws).
  { eapply Forall_impl; [|exact Hws]. intros w (_ & H2 & _).
    apply no_space_lacks_newline. unfold solid in H2.
    apply andb_true_iff in H2. apply H2. }
  destruct (split_chunks_run A ws B Hne Hws1 HA HB) as (pre & post & E & _).
  unfold fill, wrap, wrap_chunks. 
  assert (Hall : Forall (fun c : text => c <> [])
                   (split_chunks (A ++ join [space] ws ++ B)))
    by apply split_from_nonempty.
  rewrite E in *.
  destruct (wrap_loop_run width ws post Hw Hne Hws2 Hnl _ false pre Hall
              (Nat.lt_succ_diag_r _)) as (t & Hs & Hu).
  rewrite <- Hu. apply unbreak_substr. exact Hs.
Qed.

End FillRuns.

(** ** Entries of several words in a filled text *)

Section SpacedItems.
Context {U : UnicodeDB}.
Local Open Scope nat_scope.

Lemma spaced_words width (x : text) :
  spaced width x = true ->
  Forall (fun w : text => w <> [] /\ solid w = true /\ length w < width)
    (words_of x).
Proof.
  unfold spaced. intros H. rewrite forallb_forall in H.
  apply Forall_forall. intros w Hin. apply H in Hin.
  unfold short_word in Hin. apply andb_true_iff in Hin.
  destruct Hin as [Hin Hl]. apply andb_true_iff in Hin.
  destruct Hin as [Hn Hs]. apply Nat.ltb_lt in Hl.
  split; [|split; assumption].
  intros ->. discriminate.
Qed.

(** A full stop or a comma behind the last word of a run. *)
Lemma join_snoc_last (ws : list text) (p : char) :
  ws <> [] ->
  exists (ws0 : list text) (wl : text),
    ws = ws0 ++ [wl] /\
    join [space] (ws0 ++ [wl ++ [p]]) = join [space] ws ++ [p].
Proof.
  intros Hne. destruct (exists_last Hne) as (ws0 & wl & ->).
  exists ws0, wl. split; [reflexivity|].
  destruct ws0 as [|w0 ws0]; [reflexivity|].
  rewrite !join_space_app by discriminate.
  cbn [join]. rewrite <- app_assoc. reflexivity.
Qed.

(** An entry of solid words with single spaces between them is in the filled
    text with each of its spaces as it is or turned into a line break. *)
Lemma fill_keeps_spaced width P (x : text) S :
  1 <= width -> spaced width x = true ->
  ws_end P = true -> closes_item S ->
  substr x (unbreak (fill width (P ++ x ++ S))).
Proof.
  intros Hw Hx HP HS. apply spaced_words in Hx.
  pose proof (words_of_nonempty x) as Hne.
  pose proof (join_words_of x) as Ej.
  destruct HS as [HS|(p & S' & -> & Hp & HS)].
  - rewrite <- Ej at 1 2. apply fill_keeps_run; try assumption.
    eapply Forall_impl; [|exact Hx]. intros w (H1 & H2 & H3).
    repeat split; try assumption. lia.
  - destruct (join_snoc_last (words_of x) p Hne) as (ws0 & wl & Ews & Esn).
    rewrite Ej in Esn.
    apply (substr_trans _ (x ++ [p])); [apply substr_prefix|].
    replace (P ++ x ++ p :: S') with (P ++ (x ++ [p]) ++ S')
      by (rewrite <- !app_assoc; reflexivity).
    rewrite <- Esn. apply fill_keeps_run; try assumption.
    + destruct ws0; discriminate.
    + rewrite Ews in Hx. apply Forall_app in Hx. destruct Hx as [H0 Hl].
      apply Forall_app. split.
      * eapply Forall_impl; [|exact H0]. intros w (H1 & H2 & H3).
        repeat split; try assumption. lia.
      * inversion Hl as [|? ? (H1 & H2 & H3) _]; subst.
        constructor; [|constructor]. split; [destruct wl; discriminate|].
        split; [apply solid_snoc; assumption|].
        rewrite length_app. cbn [length]. lia.
Qed.

(** The same for an entry of a comma-joined list inside a text. *)
Lemma fill_keeps_spaced_joined width P (l : list text) S (x : text) :
  1 <= width -> In x l -> spaced width x = true ->
  ws_end P = true -> closes_item S ->
  substr x (unbreak (fill width (P ++ join (str ", ") l ++ S))).
Proof.
  intros Hw Hin Hx HP HS.
  destruct (join_comma_split l x Hin) as (J1 & J2 & -> & H1 & H2).
  replace (P ++ (J1 ++ x ++ J2) ++ S) with ((P ++ J1) ++ x ++ (J2 ++ S))
    by (rewrite <- !app_assoc; reflexivity).
  apply fill_keeps_spaced; try assumption.
  - destruct H1 as [->|(J & ->)]; [rewrite app_nil_r; exact HP|].
    rewrite app_assoc, ws_end_app by discriminate. reflexivity.
  - destruct H2 as [->|(J & ->)]; [exact HS|].
    right. exists 44%N, (str " " ++ J ++ S).
    split; [reflexivity|]. split; [left; reflexivity|reflexivity].
Qed.

Lemma in_unbroken_final_draft visa r b (x p : text) :
  In p (final_paragraphs visa r b) -> substr x (unbreak (fill 110 p)) ->
  substr x (unbreak (mk_final_draft visa r b)).
Proof.
  intros Hp Hx. apply (substr_trans _ (unbreak (fill 110 p))); [exact Hx|].
  apply unbreak_substr. apply (in_final_draft visa r b _ p Hp).
  apply substr_refl.
Qed.

End SpacedItems.

(** ** Awards of generated facts in the final draft *)

Section GeneratedAwards.
Context {U : UnicodeDB}.
Local Open Scope nat_scope.

(** A run of solid words that starts on the first line and ends before the
    second one is full is in the filled text as it is: the first line ends
    on a word that comes before the run, or the run starts the second line. *)
Lemma fill_keeps_run_verbatim width A (ws : list text) B L :
  1 <= width -> ws <> [] ->
  Forall (fun w : text => w <> [] /\ solid w = true /\ length w <= width) ws ->
  ws_end A = true -> ws_start B = true -> plain A = true ->
  max_run A <= L -> width < length A ->
  length A + length (join [space] ws) + L <= 2 * width + 1 ->
  substr (join [space] ws) (fill width (A ++ join [space] ws ++ B)).
Proof.
  intros Hw Hne Hws HA HB HpA HL Hlong Hfit.
  assert (Hws1 : Forall (fun w : text => w <> [] /\ solid w = true) ws).
  { eapply Forall_impl; [|exact Hws]. intros w (H1 & H2 & _). split; assumption. }
  assert (Hws2 : Forall (fun w : text =>
                           w <> [] /\ blank w = false /\ length w <= width) ws).
  { eapply Forall_impl; [|exact Hws]. intros w (H1 & H2 & H3).
    split; [exact H1|]. split; [|exact H3]. apply no_space_not_blank; [exact H1|].
    unfold solid in H2. apply andb_true_iff in H2. apply H2. }
  destruct (split_chunks_run A ws B Hne Hws1 HA HB) as (pre & post & E & Hpre).
  destruct (Hpre HpA) as [Hc Hb].
  assert (Hlen : total_len pre = length A) by (unfold total_len; rewrite Hc; reflexivity).
  unfold fill, wrap, wrap_chunks. rewrite E.
  destruct (total_len (pre ++ interleave ws ++ post)) as [|fuel] eqn:Ef.
  { rewrite total_len_app in Ef. lia. }
  apply (wrap_loop_run_second width ws post fuel pre L); try assumption.
  - lia.
  - eapply Forall_impl; [|exact Hb]. intros c Hcl. cbn beta in Hcl |- *.
    eapply Nat.le_trans; [exact Hcl|exact HL].
  - lia.
Qed.

Lemma plain_words (ws : list text) :
  Forall (fun w : text => no_space w = true) ws ->
  plain (join [space] ws ++ [space]) = true.
Proof.
  intros H. apply (chk_app _ plain_closed); [|reflexivity].
  apply chk_join; [apply plain_closed|reflexivity|].
  eapply Forall_impl; [|exact H]. intros w Hs. apply no_space_plain, Hs.
Qed.

(** The decimal text of a count in the configured ranges. *)
Lemma digits_of_count n :
  (0 <= n <= 5000)%Z ->
  length (str_of_int n) <= 4 /\ ((n <= 99)%Z -> length (str_of_int n) <= 2).
Proof.
  intros Hn.
  assert (H : forallb (fun k => (length (str_of_int (Z.of_nat k)) <=? 4) &&
                       ((Z.to_nat 100 <=? k) || (length (str_of_int (Z.of_nat k)) <=? 2)))
                (seq 0 (Z.to_nat 5001)) = true) by (vm_compute; reflexivity).
  rewrite forallb_forall in H. specialize (H (Z.to_nat n)).
  rewrite Z2Nat.id in H by lia.
  assert (Hin : In (Z.to_nat n) (seq 0 (Z.to_nat 5001))) by (apply in_seq; lia).
  apply H in Hin. apply andb_true_iff in Hin. destruct Hin as [H4 H2].
  apply Nat.leb_le in H4. split; [exact H4|]. intros Hs.
  apply orb_true_iff in H2. destruct H2 as [H2|H2].
  - apply Nat.leb_le in H2. lia.
  - apply Nat.leb_le in H2. exact H2.
Qed.

(** One or two of the configured awards, joined and closed by the full
    stop, are words without breaking points of at most 54 characters. *)
Lemma awards_sentence_words (l : list text) :
  incl l (AWARD_POOL default_config) -> l <> [] -> length l <= 2 ->
  Forall (fun w : text => w <> [] /\ solid w = true /\ length w <= 110)
    (words_of (join (str ", ") l ++ str ".")) /\
  length (join (str ", ") l ++ str ".") <= 54.
Proof.
  intros Hin Hne Hl.
  assert (H : forallb (fun l : list text =>
                forallb (short_word 110) (words_of (join (str ", ") l ++ str ".")) &&
                (length (join (str ", ") l ++ str ".") <=? 54))
              (map (fun a => [a]) (AWARD_POOL default_config) ++
               flat_map (fun a => map (fun a' => [a; a'])
                                    (AWARD_POOL default_config))
                 (AWARD_POOL default_config)) = true)
    by (vm_compute; reflexivity).
  rewrite forallb_forall in H. specialize (H l).
  assert (Hmem : In l (map (fun a => [a]) (AWARD_POOL default_config) ++
               flat_map (fun a => map (fun a' => [a; a'])
                                    (AWARD_POOL default_config))
                 (AWARD_POOL default_config))).
  { destruct l as [|a [|a' [|a'' l]]]; [contradiction| | |cbn [length] in Hl; lia].
    - apply in_or_app. left.
      apply (in_map (fun x : text => [x]) _ a). apply Hin. left. reflexivity.
    - apply in_or_app. right. apply in_flat_map. exists a.
      split; [apply Hin; left; reflexivity|].
      apply (in_map (fun x : text => [a; x]) _ a').
      apply Hin. right. left. reflexivity. }
  apply H in Hmem. apply andb_true_iff in Hmem. destruct Hmem as [Hw Hlen].
  apply Nat.leb_le in Hlen. split; [|exact Hlen].
  pose proof (spaced_words 110 (join (str ", ") l ++ str ".") Hw) as Hs.
  eapply Forall_impl; [|exact Hs]. intros w (H1 & H2 & H3).
  repeat split; try assumption. lia.
Qed.

Lemma length_words (ws : list text) :
  ws <> [] ->
  length (join [space] ws ++ [space]) =
  list_sum (map (fun w : text => S (length w)) ws).
Proof.
  induction ws as [|w ws IH]; intros Hne; [contradiction|].
  destruct ws as [|w' ws].
  - cbn [join map list_sum fold_right]. rewrite length_app. cbn [length]. lia.
  - rewrite join_space_cons, <- app_assoc, <- app_comm_cons, length_app.
    cbn [length]. rewrite IH by discriminate. cbn [map list_sum fold_right]. lia.
Qed.

(** The words of the evidence paragraph before the awards. *)
Lemma evidence_before_awards b i :
  name b = str "Dr. Alex " ++ str_of_int i -> key_awards b <> [] ->
  legal_evidence b =
  (join [space]
     [str "Dr."; str "Alex"; str_of_int i; str "has"; str "authored";
      str_of_int (pubs b); str "peer-reviewed"; str "publications";
      str "with"; str "approximately"; str_of_int (citations b);
      str "citations."; str "Notably,"; str "Dr."; str "Alex"; str_of_int i;
      str "received"] ++ [space]) ++
  join [space] (words_of (join (str ", ") (key_awards b) ++ str ".")) ++
  str " " ++ name b ++ str "'s research appears at " ++
  join (str ", ") (key_venues b) ++
  str " and is widely recognized in " ++ field b ++ str ".".
Proof.
  intros En Hne. rewrite join_words_of. unfold legal_evidence.
  rewrite En. remember (join (str ", ") (key_awards b)) as J eqn:EJ. clear EJ.
  destruct (key_awards b) as [|a0 l0]; [contradiction|].
  cbn [app join].
  repeat (rewrite <- app_assoc || rewrite <- app_comm_cons). reflexivity.
Qed.

(** The awards of generated facts with a name of at most 21 characters are
    in the final draft as they are: the sentence of the awards starts on the
    first line of the evidence paragraph and ends on the second. *)
Lemma generated_award_verbatim visa r b (a : text) :
  generated_facts default_config b ->
  length (key_awards b) <= 2 -> length (name b) <= 21 ->
  In a (key_awards b) -> substr a (mk_final_draft visa r b).
Proof.
  intros ((i & En) & _ & Hp & Hc & Haw & _) Hl Hn Hin.
  assert (Hne : key_awards b <> []) by (intros E; rewrite E in Hin; exact Hin).
  apply (in_final_draft visa r b a (legal_evidence b)).
  { unfold final_paragraphs. right. left. reflexivity. }
  destruct (awards_sentence_words (key_awards b) Haw Hne Hl) as [Hws HJ].
  destruct (str_of_int_solid i) as [Hsi Hni].
  destruct (str_of_int_solid (pubs b)) as [Hsp Hnp].
  destruct (str_of_int_solid (citations b)) as [Hsc Hnc].
  unfold solid in Hsi, Hsp, Hsc.
  apply andb_true_iff in Hsi, Hsp, Hsc.
  destruct Hsi as [Hsi _], Hsp as [Hsp _], Hsc as [Hsc _].
  cbn [PUB_RANGE CITATION_RANGE default_config fst snd] in Hp, Hc.
  destruct (digits_of_count (pubs b) ltac:(lia)) as [_ Hdp].
  specialize (Hdp ltac:(lia)).
  destruct (digits_of_count (citations b) ltac:(lia)) as [Hdc _].
  assert (Hdi : length (str_of_int i) <= 12).
  { rewrite En, length_app in Hn. cbn in Hn. lia. }
  assert (Hd1 : 1 <= length (str_of_int i)).
  { destruct (str_of_int i); [contradiction|cbn; lia]. }
  apply (substr_trans _ (join (str ", ") (key_awards b) ++ str ".")).
  { destruct (join_comma_split _ a Hin) as (J1 & J2 & -> & _).
    exists J1, (J2 ++ str "."). rewrite <- !app_assoc. reflexivity. }
  rewrite (evidence_before_awards b i En Hne).
  rewrite <- (join_words_of (join (str ", ") (key_awards b) ++ str ".")) at 1.
  pose proof (join_words_of (join (str ", ") (key_awards b) ++ str ".")) as EJ.
  apply (fill_keeps_run_verbatim 110 _ _ _ 13).
  - lia.
  - apply words_of_nonempty.
  - exact Hws.
  - rewrite ws_end_app by discriminate. reflexivity.
  - reflexivity.
  - apply plain_words.
    repeat (constructor; [first [reflexivity|assumption]|]). constructor.
  - apply max_run_words; [lia|].
    repeat (constructor;
            [split; [first [discriminate|assumption]|
             split; [first [reflexivity|assumption]|
                     first [cbn; lia|lia]]]|]).
    constructor.
  - rewrite length_words by discriminate. cbn [map list_sum fold_right].
    remember (length (str_of_int i)) as d.
    remember (length (str_of_int (pubs b))) as p.
    remember (length (str_of_int (citations b))) as c.
    cbn. lia.
  - rewrite EJ, length_words by discriminate. cbn [map list_sum fold_right].
    remember (length (str_of_int i)) as d.
    remember (length (str_of_int (pubs b))) as p.
    remember (length (str_of_int (citations b))) as c.
    remember (length (join (str ", ") (key_awards b) ++ str ".")) as m.
    cbn. lia.
Qed.

End GeneratedAwards.

(** ** The final draft and the facts *)

Section FinalDraftFacts.
Context {U : UnicodeDB}.

(** Every configured award and venue is made of solid words shorter than
    the width, with single spaces between them. *)
Lemma pools_spaced :
  forallb (spaced 110)
    (AWARD_POOL default_config ++ VENUE_POOL default_config) = true.
Proof. vm_compute. reflexivity. Qed.

(** C1, as the code has it. The paragraphs of the final draft contain the
    visa category, both counts, every award and every venue verbatim before
    they are wrapped. The wrapped draft contains verbatim every one of them
    that is a solid word shorter than the width: no whitespace in it and no
    hyphen that ends it or stands before a letter or a hyphen. The two counts
    are solid words always. A category, an award or a venue made of such
    words with single spaces between them, as every configured award is, is
    in the wrapped draft with its words in order and next to each other, each
    of its spaces either kept or turned into the line break of the wrapping:
    it is in the draft read with its line breaks as spaces. So are all
    awards and venues of generated facts, whatever the index in the name.
    For generated facts with at most two awards and a name of at most 21
    characters, that is an index of up to twelve digits, every award is in
    the wrapped draft verbatim. *)
Theorem final_draft_faithful (visa : text) (r : Person) (b : BeneficiaryFacts) :
  (substr visa (legal_intro visa r b) /\
   substr (str_of_int (pubs b)) (legal_evidence b) /\
   substr (str_of_int (citations b)) (legal_evidence b) /\
   (forall a, In a (key_awards b) -> substr a (legal_evidence b)) /\
   (forall v, In v (key_venues b) -> substr v (legal_evidence b))) /\
  (forall x,
     x = visa \/ In x (key_awards b) \/ In x (key_venues b) ->
     x <> [] -> solid x = true -> (length x < 110)%nat ->
     substr x (mk_final_draft visa r b)) /\
  ((length (str_of_int (pubs b)) < 110)%nat ->
   substr (str_of_int (pubs b)) (mk_final_draft visa r b)) /\
  ((length (str_of_int (citations b)) < 110)%nat ->
   substr (str_of_int (citations b)) (mk_final_draft visa r b)) /\
  (forall x,
     x = visa \/ In x (key_awards b) \/ In x (key_venues b) ->
     spaced 110 x = true ->
     substr x (unbreak (mk_final_draft visa r b))) /\
  (generated_facts default_config b ->
   forall x, In x (key_awards b) \/ In x (key_venues b) ->
   substr x (unbreak (mk_final_draft visa r b))) /\
  (generated_facts default_config b ->
   (length (key_awards b) <= 2)%nat -> (length (name b) <= 21)%nat ->
   forall a, In a (key_awards b) -> substr a (mk_final_draft visa r b)).
Proof.
  assert (Hw : (1 <= 110)%nat) by lia.
  assert (Hint : In (legal_intro visa r b) (final_paragraphs visa r b))
    by (left; reflexivity).
  assert (Hev : In (legal_evidence b) (final_paragraphs visa r b))
    by (right; left; reflexivity).
  assert (Hun : forall x,
             x = visa \/ In x (key_awards b) \/ In x (key_venues b) ->
             spaced 110 x = true ->
             substr x (unbreak (mk_final_draft visa r b))).
  { intros x [->|[Ha|Hv]] Hs.
    + apply (in_unbroken_final_draft _ _ _ _ _ Hint).
      destruct (legal_intro_visa visa r b) as (rest & ->).
      apply fill_keeps_spaced; try assumption; [|left; reflexivity].
      rewrite !app_assoc. rewrite ws_end_app by discriminate. reflexivity.
    + apply (in_unbroken_final_draft _ _ _ _ _ Hev).
      destruct (legal_evidence_awards b) as (P & S & -> & HP & HS).
      { intros E. rewrite E in Ha. exact Ha. }
      apply fill_keeps_spaced_joined; assumption.
    + apply (in_unbroken_final_draft _ _ _ _ _ Hev).
      destruct (legal_evidence_venues b) as (P & S & -> & HP & HS).
      apply fill_keeps_spaced_joined; assumption. }
  split; [|split; [|split; [|split; [|split; [|split]]]]].
  - split; [|split; [|split; [|split]]].
    + destruct (legal_intro_visa visa r b) as (rest & ->). apply substr_mid.
    + destruct (legal_evidence_counts b) as (rest & ->). apply substr_mid.
    + destruct (legal_evidence_citations b) as (rest & ->). apply substr_mid.
    + intros a Ha.
      destruct (legal_evidence_awards b) as (P & S & -> & _ & _).
      { intros E. rewrite E in Ha. exact Ha. }
      apply substr_app_r, substr_app_l, substr_join, Ha.
    + intros v Hv. destruct (legal_evidence_venues b) as (P & S & -> & _ & _).
      apply substr_app_r, substr_app_l, substr_join, Hv.
  - intros x [->|[Ha|Hv]] Hne Hs Hl.
    + apply (in_final_draft _ _ _ _ _ Hint).
      destruct (legal_intro_visa visa r b) as (rest & ->).
      apply fill_keeps_item; try assumption; [|left; reflexivity].
      rewrite !app_assoc. rewrite ws_end_app by discriminate. reflexivity.
    + apply (in_final_draft _ _ _ _ _ Hev).
      destruct (legal_evidence_awards b) as (P & S & -> & HP & HS).
      { intros E. rewrite E in Ha. exact Ha. }
      apply fill_keeps_joined_item; assumption.
    + apply (in_final_draft _ _ _ _ _ Hev).
      destruct (legal_evidence_venues b) as (P & S & -> & HP & HS).
      apply fill_keeps_joined_item; assumption.
  - intros Hl. apply (in_final_draft _ _ _ _ _ Hev).
    destruct (legal_evidence_counts b) as (rest & ->).
    destruct (str_of_int_solid (pubs b)) as [Hs Hne].
    apply fill_keeps_item; try assumption.
    + rewrite ws_end_app by discriminate. reflexivity.
    + left. reflexivity.
  - intros Hl. apply (in_final_draft _ _ _ _ _ Hev).
    destruct (legal_evidence_citations b) as (rest & ->).
    destruct (str_of_int_solid (citations b)) as [Hs Hne].
    apply fill_keeps_item; try assumption.
    + rewrite !app_assoc. rewrite ws_end_app by discriminate. reflexivity.
    + left. reflexivity.
  - exact Hun.
  - intros (_ & _ & _ & _ & Haw & Hve) x Hx. apply Hun; [right; exact Hx|].
    pose proof pools_spaced as Hp. rewrite forallb_forall in Hp.
    apply Hp. apply in_or_app.
    destruct Hx as [Hx|Hx]; [left; apply Haw|right; apply Hve]; exact Hx.
  - intros Hg Hl Hn a Ha. apply generated_award_verbatim; assumption.
Qed.

End FinalDraftFacts.

Lemma final_draft_faithful_witness :
  substr (str "EB-1A") (@mk_final_draft ascii_only (str "EB-1A") recommender_1 facts_1) /\
  substr (str "EMNLP") (@mk_final_draft ascii_only (str "EB-1A") recommender_1 facts_1) /\
  substr (str_of_int 22) (@mk_final_draft ascii_only (str "EB-1A") recommender_1 facts_1) /\
  substr (str_of_int 1400) (@mk_final_draft ascii_only (str "EB-1A") recommender_1 facts_1) /\
  substr (str "ACM Best Paper Award")
    (@mk_final_draft ascii_only (str "EB-1A") recommender_1 facts_1) /\
  substr (str "IEEE Fellow")
    (unbreak (@mk_final_draft ascii_only (str "EB-1A") recommender_1 facts_ada)).
Proof.
  destruct (@final_draft_faithful ascii_only (str "EB-1A") recommender_1 facts_1)
    as (_ & Hx & Hp & Hc & _ & _ & Hg).
  destruct (@final_draft_faithful ascii_only (str "EB-1A") recommender_1 facts_ada)
    as (_ & _ & _ & _ & Hu & _).
  split; [|split; [|split; [|split; [|split]]]].
  - apply Hx; [left; reflexivity|discriminate|reflexivity|cbn; lia].
  - apply Hx; [right; right; right; left; reflexivity|discriminate|reflexivity|
               cbn; lia].
  - apply Hp. cbn. lia.
  - apply Hc. cbn. lia.
  - apply Hg; [exact facts_1_generated|cbn; lia|cbn; lia|left; reflexivity].
  - apply Hu; [right; left; left; reflexivity|reflexivity].
Defined.
